(** * A shallow embedding of jhillyerd/sudoku-solver

    The Go sources embedded here are [src/sudoku.go] (the [Game] solver with
    the full-board minimum-remaining-values scan, together with [readGame])
    and [src/unnamed/part_000] (the [Board] variant that keeps per-row and
    per-column remaining counters).  [src/solver.go] and [src/main.go] hold
    the code of [src/sudoku.go] again, split over two files.

    Go's [int] is modelled as [Z] with the 64-bit wrap-around written out
    where the program does arithmetic on a field; a slice is a [list] whose
    indexing panics out of range; a panic is a value of type [panic]; the
    recursion of [recursiveSolver] is driven by a fuel argument. *)

From stdpp Require Import base tactics option list numbers strings.

Local Open Scope Z_scope.

(** ** The Go runtime, as far as the program uses it *)

(** Two's-complement wrap-around of a 64-bit [int]. *)
Definition wrap (z : Z) : Z := (z + 2 ^ 63) `mod` 2 ^ 64 - 2 ^ 63.

Definition int_range (z : Z) : Prop := - 2 ^ 63 ≤ z < 2 ^ 63.

(** [x++] and [x--] on an [int]. *)
Definition incr (z : Z) : Z := wrap (z + 1).
Definition decr (z : Z) : Z := wrap (z - 1).

(** The panics the program can raise: its own two, and the runtime's
    bounds check ("index out of range [i] with length n"). *)
Inductive panic : Type :=
| InvalidRow (row : Z)
| InvalidCol (col : Z)
| IndexOutOfRange (i : Z) (n : Z).

(** The outcome of running a piece of the program: a normal return, a
    panic, or (for the fuel-driven recursion only) exhausted fuel. *)
Inductive outcome (A : Type) : Type :=
| Ret (a : A)
| Panic (p : panic)
| OutOfFuel.

Arguments Ret {A} a.
Arguments Panic {A} p.
Arguments OutOfFuel {A}.

#[global] Instance outcome_ret : MRet outcome := λ A a, Ret a.

#[global] Instance outcome_bind : MBind outcome := λ A B f m,
  match m with
  | Ret a => f a
  | Panic p => Panic p
  | OutOfFuel => OutOfFuel
  end.

(** [s[i]] read from a slice. *)
Definition index {A} (s : list A) (i : Z) : outcome A :=
  if decide (0 ≤ i) then
    match s !! Z.to_nat i with
    | Some x => Ret x
    | None => Panic (IndexOutOfRange i (Z.of_nat (length s)))
    end
  else Panic (IndexOutOfRange i (Z.of_nat (length s))).

(** [s[i] = x] written to a slice. *)
Definition store {A} (s : list A) (i : Z) (x : A) : outcome (list A) :=
  if decide (0 ≤ i < Z.of_nat (length s)) then Ret (<[Z.to_nat i := x]> s)
  else Panic (IndexOutOfRange i (Z.of_nat (length s))).

(** [m[r][c]] and [m[r][c] = x] on a slice of slices. *)
Definition index2 {A} (m : list (list A)) (r c : Z) : outcome A :=
  cols ← index m r; index cols c.

Definition store2 {A} (m : list (list A)) (r c : Z) (x : A)
  : outcome (list (list A)) :=
  cols ← index m r; cols' ← store cols c x; store m r cols'.

(** [for i := lo; i < hi; i++ { s = body i s }], the body not touching [i]. *)
Fixpoint for_steps {S} (n : nat) (i : Z) (body : Z → S → outcome S) (s : S)
  : outcome S :=
  match n with
  | O => Ret s
  | Datatypes.S n' => s' ← body i s; for_steps n' (i + 1) body s'
  end.

Definition for_lt {S} (lo hi : Z) (body : Z → S → outcome S) (s : S)
  : outcome S :=
  for_steps (Z.to_nat (hi - lo)) lo body s.

(** [for i, x := range l { s = body i x s }], counting from [i]. *)
Fixpoint range_from {A S} (i : Z) (l : list A) (body : Z → A → S → outcome S)
  (s : S) : outcome S :=
  match l with
  | [] => Ret s
  | x :: l' => s' ← body i x s; range_from (i + 1) l' body s'
  end.

Definition for_range {A S} (l : list A) (body : Z → A → S → outcome S) (s : S)
  : outcome S :=
  range_from 0 l body s.

(** The index-value pairs a [range] over [l] visits, counting from [i]. *)
Fixpoint enumerate_from {A} (i : Z) (l : list A) : list (Z * A) :=
  match l with
  | [] => []
  | x :: l' => (i, x) :: enumerate_from (i + 1) l'
  end.

Definition enumerate {A} (l : list A) : list (Z * A) := enumerate_from 0 l.

(** [const DIM = 9] *)
Definition DIM : Z := 9.

(** A board matrix, accessed as [board[row][col]]. *)
Abbreviation grid := (list (list Z)) (only parsing).

(** [CellCandidates], whose body is the same text in [sudoku.go] and in
    [part_000] up to the name of the receiver; [cells] is the receiver's
    matrix ([g.board], respectively [b.cell]). *)
Definition cellCandidates (cells : grid) (row col : Z) : outcome (list bool) :=
  if decide (row < 0 ∨ DIM < row) then Panic (InvalidRow row)
  else if decide (col < 0 ∨ DIM < col) then Panic (InvalidCol col)
  else
    let candidates := replicate (Z.to_nat (DIM + 1)) false in
    candidates ← for_lt 1 (DIM + 1)
      (λ i candidates, store candidates i true) candidates;
    candidates ← for_lt 0 DIM
      (λ i candidates, v ← index2 cells row i; store candidates v false)
      candidates;
    candidates ← for_lt 0 DIM
      (λ i candidates, v ← index2 cells i col; store candidates v false)
      candidates;
    let rowStart := row `quot` 3 * 3 in
    let rowEnd := rowStart + DIM `quot` 3 in
    let colStart := col `quot` 3 * 3 in
    let colEnd := colStart + DIM `quot` 3 in
    for_lt rowStart rowEnd
      (λ ri candidates,
         for_lt colStart colEnd
           (λ ci candidates, v ← index2 cells ri ci; store candidates v false)
           candidates)
      candidates.

(** ** [src/sudoku.go]: the [Game] solver *)

Record Game : Type := mkGame {
  board : grid;
  remaining : Z;
  backtracks : Z
}.

Definition NewGame : Game :=
  {| board := replicate (Z.to_nat DIM) (replicate (Z.to_nat DIM) 0);
     remaining := DIM * DIM;
     backtracks := 0 |}.

Definition ValidSolution (g : Game) : bool := bool_decide (remaining g = 0).

Definition MakeMove (g : Game) (row col val : Z) : outcome Game :=
  cur ← index2 (board g) row col;
  let remaining' :=
    if bool_decide (cur = 0) && bool_decide (val ≠ 0)
    then decr (remaining g) else remaining g in
  board' ← store2 (board g) row col val;
  Ret {| board := board'; remaining := remaining';
         backtracks := backtracks g |}.

Definition UnmakeMove (g : Game) (row col : Z) : outcome Game :=
  cur ← index2 (board g) row col;
  g' ← (if bool_decide (cur ≠ 0) then
          board' ← store2 (board g) row col 0;
          Ret {| board := board'; remaining := incr (remaining g);
                 backtracks := backtracks g |}
        else Ret g);
  Ret {| board := board g'; remaining := remaining g';
         backtracks := incr (backtracks g') |}.

Definition CellCandidates (g : Game) (row col : Z) : outcome (list bool) :=
  cellCandidates (board g) row col.

(** The counting loop of [NextEmptyCell]:
    [for i := 1; i <= DIM; i++ { if candidates[i] { cur++ } }]. *)
Definition countCandidates (candidates : list bool) (cur : Z) : outcome Z :=
  for_lt 1 (DIM + 1)
    (λ i cur, a ← index candidates i; Ret (if a : bool then incr cur else cur))
    cur.

(** The loop state of [NextEmptyCell] is [(row, col, min)]; [row] and [col]
    are the named results, which Go initialises to 0. *)
Definition NextEmptyCell (g : Game) : outcome (Z * Z) :=
  let min := DIM + 1 in
  st ← for_range (board g)
    (λ ri cols st,
       for_range cols
         (λ ci val (st : Z * Z * Z),
            let '(row, col, min) := st in
            if bool_decide (val = 0) then
              candidates ← CellCandidates g ri ci;
              cur ← countCandidates candidates 0;
              if bool_decide (cur < min) then Ret (ri, ci, cur)
              else Ret (row, col, min)
            else Ret (row, col, min))
         st)
    (0, 0, min);
  let '(row, col, _) := st in
  Ret (row, col).

(** The candidate loop of [recursiveSolver], over the pairs that
    [for val, avail := range candidates] still has to visit; [self] is the
    recursive call and [solved] the named result. *)
Fixpoint tryCandidates (self : Game → outcome (bool * Game)) (row col : Z)
  (rest : list (Z * bool)) (solved : bool) (g : Game)
  : outcome (bool * Game) :=
  match rest with
  | [] => Ret (solved, g)
  | (val, avail) :: rest' =>
    if avail then
      g1 ← MakeMove g row col val;
      '(solved', g2) ← self g1;
      if solved' : bool then Ret (true, g2)
      else
        g3 ← UnmakeMove g2 row col;
        tryCandidates self row col rest' solved' g3
    else tryCandidates self row col rest' solved g
  end.

Fixpoint recursiveSolver (fuel : nat) (g : Game) : outcome (bool * Game) :=
  match fuel with
  | O => OutOfFuel
  | S fuel' =>
    if ValidSolution g then Ret (true, g)
    else
      '(row, col) ← NextEmptyCell g;
      candidates ← CellCandidates g row col;
      tryCandidates (recursiveSolver fuel') row col (enumerate candidates)
        false g
  end.

(** [readGame].  The file is modelled by the lines its [bufio.Scanner]
    delivers, each line by the runes that [for _, c := range line] visits;
    a failing [os.Open] and scanner errors are outside the model.  The
    result is [inl] the board or [inr] the returned error. *)
Inductive error : Type :=
| EOFWhileReadingRow (row : Z).

Definition readLine (row : Z) (line : list Z) (b : Game) : outcome Game :=
  st ← for_range line
    (λ _ c (st : Z * Game),
       let '(col, b) := st in
       if bool_decide (47 < c) && bool_decide (c < 58) then
         b' ← (if bool_decide (c > 0) then MakeMove b row col (c - 48)
               else Ret b);
         Ret (incr col, b')
       else Ret (col, b))
    (0, b);
  Ret st.2.

Fixpoint readRows (n : nat) (row : Z) (scanner : list (list Z)) (b : Game)
  : outcome (Game + error) :=
  match n with
  | O => Ret (inl b)
  | S n' =>
    match scanner with
    | [] => Ret (inr (EOFWhileReadingRow (row + 1)))
    | line :: scanner' =>
      b' ← readLine row line b;
      readRows n' (row + 1) scanner' b'
    end
  end.

Definition readGame (lines : list (list Z)) : outcome (Game + error) :=
  readRows (Z.to_nat DIM) 0 lines NewGame.

(** The runes of an ASCII string literal. *)
Fixpoint runes (s : string) : list Z :=
  match s with
  | EmptyString => []
  | String a s' => Z.of_nat (Ascii.nat_of_ascii a) :: runes s'
  end.

(** One line that [validateSolution] prints:
    ["Invalid value %v at row %v, col %v"]. *)
Inductive report : Type :=
| InvalidValue (expect row col : Z).

(** [validateSolution].  Its parameter is a copy of the caller's struct,
    whose [board] slice still shares its rows with the caller's: the writes
    [b.board[row][col] = 0] reach the caller's matrix and are never undone.
    The state of the loops is that matrix and the lines printed so far; the
    result holds the matrix the caller is left with. *)
Definition validateSolution (b : Game) : outcome (grid * list report) :=
  for_lt 0 DIM
    (λ row st,
       for_lt 0 DIM
         (λ col (st : grid * list report),
            let '(cells, printed) := st in
            expect ← index2 cells row col;
            cells ← store2 cells row col 0;
            candidates ←
              CellCandidates {| board := cells; remaining := remaining b;
                                backtracks := backtracks b |} row col;
            ok ← index candidates expect;
            Ret (cells,
                 if ok : bool then printed
                 else printed ++ [InvalidValue expect (row + 1) (col + 1)]))
         st)
    (board b, []).

(** ** [src/unnamed/part_000]: the [Board] variant with per-row and
    per-column remaining counters *)
Module Incremental.

Record Board : Type := mkBoard {
  cell : grid;
  rowRemaining : list Z;
  colRemaining : list Z;
  remaining : Z;
  backtracks : Z
}.

Definition NewBoard : Board :=
  {| cell := replicate (Z.to_nat DIM) (replicate (Z.to_nat DIM) 0);
     rowRemaining := replicate (Z.to_nat DIM) DIM;
     colRemaining := replicate (Z.to_nat DIM) DIM;
     remaining := DIM * DIM;
     backtracks := 0 |}.

Definition ValidSolution (b : Board) : bool := bool_decide (remaining b = 0).

Definition MakeMove (b : Board) (row col val : Z) : outcome Board :=
  cur ← index2 (cell b) row col;
  b1 ← (if bool_decide (cur = 0) && bool_decide (val ≠ 0) then
          r ← index (rowRemaining b) row;
          rowRemaining' ← store (rowRemaining b) row (decr r);
          c ← index (colRemaining b) col;
          colRemaining' ← store (colRemaining b) col (decr c);
          Ret {| cell := cell b; rowRemaining := rowRemaining';
                 colRemaining := colRemaining';
                 remaining := decr (remaining b);
                 backtracks := backtracks b |}
        else Ret b);
  cell' ← store2 (cell b1) row col val;
  Ret {| cell := cell'; rowRemaining := rowRemaining b1;
         colRemaining := colRemaining b1; remaining := remaining b1;
         backtracks := backtracks b1 |}.

Definition UnmakeMove (b : Board) (row col : Z) : outcome Board :=
  cur ← index2 (cell b) row col;
  b1 ← (if bool_decide (cur ≠ 0) then
          r ← index (rowRemaining b) row;
          rowRemaining' ← store (rowRemaining b) row (incr r);
          c ← index (colRemaining b) col;
          colRemaining' ← store (colRemaining b) col (incr c);
          cell' ← store2 (cell b) row col 0;
          Ret {| cell := cell'; rowRemaining := rowRemaining';
                 colRemaining := colRemaining';
                 remaining := incr (remaining b);
                 backtracks := backtracks b |}
        else Ret b);
  Ret {| cell := cell b1; rowRemaining := rowRemaining b1;
         colRemaining := colRemaining b1; remaining := remaining b1;
         backtracks := incr (backtracks b1) |}.

(** The first loop of [NextEmptyCell], over [b.rowRemaining]; its state is
    [(row, rmin)]. *)
Definition pickRow (b : Board) : outcome (Z * Z) :=
  for_range (rowRemaining b)
    (λ i rem (st : Z * Z),
       let '(row, rmin) := st in
       if bool_decide (0 < rem) && bool_decide (rem < rmin)
       then Ret (i, rem) else Ret (row, rmin))
    (-1, DIM + 1).

(** The second loop, over [b.colRemaining]; its state is [(col, cmin)]. *)
Definition pickCol (b : Board) (row : Z) : outcome (Z * Z) :=
  for_range (colRemaining b)
    (λ i rem (st : Z * Z),
       let '(col, cmin) := st in
       v ← index2 (cell b) row i;
       if bool_decide (v = 0) && bool_decide (0 < rem)
          && bool_decide (rem < cmin)
       then Ret (i, rem) else Ret (col, cmin))
    (-1, DIM + 1).

Definition NextEmptyCell (b : Board) : outcome (Z * Z) :=
  rs ← pickRow b;
  cs ← pickCol b rs.1;
  Ret (rs.1, cs.1).

Definition CellCandidates (b : Board) (row col : Z) : outcome (list bool) :=
  cellCandidates (cell b) row col.

Fixpoint tryCandidates (self : Board → outcome (bool * Board)) (row col : Z)
  (rest : list (Z * bool)) (solved : bool) (b : Board)
  : outcome (bool * Board) :=
  match rest with
  | [] => Ret (solved, b)
  | (val, avail) :: rest' =>
    if avail then
      b1 ← MakeMove b row col val;
      '(solved', b2) ← self b1;
      if solved' : bool then Ret (true, b2)
      else
        b3 ← UnmakeMove b2 row col;
        tryCandidates self row col rest' solved' b3
    else tryCandidates self row col rest' solved b
  end.

Fixpoint recursiveSolver (fuel : nat) (b : Board) : outcome (bool * Board) :=
  match fuel with
  | O => OutOfFuel
  | S fuel' =>
    if ValidSolution b then Ret (true, b)
    else
      '(row, col) ← NextEmptyCell b;
      candidates ← CellCandidates b row col;
      tryCandidates (recursiveSolver fuel') row col (enumerate candidates)
        false b
  end.

(** [readBoard], over the lines the scanner delivers, as [readGame]. *)
Definition readLine (row : Z) (line : list Z) (b : Board) : outcome Board :=
  st ← for_range line
    (λ _ c (st : Z * Board),
       let '(col, b) := st in
       if bool_decide (47 < c) && bool_decide (c < 58) then
         b' ← (if bool_decide (c > 0) then MakeMove b row col (c - 48)
               else Ret b);
         Ret (incr col, b')
       else Ret (col, b))
    (0, b);
  Ret st.2.

Fixpoint readRows (n : nat) (row : Z) (scanner : list (list Z)) (b : Board)
  : outcome (Board + error) :=
  match n with
  | O => Ret (inl b)
  | S n' =>
    match scanner with
    | [] => Ret (inr (EOFWhileReadingRow (row + 1)))
    | line :: scanner' =>
      b' ← readLine row line b;
      readRows n' (row + 1) scanner' b'
    end
  end.

Definition readBoard (lines : list (list Z)) : outcome (Board + error) :=
  readRows (Z.to_nat DIM) 0 lines NewBoard.

End Incremental.

(** ** The search, over the methods it calls

    [recursiveSolver] is the same text in both files up to the receiver's
    type.  [search] is that text over a record of the five methods it
    calls; both embeddings above are instances of it (lemmas
    [recursiveSolver_search] and [Incremental_recursiveSolver_search]). *)
Record Methods (St : Type) : Type := mkMethods {
  validSolution : St → bool;
  nextEmptyCell : St → outcome (Z * Z);
  candidatesAt : St → Z → Z → outcome (list bool);
  makeMove : St → Z → Z → Z → outcome St;
  unmakeMove : St → Z → Z → outcome St
}.

Arguments mkMethods {St}.
Arguments validSolution {St}.
Arguments nextEmptyCell {St}.
Arguments candidatesAt {St}.
Arguments makeMove {St}.
Arguments unmakeMove {St}.

Section Search.
Context {St : Type} (M : Methods St).

Fixpoint tryEach (self : St → outcome (bool * St)) (row col : Z)
  (rest : list (Z * bool)) (solved : bool) (g : St)
  : outcome (bool * St) :=
  match rest with
  | [] => Ret (solved, g)
  | (val, avail) :: rest' =>
    if avail then
      g1 ← makeMove M g row col val;
      '(solved', g2) ← self g1;
      if solved' : bool then Ret (true, g2)
      else
        g3 ← unmakeMove M g2 row col;
        tryEach self row col rest' solved' g3
    else tryEach self row col rest' solved g
  end.

Fixpoint search (fuel : nat) (g : St) : outcome (bool * St) :=
  match fuel with
  | O => OutOfFuel
  | S fuel' =>
    if validSolution M g then Ret (true, g)
    else
      '(row, col) ← nextEmptyCell M g;
      candidates ← candidatesAt M g row col;
      tryEach (search fuel') row col (enumerate candidates) false g
  end.
End Search.

Definition GameMethods : Methods Game :=
  mkMethods ValidSolution NextEmptyCell CellCandidates MakeMove UnmakeMove.

(** The methods of [Game] with [mk] standing in for [MakeMove]. *)
Definition withMakeMove (mk : Game → Z → Z → Z → outcome Game)
  : Methods Game :=
  mkMethods ValidSolution NextEmptyCell CellCandidates mk UnmakeMove.

Definition BoardMethods : Methods Incremental.Board :=
  mkMethods Incremental.ValidSolution Incremental.NextEmptyCell
    Incremental.CellCandidates Incremental.MakeMove Incremental.UnmakeMove.

(** ** Vocabulary of the specification *)

(** The legal coordinates, [0 .. DIM-1]. *)
Definition coords : list Z := seqZ 0 DIM.

(** The cell at [(r, c)], 0 outside the matrix. *)
Definition get (b : grid) (r c : Z) : Z :=
  default 0 (cols ← b !! Z.to_nat r; cols !! Z.to_nat c).

(** The matrix with the cell at [(r, c)] replaced by [v]. *)
Definition setCell (b : grid) (r c v : Z) : grid :=
  match b !! Z.to_nat r with
  | Some cols => <[Z.to_nat r := <[Z.to_nat c := v]> cols]> b
  | None => b
  end.

(** A 9×9 matrix, as [NewGame] and [NewBoard] allocate it. *)
Definition shape9 (b : grid) : Prop :=
  length b = 9%nat ∧ Forall (λ cols, length cols = 9%nat) b.

(** A 9×9 matrix whose cells are in 0..9 (0 is the empty cell). *)
Definition wf_grid (b : grid) : Prop :=
  shape9 b ∧ Forall (Forall (λ v, 0 ≤ v ≤ 9)) b.

(** The cells of a row, of a column, and of the 3×3 box around [(r, c)]. *)
Definition rowCells (r : Z) : list (Z * Z) := (λ c, (r, c)) <$> coords.
Definition colCells (c : Z) : list (Z * Z) := (λ r, (r, c)) <$> coords.
Definition boxCells (r c : Z) : list (Z * Z) :=
  r' ← seqZ (r `quot` 3 * 3) 3; c' ← seqZ (c `quot` 3 * 3) 3; [(r', c')].

(** All 81 cells, in row-major order. *)
Definition allCells : list (Z * Z) := r ← coords; rowCells r.

Definition valuesAt (b : grid) (ps : list (Z * Z)) : list Z :=
  (λ p, get b p.1 p.2) <$> ps.

Definition rowVals (b : grid) (r : Z) : list Z := valuesAt b (rowCells r).
Definition colVals (b : grid) (c : Z) : list Z := valuesAt b (colCells c).
Definition boxVals (b : grid) (r c : Z) : list Z := valuesAt b (boxCells r c).

(** The number of cells of [ps] that hold 0. *)
Definition zerosAt (b : grid) (ps : list (Z * Z)) : Z :=
  Z.of_nat (length (filter (λ p, get b p.1 p.2 = 0) ps)).

Definition countZeros (b : grid) : Z := zerosAt b allCells.

(** The other cells that share a row, a column or a box with [p]. *)
Definition peers (p : Z * Z) : list (Z * Z) :=
  filter (λ q, q ≠ p) (rowCells p.1 ++ colCells p.2 ++ boxCells p.1 p.2).

(** Row, column and box uniqueness of every non-zero cell. *)
Definition consistent (b : grid) : Prop :=
  Forall (λ p, get b p.1 p.2 ≠ 0 →
               Forall (λ q, get b q.1 q.2 ≠ get b p.1 p.2) (peers p))
    allCells.

Definition full (b : grid) : Prop :=
  Forall (λ p, get b p.1 p.2 ≠ 0) allCells.

(** A finished board: no zero cell, and every row, column and box a
    permutation of 1..9. *)
Definition valid_solution (s : grid) : Prop :=
  wf_grid s ∧ full s ∧
  Forall (λ r, rowVals s r ≡ₚ seqZ 1 9) coords ∧
  Forall (λ c, colVals s c ≡ₚ seqZ 1 9) coords ∧
  Forall (λ p, boxVals s p.1 p.2 ≡ₚ seqZ 1 9) allCells.

(** [s] keeps every filled cell of [b]. *)
Definition extends (b s : grid) : Prop :=
  Forall (λ p, get b p.1 p.2 ≠ 0 → get s p.1 p.2 = get b p.1 p.2) allCells.

(** [s] is a valid completion of [b]. *)
Definition completion (b s : grid) : Prop := valid_solution s ∧ extends b s.

Definition solvable (b : grid) : Prop := ∃ s, completion b s.

Definition unsolvable (b : grid) : Prop := ∀ s, ¬ completion b s.

(** The number of values 1..9 that a candidate slice marks as legal. *)
Definition numCandidates (candidates : list bool) : Z :=
  Z.of_nat (length (filter (λ v, candidates !! Z.to_nat v = Some true)
                           (seqZ 1 DIM))).

(** The candidate count of a cell of a [Game]; 0 if [CellCandidates]
    panics. *)
Definition candidateCount (g : Game) (r c : Z) : Z :=
  match CellCandidates g r c with
  | Ret candidates => numCandidates candidates
  | _ => 0
  end.

(** Row-major order on cells. *)
Definition scan_le (p q : Z * Z) : Prop :=
  p.1 < q.1 ∨ (p.1 = q.1 ∧ p.2 ≤ q.2).

(** The data-model invariant on [remaining], for both variants. *)
Definition game_inv (g : Game) : Prop :=
  wf_grid (board g) ∧ remaining g = countZeros (board g).

Definition board_inv (b : Incremental.Board) : Prop :=
  wf_grid (Incremental.cell b) ∧
  Incremental.remaining b = countZeros (Incremental.cell b) ∧
  Incremental.rowRemaining b
    = (λ r, zerosAt (Incremental.cell b) (rowCells r)) <$> coords ∧
  Incremental.colRemaining b
    = (λ c, zerosAt (Incremental.cell b) (colCells c)) <$> coords.

(** What the clearing loops of [CellCandidates] have established after
    visiting the cells in [P]: slot 0 is false and slot [v] is true exactly
    when no visited cell holds [v]. *)
Definition cleared (b : grid) (candidates : list bool) (P : Z * Z → Prop)
  : Prop :=
  length candidates = 10%nat ∧ candidates !! 0%nat = Some false ∧
  ∀ v, 1 ≤ v ≤ 9 →
       candidates !! Z.to_nat v = Some true ↔ ∀ p, P p → get b p.1 p.2 ≠ v.

(** The body shared by the clearing loops:
    [candidates[cells[r][c]] = false]. *)
Definition clearAt (b : grid) (r c : Z) (candidates : list bool)
  : outcome (list bool) :=
  v ← index2 b r c; store candidates v false.

(** The cells whose values [CellCandidates] strikes out for [(r, c)]. *)
Definition unitCells (r c : Z) : list (Z * Z) :=
  rowCells r ++ colCells c ++ boxCells r c.

(** What the search guarantees about its result [res = (solved, g')] when
    started in [g]; [cells] projects the matrix out of a state and [Inv] is
    the invariant of the state.  On failure the matrix is the one the call
    started with and [g] has no valid completion; on success the matrix is
    full, keeps the filled cells of [g], and is consistent if [g] was. *)
Definition search_post {St : Type} (cells : St → grid) (Inv : St → Prop)
    (g : St) (res : bool * St) : Prop :=
  Inv res.2 ∧
  if res.1
  then full (cells res.2) ∧ extends (cells g) (cells res.2) ∧
       (consistent (cells g) → consistent (cells res.2))
  else cells res.2 = cells g ∧ unsolvable (cells g).

(** The cells that the scan of [NextEmptyCell] has visited when it is
    about to look at [(ri, ci)]. *)
Definition scanned (ri ci : Z) (p : Z * Z) : Prop :=
  p ∈ allCells ∧ (p.1 < ri ∨ (p.1 = ri ∧ p.2 < ci)).

(** The invariant of the scan of [NextEmptyCell] on its state
    [(row, col, min)]: [min] is the least candidate count of a visited
    empty cell and [(row, col)] the first visited empty cell with that
    count; as long as no empty cell was visited the state is the initial
    one. *)
Definition scan_inv (g : Game) (ri ci : Z) (st : Z * Z * Z) : Prop :=
  let '(row, col, min) := st in
  (∀ p, scanned ri ci p → get (board g) p.1 p.2 = 0 →
        min ≤ candidateCount g p.1 p.2 ∧
        (candidateCount g p.1 p.2 = min → scan_le (row, col) p)) ∧
  ((min = DIM + 1 ∧ row = 0 ∧ col = 0) ∨
   (scanned ri ci (row, col) ∧ get (board g) row col = 0 ∧
    candidateCount g row col = min)).

#[global] Instance shape9_dec b : Decision (shape9 b).
Proof. unfold shape9. apply _. Defined.
#[global] Instance wf_grid_dec b : Decision (wf_grid b).
Proof. unfold wf_grid. apply _. Defined.
#[global] Instance consistent_dec b : Decision (consistent b).
Proof. unfold consistent. apply _. Defined.
#[global] Instance full_dec b : Decision (full b).
Proof. unfold full. apply _. Defined.
#[global] Instance extends_dec b s : Decision (extends b s).
Proof. unfold extends. apply _. Defined.
#[global] Instance valid_solution_dec s : Decision (valid_solution s).
Proof. unfold valid_solution. apply _. Defined.
#[global] Instance completion_dec b s : Decision (completion b s).
Proof. unfold completion. apply _. Defined.
#[global] Instance game_inv_dec g : Decision (game_inv g).
Proof. unfold game_inv. apply _. Defined.
#[global] Instance board_inv_dec b : Decision (board_inv b).
Proof. unfold board_inv. apply _. Defined.

(** The invariants of the two loops of [Board.NextEmptyCell] after [k]
    rounds: nothing was picked as long as no counter (respectively no empty
    cell of the row) was seen, and what is picked is a row that has an
    empty cell (respectively an empty cell of the row). *)
Definition pickRow_inv (b : Incremental.Board) (k : nat) (st : Z * Z)
  : Prop :=
  (st = (-1, DIM + 1) ∧
   ∀ i, 0 ≤ i < Z.of_nat k →
        zerosAt (Incremental.cell b) (rowCells i) ≤ 0) ∨
  (0 ≤ st.1 < Z.of_nat k ∧
   0 < zerosAt (Incremental.cell b) (rowCells st.1)).

Definition pickCol_inv (b : Incremental.Board) (row : Z) (k : nat)
    (st : Z * Z) : Prop :=
  (st = (-1, DIM + 1) ∧
   ∀ i, 0 ≤ i < Z.of_nat k → get (Incremental.cell b) row i ≠ 0) ∨
  (0 ≤ st.1 < Z.of_nat k ∧ get (Incremental.cell b) row st.1 = 0).

(** The number of empty cells in a row and in a column of a [Board]. *)
Definition rowZeros (b : Incremental.Board) (r : Z) : Z :=
  zerosAt (Incremental.cell b) (rowCells r).
Definition colZeros (b : Incremental.Board) (c : Z) : Z :=
  zerosAt (Incremental.cell b) (colCells c).

(** What the two loops of [Board.NextEmptyCell] have found after [k]
    rounds: the first row of least positive counter, and in the row [row]
    the first empty cell whose column has the least counter. *)
Definition pickRow_min_inv (b : Incremental.Board) (k : nat) (st : Z * Z)
  : Prop :=
  (∀ i, 0 ≤ i < Z.of_nat k → 0 < rowZeros b i →
        st.2 ≤ rowZeros b i ∧ (rowZeros b i = st.2 → st.1 ≤ i)) ∧
  (st = (-1, DIM + 1) ∨
   (0 ≤ st.1 < Z.of_nat k ∧ st.2 = rowZeros b st.1 ∧ 0 < st.2)).

Definition pickCol_min_inv (b : Incremental.Board) (row : Z) (k : nat)
    (st : Z * Z) : Prop :=
  (∀ i, 0 ≤ i < Z.of_nat k → get (Incremental.cell b) row i = 0 →
        st.2 ≤ colZeros b i ∧ (colZeros b i = st.2 → st.1 ≤ i)) ∧
  (st = (-1, DIM + 1) ∨
   (0 ≤ st.1 < Z.of_nat k ∧ get (Incremental.cell b) row st.1 = 0 ∧
    st.2 = colZeros b st.1)).

(** The values of the digit characters of a line, in order. *)
Definition digitsOf (line : list Z) : list Z :=
  (λ c, c - 48) <$> filter (λ c, 47 < c < 58) line.

(** The row that [readGame] makes of at most nine digits: the digits,
    then empty cells. *)
Definition padRow (ds : list Z) : list Z :=
  ds ++ replicate (9 - length ds) 0.

(** The matrix that [readGame] makes of the first nine lines. *)
Definition parsedGrid (lines : list (list Z)) : grid :=
  (λ line, padRow (digitsOf line)) <$> take 9 lines.

(** The invariant of the rune loop of [readLine] after [k] runes of
    [line], started in [b] on row [row]. *)
Definition readLine_inv (b : Game) (row : Z) (line : list Z) (k : nat)
    (st : Z * Game) : Prop :=
  st.1 = Z.of_nat (length (digitsOf (take k line))) ∧
  board st.2
  = <[Z.to_nat row := padRow (digitsOf (take k line))]> (board b) ∧
  remaining st.2 = countZeros (board st.2) ∧
  backtracks st.2 = backtracks b.

(** ** Concrete boards *)

(** A finished board (the one the [Game] solver reaches from the empty
    board). *)
Definition solvedGrid : grid :=
  [[1; 2; 3; 4; 5; 6; 7; 8; 9]; [4; 5; 6; 7; 8; 9; 1; 2; 3];
   [7; 8; 9; 1; 2; 3; 4; 5; 6]; [2; 3; 1; 6; 7; 4; 8; 9; 5];
   [8; 7; 5; 9; 1; 2; 3; 6; 4]; [6; 9; 4; 5; 3; 8; 2; 1; 7];
   [3; 1; 7; 2; 6; 5; 9; 4; 8]; [5; 4; 2; 8; 9; 7; 6; 3; 1];
   [9; 6; 8; 3; 4; 1; 5; 7; 2]].

(** A puzzle with twelve empty cells that [solvedGrid] completes. *)
Definition puzzleGame : Game :=
  {| board :=
       [[0; 2; 3; 0; 5; 6; 7; 8; 0]; [4; 0; 6; 7; 8; 9; 1; 2; 3];
        [7; 8; 9; 1; 2; 3; 4; 5; 6]; [2; 3; 0; 6; 7; 4; 8; 9; 5];
        [8; 7; 5; 9; 0; 0; 3; 6; 4]; [6; 9; 4; 5; 3; 8; 2; 1; 7];
        [3; 1; 7; 2; 6; 5; 0; 4; 8]; [0; 4; 2; 8; 9; 7; 6; 3; 1];
        [9; 6; 8; 0; 4; 1; 5; 0; 0]];
     remaining := 12;
     backtracks := 0 |}.

(** [solvedGrid] with its first row starting [1; 1] and its last cell
    empty: two identical digits in one row. *)
Definition duplicateGame : Game :=
  {| board :=
       [[1; 1; 3; 4; 5; 6; 7; 8; 9]; [4; 5; 6; 7; 8; 9; 1; 2; 3];
        [7; 8; 9; 1; 2; 3; 4; 5; 6]; [2; 3; 1; 6; 7; 4; 8; 9; 5];
        [8; 7; 5; 9; 1; 2; 3; 6; 4]; [6; 9; 4; 5; 3; 8; 2; 1; 7];
        [3; 1; 7; 2; 6; 5; 9; 4; 8]; [5; 4; 2; 8; 9; 7; 6; 3; 1];
        [9; 6; 8; 3; 4; 1; 5; 7; 0]];
     remaining := 1;
     backtracks := 0 |}.

(** A full board whose [remaining] wrongly says 1: [solvedGrid] with a 2
    in its first cell. *)
Definition miscountedGame : Game :=
  {| board :=
       [[2; 2; 3; 4; 5; 6; 7; 8; 9]; [4; 5; 6; 7; 8; 9; 1; 2; 3];
        [7; 8; 9; 1; 2; 3; 4; 5; 6]; [2; 3; 1; 6; 7; 4; 8; 9; 5];
        [8; 7; 5; 9; 1; 2; 3; 6; 4]; [6; 9; 4; 5; 3; 8; 2; 1; 7];
        [3; 1; 7; 2; 6; 5; 9; 4; 8]; [5; 4; 2; 8; 9; 7; 6; 3; 1];
        [9; 6; 8; 3; 4; 1; 5; 7; 2]];
     remaining := 1;
     backtracks := 0 |}.

(** A consistent board without completion: the first cell is empty and
    every value 1..9 already stands in its row or column. *)
Definition deadEndGame : Game :=
  {| board :=
       [[0; 2; 3; 4; 5; 6; 7; 8; 9]; [1; 0; 0; 0; 0; 0; 0; 0; 0];
        [0; 0; 0; 0; 0; 0; 0; 0; 0]; [0; 0; 0; 0; 0; 0; 0; 0; 0];
        [0; 0; 0; 0; 0; 0; 0; 0; 0]; [0; 0; 0; 0; 0; 0; 0; 0; 0];
        [0; 0; 0; 0; 0; 0; 0; 0; 0]; [0; 0; 0; 0; 0; 0; 0; 0; 0];
        [0; 0; 0; 0; 0; 0; 0; 0; 0]];
     remaining := 72;
     backtracks := 0 |}.


(** [solvedGrid] with six cells emptied.  Four of them form a rectangle
    (rows 3 and 4, columns 3 and 7) that can be completed with 6, 9 / 9, 6
    or with 9, 6 / 6, 9; the two in the last row have one candidate each.
    [twoWayBoard] is the same matrix with the counters of the variant. *)
Definition twoWayGame : Game :=
  {| board :=
       [[1; 2; 3; 4; 5; 6; 7; 8; 9]; [4; 5; 6; 7; 8; 9; 1; 2; 3];
        [7; 8; 9; 1; 2; 3; 4; 5; 6]; [2; 3; 1; 0; 7; 4; 8; 0; 5];
        [8; 7; 5; 0; 1; 2; 3; 0; 4]; [6; 9; 4; 5; 3; 8; 2; 1; 7];
        [3; 1; 7; 2; 6; 5; 9; 4; 8]; [5; 4; 2; 8; 9; 7; 6; 3; 1];
        [0; 6; 8; 0; 4; 1; 5; 7; 2]];
     remaining := 6;
     backtracks := 0 |}.

Definition twoWayBoard : Incremental.Board :=
  {| Incremental.cell := board twoWayGame;
     Incremental.rowRemaining := [0; 0; 0; 2; 2; 0; 0; 0; 2];
     Incremental.colRemaining := [1; 0; 0; 3; 0; 0; 0; 2; 0];
     Incremental.remaining := 6;
     Incremental.backtracks := 0 |}.

(** The [Board] that holds the matrix of a [Game], with the counters that
    [MakeMove] would have built up while the matrix was filled in. *)
Definition boardOf (g : Game) : Incremental.Board :=
  {| Incremental.cell := board g;
     Incremental.rowRemaining :=
       (λ r, zerosAt (board g) (rowCells r)) <$> coords;
     Incremental.colRemaining :=
       (λ c, zerosAt (board g) (colCells c)) <$> coords;
     Incremental.remaining := remaining g;
     Incremental.backtracks := backtracks g |}.

(** Two runs, of the two variants, that end alike: both return, with
    related results, or both panic with the same value. *)
Definition outcome_rel {A B} (R : A → B → Prop) (x : outcome A)
    (y : outcome B) : Prop :=
  match x, y with
  | Ret a, Ret b => R a b
  | Panic p, Panic q => p = q
  | OutOfFuel, OutOfFuel => True
  | _, _ => False
  end.

(** A [Game] and a [Board] that hold the same matrix and the same
    [backtracks], each with its counters in step with the matrix. *)
Definition same_position (g : Game) (b : Incremental.Board) : Prop :=
  game_inv g ∧ board_inv b ∧ Incremental.cell b = board g ∧
  Incremental.backtracks b = backtracks g.

Definition same_result (x : Game + error) (y : Incremental.Board + error)
  : Prop :=
  match x, y with
  | inl g, inl b => same_position g b
  | inr e, inr e' => e = e'
  | _, _ => False
  end.

(** The part of the matrix that [readGame] has not written yet when it is
    at column [col] of row [row]. *)
Definition zeros_from (m : grid) (row col : Z) : Prop :=
  ∀ r c, 0 ≤ r < 9 → 0 ≤ c < 9 → (r = row ∧ col ≤ c) ∨ row < r →
         get m r c = 0.

(** Strictly earlier in row-major order, the order in which
    [validateSolution] visits and empties the cells. *)
Definition later (p q : Z * Z) : Prop :=
  p.1 < q.1 ∨ (p.1 = q.1 ∧ p.2 < q.2).

#[global] Instance later_dec p q : Decision (later p q).
Proof. unfold later. apply _. Defined.

(** The cells that [validateSolution] prints a line for: the empty ones,
    and those whose value is held again by a peer that is visited later. *)
Definition flagged (b : grid) (p : Z * Z) : Prop :=
  get b p.1 p.2 = 0 ∨
  Exists (λ q, later p q ∧ get b q.1 q.2 = get b p.1 p.2) (peers p).

#[global] Instance flagged_dec b p : Decision (flagged b p).
Proof. unfold flagged. apply _. Defined.

(** The lines printed for the cells of [ps], in order. *)
Definition reportsFor (b : grid) (ps : list (Z * Z)) : list report :=
  (λ p, InvalidValue (get b p.1 p.2) (p.1 + 1) (p.2 + 1))
    <$> filter (flagged b) ps.

(** The matrix after the cells of [ps] were emptied. *)
Definition wipe (b : grid) (ps : list (Z * Z)) : grid :=
  foldl (λ m p, setCell m p.1 p.2 0) b ps.

(** * Proofs *)

(** ** The runtime model *)

(** Settle every [bool_decide] whose proposition [done] or [lia] decides. *)
Ltac decide_bools :=
  repeat first
    [ rewrite bool_decide_eq_true_2 by (done || lia)
    | rewrite bool_decide_eq_false_2 by (done || lia || (intros ?; done)) ].

Lemma bind_Ret {A B} (f : A → outcome B) (a : A) : (Ret a ≫= f) = f a.
Proof. reflexivity. Qed.

Lemma bind_Ret_inv {A B} (f : A → outcome B) (m : outcome A) (b : B) :
  (m ≫= f) = Ret b → ∃ a, m = Ret a ∧ f a = Ret b.
Proof. destruct m as [a| |]; [eauto|done|done]. Qed.

Lemma wrap_id (z : Z) : int_range z → wrap z = z.
Proof.
  unfold int_range, wrap. intros Hz.
  rewrite Z.mod_small by lia. lia.
Qed.

Lemma incr_decr (z : Z) : int_range z → incr (decr z) = z.
Proof.
  unfold int_range, incr, decr, wrap. intros Hz.
  destruct (decide (z = - 2 ^ 63)) as [->|Hne]; [reflexivity|].
  rewrite (Z.mod_small (z - 1 + 2 ^ 63)) by lia.
  rewrite Z.mod_small by lia. lia.
Qed.

Lemma index_Ret {A} (s : list A) (i : Z) (x : A) :
  0 ≤ i → s !! Z.to_nat i = Some x → index s i = Ret x.
Proof. intros Hi Hx. unfold index. rewrite decide_True by done. by rewrite Hx. Qed.

Lemma index_inv {A} (s : list A) (i : Z) (x : A) :
  index s i = Ret x → 0 ≤ i < Z.of_nat (length s) ∧ s !! Z.to_nat i = Some x.
Proof.
  unfold index. destruct (decide (0 ≤ i)); [|done].
  destruct (s !! Z.to_nat i) eqn:E; [|done].
  intros [= ->]. apply lookup_lt_Some in E. split; [lia|done].
Qed.

Lemma index_panic {A} (s : list A) (i : Z) :
  ¬ 0 ≤ i < Z.of_nat (length s) →
  index s i = Panic (IndexOutOfRange i (Z.of_nat (length s))).
Proof.
  intros Hi. unfold index. destruct (decide (0 ≤ i)); [|done].
  rewrite lookup_ge_None_2; [done|lia].
Qed.

Lemma store_Ret {A} (s : list A) (i : Z) (x : A) :
  0 ≤ i < Z.of_nat (length s) → store s i x = Ret (<[Z.to_nat i := x]> s).
Proof. intros Hi. unfold store. by rewrite decide_True. Qed.

Lemma store_inv {A} (s s' : list A) (i : Z) (x : A) :
  store s i x = Ret s' →
  0 ≤ i < Z.of_nat (length s) ∧ s' = <[Z.to_nat i := x]> s.
Proof. unfold store. destruct (decide _); [|done]. by intros [= <-]. Qed.

(** Loop invariants for the two kinds of [for] loop. *)
Lemma for_steps_inv {S} (I : Z → S → Prop) (body : Z → S → outcome S)
    (n : nat) (i : Z) (s : S) :
  I i s →
  (∀ j t, i ≤ j < i + Z.of_nat n → I j t →
          ∃ t', body j t = Ret t' ∧ I (j + 1) t') →
  ∃ s', for_steps n i body s = Ret s' ∧ I (i + Z.of_nat n) s'.
Proof.
  revert i s. induction n as [|n IH]; intros i s Hi Hstep.
  - exists s. split; [done|]. by replace (i + Z.of_nat 0) with i by lia.
  - destruct (Hstep i s) as (t & Hb & Ht); [lia|done|].
    destruct (IH (i + 1) t) as (s' & Hs' & HI); [done| |].
    + intros j u Hj Hu. apply Hstep; [lia|done].
    + exists s'. simpl. rewrite Hb, bind_Ret. split; [done|].
      by replace (i + Z.of_nat (Datatypes.S n)) with (i + 1 + Z.of_nat n) by lia.
Qed.

Lemma for_lt_inv {S} (I : Z → S → Prop) (body : Z → S → outcome S)
    (lo hi : Z) (s : S) :
  lo ≤ hi → I lo s →
  (∀ j t, lo ≤ j < hi → I j t → ∃ t', body j t = Ret t' ∧ I (j + 1) t') →
  ∃ s', for_lt lo hi body s = Ret s' ∧ I hi s'.
Proof.
  intros Hle Hlo Hstep. unfold for_lt.
  destruct (for_steps_inv I body (Z.to_nat (hi - lo)) lo s) as (s' & ? & HI);
    [done| |].
  - intros j t Hj. apply Hstep. lia.
  - exists s'. split; [done|]. by replace hi with (lo + Z.of_nat (Z.to_nat (hi - lo))) by lia.
Qed.

Lemma range_from_inv {A S} (I : nat → S → Prop)
    (body : Z → A → S → outcome S) (l : list A) (i : Z) (s : S) :
  I 0%nat s →
  (∀ k x t, l !! k = Some x → I k t →
            ∃ t', body (i + Z.of_nat k) x t = Ret t' ∧ I (Datatypes.S k) t') →
  ∃ s', range_from i l body s = Ret s' ∧ I (length l) s'.
Proof.
  revert I i s. induction l as [|x l IH]; intros I i s H0 Hstep.
  - by exists s.
  - destruct (Hstep 0%nat x s) as (t & Hb & Ht); [done|done|].
    destruct (IH (λ k, I (Datatypes.S k)) (i + 1) t) as (s' & Hs' & HI); [done| |].
    + intros k y u Hk Hu. destruct (Hstep (Datatypes.S k) y u) as (u' & ? & ?); [done|done|].
      exists u'. split; [|done].
      by replace (i + 1 + Z.of_nat k) with (i + Z.of_nat (Datatypes.S k)) by lia.
    + exists s'. simpl. replace (i + Z.of_nat 0) with i in Hb by lia.
      by rewrite Hb, bind_Ret.
Qed.

Lemma for_range_inv {A S} (I : nat → S → Prop)
    (body : Z → A → S → outcome S) (l : list A) (s : S) :
  I 0%nat s →
  (∀ k x t, l !! k = Some x → I k t →
            ∃ t', body (Z.of_nat k) x t = Ret t' ∧ I (Datatypes.S k) t') →
  ∃ s', for_range l body s = Ret s' ∧ I (length l) s'.
Proof. intros H0 Hstep. by apply range_from_inv. Qed.

(** ** Cells and grids *)

Lemma elem_of_coords (r : Z) : r ∈ coords ↔ 0 ≤ r < 9.
Proof. unfold coords, DIM. rewrite elem_of_seqZ. lia. Qed.

Lemma elem_of_rowCells (r : Z) (q : Z * Z) :
  q ∈ rowCells r ↔ q.1 = r ∧ 0 ≤ q.2 < 9.
Proof.
  unfold rowCells. rewrite list_elem_of_fmap. destruct q as [r' c']. simpl.
  split.
  - intros (c & [= -> ->] & Hc%elem_of_coords). done.
  - intros [-> Hc]. exists c'. by rewrite elem_of_coords.
Qed.

Lemma elem_of_colCells (c : Z) (q : Z * Z) :
  q ∈ colCells c ↔ q.2 = c ∧ 0 ≤ q.1 < 9.
Proof.
  unfold colCells. rewrite list_elem_of_fmap. destruct q as [r' c']. simpl.
  split.
  - intros (r & [= -> ->] & Hr%elem_of_coords). done.
  - intros [-> Hr]. exists r'. by rewrite elem_of_coords.
Qed.

Lemma elem_of_boxCells (r c : Z) (q : Z * Z) :
  q ∈ boxCells r c ↔
  r `quot` 3 * 3 ≤ q.1 < r `quot` 3 * 3 + 3 ∧
  c `quot` 3 * 3 ≤ q.2 < c `quot` 3 * 3 + 3.
Proof.
  unfold boxCells. rewrite list_elem_of_bind. destruct q as [r' c'].
  cbn [fst snd]. split.
  - intros (x & (y & Hq%list_elem_of_singleton & Hy%elem_of_seqZ)%list_elem_of_bind
              & Hx%elem_of_seqZ).
    injection Hq as -> ->. lia.
  - intros [Hr Hc]. exists r'. rewrite list_elem_of_bind, elem_of_seqZ.
    split; [|lia]. exists c'. rewrite list_elem_of_singleton, elem_of_seqZ.
    split; [done|lia].
Qed.

Lemma elem_of_allCells (q : Z * Z) :
  q ∈ allCells ↔ 0 ≤ q.1 < 9 ∧ 0 ≤ q.2 < 9.
Proof.
  unfold allCells. rewrite list_elem_of_bind. split.
  - intros (r & [? ?]%elem_of_rowCells & ?%elem_of_coords). lia.
  - intros [Hr Hc]. exists q.1. by rewrite elem_of_rowCells, elem_of_coords.
Qed.

Lemma NoDup_allCells : NoDup allCells.
Proof. compute_done. Qed.

Lemma NoDup_rowCells (r : Z) : NoDup (rowCells r).
Proof.
  unfold rowCells. apply NoDup_fmap_2; [|apply NoDup_seqZ].
  by intros c c' [= ->].
Qed.

Lemma NoDup_colCells (c : Z) : NoDup (colCells c).
Proof.
  unfold colCells. apply NoDup_fmap_2; [|apply NoDup_seqZ].
  by intros r r' [= ->].
Qed.

Lemma box_origin (r : Z) :
  0 ≤ r < 9 → r `quot` 3 * 3 ≤ r < r `quot` 3 * 3 + 3 ∧
              0 ≤ r `quot` 3 * 3 ∧ r `quot` 3 * 3 + 3 ≤ 9.
Proof.
  intros Hr. rewrite Z.quot_div_nonneg by lia.
  pose proof (Z.div_mod r 3). pose proof (Z.mod_pos_bound r 3).
  assert (0 ≤ r `div` 3 < 3) by (split; [apply Z.div_pos|apply Z.div_lt_upper_bound]; lia).
  lia.
Qed.

Lemma boxCells_range (r c : Z) (q : Z * Z) :
  0 ≤ r < 9 → 0 ≤ c < 9 → q ∈ boxCells r c → 0 ≤ q.1 < 9 ∧ 0 ≤ q.2 < 9.
Proof.
  intros Hr%box_origin Hc%box_origin Hq%elem_of_boxCells. lia.
Qed.

(** The peers of a cell, pointwise. *)
Lemma elem_of_peers (p q : Z * Z) :
  q ∈ peers p ↔
  q ≠ p ∧ (q ∈ rowCells p.1 ∨ q ∈ colCells p.2 ∨ q ∈ boxCells p.1 p.2).
Proof. unfold peers. by rewrite list_elem_of_filter, !elem_of_app. Qed.

Lemma peers_range (p q : Z * Z) :
  p ∈ allCells → q ∈ peers p → q ∈ allCells.
Proof.
  rewrite !elem_of_allCells, elem_of_peers, elem_of_rowCells, elem_of_colCells.
  intros [Hr Hc] [_ [?|[?|Hq]]]; [lia|lia|].
  by apply (boxCells_range p.1 p.2).
Qed.

Lemma peers_sym (p q : Z * Z) :
  p ∈ allCells → q ∈ peers p → p ∈ peers q.
Proof.
  intros Hp Hq. pose proof (peers_range _ _ Hp Hq) as Hq'.
  revert Hp Hq. rewrite !elem_of_peers, !elem_of_rowCells, !elem_of_colCells,
    !elem_of_boxCells.
  apply elem_of_allCells in Hq' as [Hq1 Hq2].
  intros [Hp1 Hp2]%elem_of_allCells [Hne Hq]. split; [done|].
  destruct Hq as [?|[?|[Hb1 Hb2]]]; [left; lia|right; left; lia|].
  right; right.
  pose proof (box_origin _ Hp1). pose proof (box_origin _ Hp2).
  pose proof (box_origin _ Hq1). pose proof (box_origin _ Hq2).
  rewrite !Z.quot_div_nonneg in * by lia.
  lia.
Qed.

Lemma shape9_lookup (b : grid) (r : Z) :
  shape9 b → 0 ≤ r < 9 →
  ∃ cols, b !! Z.to_nat r = Some cols ∧ length cols = 9%nat.
Proof.
  intros [Hlen Hrows] Hr.
  destruct (lookup_lt_is_Some_2 b (Z.to_nat r)) as [cols Hcols]; [lia|].
  exists cols. split; [done|].
  by eapply (proj1 (Forall_lookup _ _) Hrows).
Qed.

Lemma shape9_lookup2 (b : grid) (r c : Z) :
  shape9 b → 0 ≤ r < 9 → 0 ≤ c < 9 →
  ∃ cols, b !! Z.to_nat r = Some cols ∧ length cols = 9%nat ∧
          cols !! Z.to_nat c = Some (get b r c).
Proof.
  intros Hb Hr Hc. destruct (shape9_lookup b r Hb Hr) as (cols & Hcols & Hlen).
  exists cols. split; [done|]. split; [done|].
  destruct (lookup_lt_is_Some_2 cols (Z.to_nat c)) as [v Hv]; [lia|].
  unfold get. rewrite Hcols. simpl. by rewrite Hv.
Qed.

Lemma index2_get (b : grid) (r c : Z) :
  shape9 b → 0 ≤ r < 9 → 0 ≤ c < 9 → index2 b r c = Ret (get b r c).
Proof.
  intros Hb Hr Hc.
  destruct (shape9_lookup2 b r c Hb Hr Hc) as (cols & Hcols & _ & Hv).
  unfold index2. rewrite (index_Ret _ _ cols), bind_Ret by (done || lia).
  apply index_Ret; [lia|done].
Qed.

Lemma index2_inv (b : grid) (r c v : Z) :
  index2 b r c = Ret v →
  0 ≤ r < Z.of_nat (length b) ∧ 0 ≤ c ∧ get b r c = v ∧
  ∃ cols, b !! Z.to_nat r = Some cols ∧ cols !! Z.to_nat c = Some v.
Proof.
  unfold index2. intros (cols & [Hr Hcols]%index_inv & [Hc Hv]%index_inv)%bind_Ret_inv.
  split; [done|]. split; [lia|]. split; [|by exists cols].
  unfold get. rewrite Hcols. simpl. by rewrite Hv.
Qed.

Lemma store2_set (b : grid) (r c v : Z) :
  shape9 b → 0 ≤ r < 9 → 0 ≤ c < 9 → store2 b r c v = Ret (setCell b r c v).
Proof.
  intros Hb Hr Hc. destruct (shape9_lookup b r Hb Hr) as (cols & Hcols & Hlen).
  unfold store2, setCell. rewrite Hcols.
  rewrite (index_Ret _ _ cols), bind_Ret by (done || lia).
  rewrite store_Ret, bind_Ret by lia.
  apply store_Ret. destruct Hb. lia.
Qed.

Lemma shape9_setCell (b : grid) (r c v : Z) :
  shape9 b → shape9 (setCell b r c v).
Proof.
  intros [Hlen Hrows]. unfold setCell.
  destruct (b !! Z.to_nat r) as [cols|] eqn:Hcols; [|done].
  split; [by rewrite length_insert|].
  apply Forall_insert; [done|]. rewrite length_insert.
  by eapply (proj1 (Forall_lookup _ _) Hrows).
Qed.

Lemma get_setCell (b : grid) (r c v r' c' : Z) :
  shape9 b → 0 ≤ r < 9 → 0 ≤ c < 9 → 0 ≤ r' → 0 ≤ c' →
  get (setCell b r c v) r' c'
  = if decide (r' = r ∧ c' = c) then v else get b r' c'.
Proof.
  intros Hb Hr Hc Hr' Hc'.
  destruct (shape9_lookup b r Hb Hr) as (cols & Hcols & Hlen).
  unfold setCell, get. rewrite Hcols.
  destruct (decide (r' = r)) as [->|Hne].
  - rewrite list_lookup_insert_eq by (by eapply lookup_lt_Some). simpl.
    destruct (decide (c' = c)) as [->|Hne].
    + rewrite list_lookup_insert_eq by lia. by rewrite decide_True.
    + rewrite list_lookup_insert_ne by lia. rewrite decide_False by tauto.
      by rewrite Hcols.
  - rewrite list_lookup_insert_ne by lia. by rewrite decide_False by tauto.
Qed.

Lemma get_setCell_eq (b : grid) (r c v : Z) :
  shape9 b → 0 ≤ r < 9 → 0 ≤ c < 9 → get (setCell b r c v) r c = v.
Proof. intros. rewrite get_setCell by (done || lia). by rewrite decide_True. Qed.

Lemma get_setCell_ne (b : grid) (r c v : Z) (q : Z * Z) :
  shape9 b → 0 ≤ r < 9 → 0 ≤ c < 9 → q ∈ allCells → q ≠ (r, c) →
  get (setCell b r c v) q.1 q.2 = get b q.1 q.2.
Proof.
  intros ??? [??]%elem_of_allCells Hne. rewrite get_setCell by (done || lia).
  rewrite decide_False; [done|]. intros [??]. apply Hne.
  destruct q; simpl in *; congruence.
Qed.

Lemma get_range (b : grid) (r c : Z) :
  wf_grid b → 0 ≤ r < 9 → 0 ≤ c < 9 → 0 ≤ get b r c ≤ 9.
Proof.
  intros [Hb Hvals] Hr Hc.
  destruct (shape9_lookup2 b r c Hb Hr Hc) as (cols & Hcols & _ & Hv).
  eapply (proj1 (Forall_lookup _ _)) in Hvals; [|done].
  by eapply (proj1 (Forall_lookup _ _) Hvals).
Qed.

Lemma wf_grid_setCell (b : grid) (r c v : Z) :
  wf_grid b → 0 ≤ v ≤ 9 → wf_grid (setCell b r c v).
Proof.
  intros [Hb Hvals] Hv. split; [by apply shape9_setCell|].
  unfold setCell. destruct (b !! Z.to_nat r) as [cols|] eqn:Hcols; [|done].
  apply Forall_insert; [done|]. apply Forall_insert; [|done].
  by eapply (proj1 (Forall_lookup _ _) Hvals).
Qed.

(** Unassigning what was just assigned to an empty cell gives back the
    matrix. *)
Lemma setCell_undo (b : grid) (r c v : Z) :
  shape9 b → 0 ≤ r < 9 → 0 ≤ c < 9 →
  setCell (setCell b r c v) r c (get b r c) = b.
Proof.
  intros Hb Hr Hc.
  destruct (shape9_lookup2 b r c Hb Hr Hc) as (cols & Hcols & Hlen & Hv).
  unfold setCell at 2. rewrite Hcols. unfold setCell.
  rewrite list_lookup_insert_eq by (by eapply lookup_lt_Some).
  rewrite !list_insert_insert_eq.
  rewrite (list_insert_id cols) by done. by apply list_insert_id.
Qed.

(** Counting with a predicate changed at one point. *)
Lemma count_update {A} `{EqDecision A} (P Q : A → Prop)
    `{∀ x, Decision (P x)} `{∀ x, Decision (Q x)} (x : A) (l : list A) :
  NoDup l → (∀ y, y ∈ l → y ≠ x → (P y ↔ Q y)) →
  Z.of_nat (length (filter Q l))
  = Z.of_nat (length (filter P l))
    + (if decide (x ∈ l)
       then Z.b2z (bool_decide (Q x)) - Z.b2z (bool_decide (P x)) else 0).
Proof.
  induction l as [|y l IH]; intros Hnd Hagree.
  - rewrite decide_False; [done|]. by intros ?%elem_of_nil.
  - apply NoDup_cons in Hnd as [Hy Hnd].
    assert (∀ z, z ∈ l → z ≠ x → (P z ↔ Q z)) as Hagree'
      by (intros; apply Hagree; [by right|done]).
    specialize (IH Hnd Hagree'). rewrite !filter_cons.
    destruct (decide (y = x)) as [->|Hne].
    + rewrite (decide_True (P:=x ∈ x :: l)) by left.
      rewrite (decide_False (P:=x ∈ l)) in IH by done.
      repeat case_bool_decide; repeat case_decide; cbn [length Z.b2z] in *;
        try tauto; lia.
    + assert (P y ↔ Q y) as HPQ by (apply Hagree; [by left|done]).
      assert (x ∈ y :: l ↔ x ∈ l) as Hin
        by (rewrite elem_of_cons; split; [intros [?|?]; [congruence|done]|by right]).
      repeat case_bool_decide; repeat case_decide; cbn [length Z.b2z] in *;
        try tauto; lia.
Qed.

Lemma zerosAt_setCell (b : grid) (r c v : Z) (ps : list (Z * Z)) :
  shape9 b → 0 ≤ r < 9 → 0 ≤ c < 9 → NoDup ps →
  (∀ q, q ∈ ps → q ∈ allCells) →
  zerosAt (setCell b r c v) ps
  = zerosAt b ps
    + (if decide ((r, c) ∈ ps)
       then Z.b2z (bool_decide (v = 0)) - Z.b2z (bool_decide (get b r c = 0))
       else 0).
Proof.
  intros Hb Hr Hc Hnd Hps. unfold zerosAt.
  rewrite (count_update (λ p, get b p.1 p.2 = 0)
             (λ p, get (setCell b r c v) p.1 p.2 = 0) (r, c) ps); [|done|].
  - simpl. by rewrite get_setCell_eq.
  - intros q Hq Hne. by rewrite get_setCell_ne by auto.
Qed.

Lemma zerosAt_bounds (b : grid) (ps : list (Z * Z)) :
  0 ≤ zerosAt b ps ≤ Z.of_nat (length ps).
Proof. unfold zerosAt. pose proof (length_filter (λ p, get b p.1 p.2 = 0) ps). lia. Qed.

Lemma countZeros_bounds (b : grid) : 0 ≤ countZeros b ≤ 81.
Proof. apply (zerosAt_bounds b allCells). Qed.

Lemma countZeros_setCell (b : grid) (r c v : Z) :
  shape9 b → 0 ≤ r < 9 → 0 ≤ c < 9 →
  countZeros (setCell b r c v)
  = countZeros b + Z.b2z (bool_decide (v = 0))
    - Z.b2z (bool_decide (get b r c = 0)).
Proof.
  intros Hb Hr Hc. unfold countZeros.
  rewrite zerosAt_setCell by (done || apply NoDup_allCells).
  rewrite decide_True by (by apply elem_of_allCells). lia.
Qed.

Lemma zerosAt_pos (b : grid) (ps : list (Z * Z)) :
  0 < zerosAt b ps ↔ ∃ p, p ∈ ps ∧ get b p.1 p.2 = 0.
Proof.
  unfold zerosAt. split.
  - intros Hpos. destruct (filter _ ps) as [|p l] eqn:E; [simpl in Hpos; lia|].
    exists p. assert (p ∈ filter (λ p, get b p.1 p.2 = 0) ps) as Hp by (rewrite E; left).
    apply list_elem_of_filter in Hp. tauto.
  - intros (p & Hp & Hz).
    assert (p ∈ filter (λ p, get b p.1 p.2 = 0) ps) as Hin by (by apply list_elem_of_filter).
    destruct (filter _ ps); [by apply elem_of_nil in Hin|simpl; lia].
Qed.

Lemma countZeros_zero (b : grid) : countZeros b = 0 ↔ full b.
Proof.
  unfold full. rewrite Forall_forall. split.
  - intros Hz p Hp Hget. unfold countZeros in Hz.
    assert (0 < zerosAt b allCells) by (apply zerosAt_pos; eauto). lia.
  - intros Hfull. pose proof (countZeros_bounds b).
    destruct (decide (0 < countZeros b)) as [Hpos|]; [|lia].
    apply zerosAt_pos in Hpos as (p & Hp & Hz). by destruct (Hfull p Hp).
Qed.

(** ** [CellCandidates] *)

Lemma cleared_iff (b : grid) (cands : list bool) (P Q : Z * Z → Prop) :
  (∀ p, P p ↔ Q p) → cleared b cands P → cleared b cands Q.
Proof.
  intros HPQ (Hlen & H0 & Hv). split; [done|]. split; [done|].
  intros v Hr. rewrite (Hv v Hr). by setoid_rewrite HPQ.
Qed.

Lemma clearAt_cleared (b : grid) (cands : list bool) (P : Z * Z → Prop)
    (r c : Z) :
  wf_grid b → 0 ≤ r < 9 → 0 ≤ c < 9 → cleared b cands P →
  ∃ cands', clearAt b r c cands = Ret cands' ∧
            cleared b cands' (λ q, P q ∨ q = (r, c)).
Proof.
  intros Hwf Hr Hc (Hlen & H0 & Hv).
  pose proof (get_range b r c Hwf Hr Hc) as Hget.
  exists (<[Z.to_nat (get b r c) := false]> cands). split.
  - unfold clearAt. rewrite index2_get, bind_Ret by (done || apply Hwf).
    apply store_Ret. lia.
  - split; [by rewrite length_insert|]. split.
    + rewrite list_lookup_insert. case_decide; [done|done].
    + intros v Hrange. rewrite list_lookup_insert.
      destruct (decide (v = get b r c)) as [->|Hne].
      * rewrite decide_True by (split; [done|lia]). split; [done|].
        intros Hall. by destruct (Hall (r, c)); [right|].
      * rewrite decide_False by lia. rewrite (Hv v Hrange). split.
        -- intros Hall p [HP| ->]; [by apply Hall|done].
        -- intros Hall p HP. apply Hall. by left.
Qed.

(** A clearing loop over the cells [f lo], ..., [f (hi-1)]. *)
Lemma clear_loop (b : grid) (f : Z → Z * Z) (lo hi : Z)
    (cands : list bool) (P : Z * Z → Prop) :
  wf_grid b → lo ≤ hi → (∀ i, lo ≤ i < hi → f i ∈ allCells) →
  cleared b cands P →
  ∃ cands',
    for_lt lo hi (λ i cands, clearAt b (f i).1 (f i).2 cands) cands
    = Ret cands' ∧
    cleared b cands' (λ q, P q ∨ ∃ i, lo ≤ i < hi ∧ q = f i).
Proof.
  intros Hwf Hle Hf Hc.
  destruct (for_lt_inv
    (λ j cands, cleared b cands (λ q, P q ∨ ∃ i, lo ≤ i < j ∧ q = f i))
    (λ i cands, clearAt b (f i).1 (f i).2 cands) lo hi cands)
    as (cands' & Hrun & Hpost); [done| | |by exists cands'].
  - eapply cleared_iff; [|done]. intros p. split; [by left|].
    intros [?|(i & ? & _)]; [done|lia].
  - intros j t Hj Ht. pose proof (Hf j Hj) as Hfj.
    apply elem_of_allCells in Hfj.
    destruct (clearAt_cleared b t _ (f j).1 (f j).2 Hwf (proj1 Hfj) (proj2 Hfj) Ht)
      as (t' & Hstep & Ht').
    exists t'. split; [done|]. eapply cleared_iff; [|done].
    intros p. rewrite <-surjective_pairing. split.
    + intros [[?|(i & ? & ?)]| ->]; [by left|right; exists i; split; [lia|done]|].
      right. exists j. split; [lia|done].
    + intros [?|(i & Hi & ->)]; [by left; left|].
      destruct (decide (i = j)) as [->|]; [by right|].
      left; right. exists i. split; [lia|done].
Qed.

(** The initial loop [for i := 1; i <= DIM; i++ { candidates[i] = true }]. *)
Lemma init_loop (b : grid) :
  ∃ cands,
    for_lt 1 (DIM + 1) (λ i cands, store cands i true)
      (replicate (Z.to_nat (DIM + 1)) false) = Ret cands ∧
    cleared b cands (λ _, False).
Proof.
  exists [false; true; true; true; true; true; true; true; true; true].
  split; [reflexivity|]. split; [done|]. split; [done|].
  intros v Hv. split; [done|]. intros _.
  assert (v ∈ seqZ 1 9) as Hin by (apply elem_of_seqZ; lia).
  revert Hin. generalize v. apply Forall_forall. compute_done.
Qed.

(** Total correctness of [cellCandidates] on a well-formed matrix. *)
Lemma cellCandidates_cleared (b : grid) (row col : Z) :
  wf_grid b → 0 ≤ row < 9 → 0 ≤ col < 9 →
  ∃ cands, cellCandidates b row col = Ret cands ∧
    cleared b cands
      (λ q, q ∈ rowCells row ∨ q ∈ colCells col ∨ q ∈ boxCells row col).
Proof.
  intros Hwf Hrow Hcol. unfold cellCandidates.
  rewrite !decide_False by (unfold DIM; lia).
  destruct (init_loop b) as (c0 & -> & Hc0). rewrite bind_Ret.
  destruct (clear_loop b (λ i, (row, i)) 0 DIM c0 (λ _, False) Hwf)
    as (c1 & Hrun1 & Hc1);
    [done|by intros; apply elem_of_allCells|done|].
  unfold clearAt in Hrun1. cbn [fst snd] in Hrun1. rewrite Hrun1, bind_Ret.
  apply (cleared_iff _ _ _ (λ q, q ∈ rowCells row)) in Hc1; cycle 1.
  { intros q. rewrite elem_of_rowCells. unfold DIM. split.
    - intros [[]|(i & ? & ->)]. simpl. lia.
    - intros [<- ?]. right. exists q.2. by rewrite <-surjective_pairing. }
  destruct (clear_loop b (λ i, (i, col)) 0 DIM c1 (λ q, q ∈ rowCells row) Hwf)
    as (c2 & Hrun2 & Hc2);
    [done|by intros; apply elem_of_allCells|done|].
  unfold clearAt in Hrun2. cbn [fst snd] in Hrun2. rewrite Hrun2, bind_Ret.
  apply (cleared_iff _ _ _ (λ q, q ∈ rowCells row ∨ q ∈ colCells col)) in Hc2;
    cycle 1.
  { intros q. rewrite elem_of_colCells. unfold DIM. split.
    - intros [?|(i & ? & ->)]; [by left|right]. simpl. lia.
    - intros [?|[<- ?]]; [by left|right]. exists q.1. by rewrite <-surjective_pairing. }
  clear Hrun1 Hrun2 Hc0 Hc1. cbv zeta.
  pose proof (box_origin row Hrow) as Hbr. pose proof (box_origin col Hcol) as Hbc.
  replace (DIM `quot` 3) with 3 by reflexivity.
  set (r0 := row `quot` 3 * 3) in *. set (c0' := col `quot` 3 * 3) in *.
  destruct (for_lt_inv
    (λ j cands, cleared b cands
       (λ q, (q ∈ rowCells row ∨ q ∈ colCells col) ∨
             (r0 ≤ q.1 < j ∧ c0' ≤ q.2 < c0' + 3)))
    (λ ri cands, for_lt c0' (c0' + 3) (λ ci cands, clearAt b ri ci cands) cands)
    r0 (r0 + 3) c2) as (c3 & Hrun3 & Hc3); [lia| | |].
  - eapply cleared_iff; [|done]. intros q. split; [by left|].
    intros [?|?]; [done|lia].
  - intros j t Hj Ht.
    destruct (clear_loop b (λ i, (j, i)) c0' (c0' + 3) t _ Hwf ltac:(lia)
                (ltac:(intros; apply elem_of_allCells; simpl; lia)) Ht)
      as (t' & Hrun & Ht').
    exists t'. split; [done|]. eapply cleared_iff; [|done].
    intros [q1 q2]. simpl. split.
    + intros [[?|[? ?]]|(i & ? & [= -> ->])]; [by left|right; lia|right; lia].
    + intros [?|[? ?]]; [by left; left|].
      destruct (decide (q1 = j)) as [->|]; [right; by exists q2|left; right; lia].
  - exists c3. split; [done|]. eapply cleared_iff; [|done].
    intros q. rewrite elem_of_boxCells. fold r0 c0'. tauto.
Qed.

Lemma elem_of_valuesAt (b : grid) (ps : list (Z * Z)) (v : Z) :
  v ∈ valuesAt b ps ↔ ∃ p, p ∈ ps ∧ get b p.1 p.2 = v.
Proof.
  unfold valuesAt. rewrite list_elem_of_fmap. split.
  - intros (p & -> & Hp). by exists p.
  - intros (p & Hp & <-). by exists p.
Qed.

Lemma index_Some {A} (s : list A) (i : Z) (x : A) :
  0 ≤ i → (index s i = Ret x ↔ s !! Z.to_nat i = Some x).
Proof.
  intros Hi. split; [by intros [_ ?]%index_inv|by apply index_Ret].
Qed.

(** What holds of a loop's final state whenever the loop returns. *)
Lemma for_steps_post {S} (I : S → Prop) (body : Z → S → outcome S)
    (n : nat) (i : Z) (s s' : S) :
  I s →
  (∀ j t t', i ≤ j < i + Z.of_nat n → I t → body j t = Ret t' → I t') →
  for_steps n i body s = Ret s' → I s'.
Proof.
  revert i s. induction n as [|n IH]; intros i s Hs Hstep; simpl.
  - by intros [= <-].
  - intros (t & Hb & Hrest)%bind_Ret_inv.
    apply (IH (i + 1) t); [|by intros j ???; apply Hstep; lia|done].
    apply (Hstep i s t); [lia|done|done].
Qed.

Lemma for_lt_post {S} (I : S → Prop) (body : Z → S → outcome S)
    (lo hi : Z) (s s' : S) :
  I s → (∀ j t t', lo ≤ j < hi → I t → body j t = Ret t' → I t') →
  for_lt lo hi body s = Ret s' → I s'.
Proof.
  intros Hs Hstep. apply for_steps_post; [done|].
  intros j t t' Hj. apply Hstep. lia.
Qed.

(** Whenever [cellCandidates] returns, on any matrix and at any
    coordinates, the slice has length [DIM+1] and slot 0 is false. *)
Lemma cellCandidates_shape (b : grid) (row col : Z) (cands : list bool) :
  cellCandidates b row col = Ret cands →
  length cands = 10%nat ∧ cands !! 0%nat = Some false.
Proof.
  unfold cellCandidates. repeat case_decide; [done|done|].
  set (J := λ c : list bool, length c = 10%nat ∧ c !! 0%nat = Some false).
  assert (∀ (c c' : list bool) v, J c → store c v false = Ret c' → J c')
    as Hclear.
  { intros c c' v [Hlen Hc] [Hv ->]%store_inv. split; [by rewrite length_insert|].
    rewrite list_lookup_insert. by case_decide. }
  intros (c0 & Hinit & (c1 & Hrow & (c2 & Hcol & Hbox)%bind_Ret_inv)%bind_Ret_inv)%bind_Ret_inv.
  assert (J c0) as Hc0.
  { refine (for_lt_post J _ _ _ _ _ _ _ Hinit); [done|].
    intros j t t' Hj [Hlen Ht] [_ ->]%store_inv. split; [by rewrite length_insert|].
    rewrite list_lookup_insert_ne by lia. done. }
  assert (J c1) as Hc1.
  { refine (for_lt_post J _ _ _ _ _ Hc0 _ Hrow).
    intros j t t' _ Ht (v & _ & Hst)%bind_Ret_inv. by eapply Hclear. }
  assert (J c2) as Hc2.
  { refine (for_lt_post J _ _ _ _ _ Hc1 _ Hcol).
    intros j t t' _ Ht (v & _ & Hst)%bind_Ret_inv. by eapply Hclear. }
  refine (for_lt_post J _ _ _ _ _ Hc2 _ Hbox).
  intros ri t t' _ Ht Hinner.
  refine (for_lt_post J _ _ _ _ _ Ht _ Hinner).
  intros j u u' _ Hu (v & _ & Hst)%bind_Ret_inv. by eapply Hclear.
Qed.

Lemma elem_of_enumerate_from {A} (l : list A) (i j : Z) (x : A) :
  (j, x) ∈ enumerate_from i l ↔ i ≤ j ∧ l !! Z.to_nat (j - i) = Some x.
Proof.
  revert i. induction l as [|y l IH]; intros i; simpl.
  - rewrite elem_of_nil. split; [done|]. by intros [_ ?].
  - rewrite elem_of_cons, IH. split.
    + intros [[= -> ->]|[Hle Hx]].
      * split; [lia|]. by rewrite Z.sub_diag.
      * split; [lia|].
        replace (Z.to_nat (j - i)) with (S (Z.to_nat (j - (i + 1)))) by lia.
        done.
    + intros [Hle Hx]. destruct (decide (j = i)) as [->|Hne].
      * left. rewrite Z.sub_diag in Hx. simpl in Hx. by injection Hx as ->.
      * right. split; [lia|].
        replace (Z.to_nat (j - i)) with (S (Z.to_nat (j - (i + 1)))) in Hx by lia.
        done.
Qed.

Lemma elem_of_enumerate {A} (l : list A) (j : Z) (x : A) :
  (j, x) ∈ enumerate l ↔ 0 ≤ j ∧ l !! Z.to_nat j = Some x.
Proof.
  unfold enumerate. rewrite elem_of_enumerate_from. by rewrite Z.sub_0_r.
Qed.

(** The values the candidate loop of [recursiveSolver] passes to
    [MakeMove] are in 1..9. *)
Lemma cellCandidates_avail (b : grid) (row col : Z) (cands : list bool)
    (val : Z) :
  cellCandidates b row col = Ret cands →
  (val, true) ∈ enumerate cands → 1 ≤ val ≤ 9.
Proof.
  intros [Hlen H0]%cellCandidates_shape [Hval Hin]%elem_of_enumerate.
  apply lookup_lt_Some in Hin as Hlt.
  destruct (decide (val = 0)) as [->|]; [|lia].
  change (Z.to_nat 0) with 0%nat in Hin. congruence.
Qed.

Lemma for_lt_first {St} (lo hi : Z) (body : Z → St → outcome St) (s : St) :
  lo < hi →
  for_lt lo hi body s = (s' ← body lo s; for_lt (lo + 1) hi body s').
Proof.
  intros Hlt. unfold for_lt.
  by replace (Z.to_nat (hi - lo)) with (S (Z.to_nat (hi - (lo + 1)))) by lia.
Qed.

Lemma index2_panic_row {A} (m : list (list A)) (r c : Z) :
  ¬ 0 ≤ r < Z.of_nat (length m) →
  index2 m r c = Panic (IndexOutOfRange r (Z.of_nat (length m))).
Proof. intros Hr. unfold index2. by rewrite index_panic. Qed.

Lemma index2_panic_col {A} (m : list (list A)) (r c : Z) (cols : list A) :
  0 ≤ r → m !! Z.to_nat r = Some cols → ¬ 0 ≤ c < Z.of_nat (length cols) →
  index2 m r c = Panic (IndexOutOfRange c (Z.of_nat (length cols))).
Proof.
  intros Hr Hcols Hc. unfold index2.
  rewrite (index_Ret _ _ cols), bind_Ret by done. by rewrite index_panic.
Qed.

(** The guards and the bounds check at the edge they let through. *)
Lemma cellCandidates_invalid_row (b : grid) (row col : Z) :
  row < 0 ∨ 9 < row → cellCandidates b row col = Panic (InvalidRow row).
Proof. intros Hrow. unfold cellCandidates. by rewrite decide_True. Qed.

Lemma cellCandidates_invalid_col (b : grid) (row col : Z) :
  0 ≤ row ≤ 9 → col < 0 ∨ 9 < col →
  cellCandidates b row col = Panic (InvalidCol col).
Proof.
  intros Hrow Hcol. unfold cellCandidates.
  rewrite decide_False by (unfold DIM; lia). by rewrite decide_True.
Qed.

Lemma cellCandidates_row_9 (b : grid) (col : Z) :
  length b = 9%nat → 0 ≤ col ≤ 9 →
  cellCandidates b 9 col = Panic (IndexOutOfRange 9 9).
Proof.
  intros Hlen Hcol. unfold cellCandidates.
  rewrite !decide_False by (unfold DIM; lia).
  destruct (init_loop b) as (c0 & -> & _). rewrite bind_Ret.
  rewrite (for_lt_first 0 DIM) by done.
  rewrite (index2_panic_row b 9 0) by lia. by rewrite Hlen.
Qed.

Lemma cellCandidates_col_9 (b : grid) (row : Z) :
  wf_grid b → 0 ≤ row < 9 →
  cellCandidates b row 9 = Panic (IndexOutOfRange 9 9).
Proof.
  intros Hwf Hrow. unfold cellCandidates.
  rewrite !decide_False by (unfold DIM; lia).
  destruct (init_loop b) as (c0 & -> & Hc0). rewrite bind_Ret.
  destruct (clear_loop b (λ i, (row, i)) 0 DIM c0 (λ _, False) Hwf)
    as (c1 & Hrun1 & Hc1);
    [done|by intros; apply elem_of_allCells|done|].
  unfold clearAt in Hrun1. cbn [fst snd] in Hrun1. rewrite Hrun1, bind_Ret.
  rewrite (for_lt_first 0 DIM) by done.
  destruct (shape9_lookup b 0 (proj1 Hwf)) as (cols & Hcols & Hlen); [lia|].
  rewrite (index2_panic_col b 0 9 cols) by (done || lia). by rewrite Hlen.
Qed.

(** C3: on a well-formed board and at valid coordinates, [CellCandidates]
    returns, and for every value [v] in 1..9 its slot [v] is true exactly
    when [v] appears neither in the row, nor in the column, nor in the 3×3
    box of the cell. *)
Theorem CellCandidates_spec (g : Game) (row col : Z) :
  wf_grid (board g) → 0 ≤ row < 9 → 0 ≤ col < 9 →
  ∃ candidates,
    CellCandidates g row col = Ret candidates ∧
    ∀ v, 1 ≤ v ≤ 9 →
      index candidates v = Ret true ↔
      ((v ∉ rowVals (board g) row) ∧ (v ∉ colVals (board g) col) ∧
       (v ∉ boxVals (board g) row col)).
Proof.
  intros Hwf Hrow Hcol.
  destruct (cellCandidates_cleared (board g) row col Hwf Hrow Hcol)
    as (cands & Hrun & _ & _ & Hv).
  exists cands. split; [done|]. intros v Hrange.
  rewrite index_Some by lia. rewrite (Hv v Hrange).
  unfold rowVals, colVals, boxVals. rewrite !elem_of_valuesAt. split.
  - intros Hall. repeat split; intros (p & Hp & Hget); eapply Hall; eauto.
  - intros (Hr & Hc & Hb) p [Hp|[Hp|Hp]] Hget; [apply Hr|apply Hc|apply Hb]; eauto.
Qed.

(** At the empty cell (4, 5) of [puzzleGame] the row strikes out 3 to 9,
    the column also 1, the box nothing more: 2 is the one value left. *)
Lemma CellCandidates_spec_witness :
  CellCandidates puzzleGame 4 5
  = Ret [false; false; true; false; false; false; false; false; false;
         false] ∧
  ∃ candidates,
    CellCandidates puzzleGame 4 5 = Ret candidates ∧
    ∀ v, 1 ≤ v ≤ 9 →
      index candidates v = Ret true ↔
      ((v ∉ rowVals (board puzzleGame) 4) ∧
       (v ∉ colVals (board puzzleGame) 5) ∧
       (v ∉ boxVals (board puzzleGame) 4 5)).
Proof.
  split; [vm_compute; reflexivity|].
  apply (CellCandidates_spec puzzleGame 4 5); [compute_done|lia|lia].
Defined.

(** ** Consistency, completions and solutions *)

Lemma consistent_spec (b : grid) :
  consistent b ↔
  ∀ p q, p ∈ allCells → q ∈ peers p → get b p.1 p.2 ≠ 0 →
         get b q.1 q.2 ≠ get b p.1 p.2.
Proof.
  unfold consistent. rewrite Forall_forall. split.
  - intros H p q Hp Hq Hnz. specialize (H p Hp Hnz).
    rewrite Forall_forall in H. by apply H.
  - intros H p Hp Hnz. apply Forall_forall. intros q Hq. by apply H.
Qed.

Lemma full_spec (b : grid) :
  full b ↔ ∀ p, p ∈ allCells → get b p.1 p.2 ≠ 0.
Proof. unfold full. by rewrite Forall_forall. Qed.

Lemma extends_spec (b s : grid) :
  extends b s ↔
  ∀ p, p ∈ allCells → get b p.1 p.2 ≠ 0 → get s p.1 p.2 = get b p.1 p.2.
Proof. unfold extends. by rewrite Forall_forall. Qed.

Lemma extends_refl (b : grid) : extends b b.
Proof. by apply extends_spec. Qed.

Lemma extends_trans (a b c : grid) : extends a b → extends b c → extends a c.
Proof.
  rewrite !extends_spec. intros Hab Hbc p Hp Hnz.
  rewrite <-(Hab p Hp Hnz). apply Hbc; [done|]. by rewrite (Hab p Hp Hnz).
Qed.

Lemma extends_setCell (b : grid) (r c v : Z) :
  shape9 b → 0 ≤ r < 9 → 0 ≤ c < 9 → get b r c = 0 →
  extends b (setCell b r c v).
Proof.
  intros Hb Hr Hc Hz. apply extends_spec. intros p Hp Hnz.
  apply get_setCell_ne; [done..|]. by intros ->.
Qed.

Lemma elem_of_unitCells (r c : Z) (q : Z * Z) :
  0 ≤ r < 9 → 0 ≤ c < 9 →
  q ∈ unitCells r c ↔ q = (r, c) ∨ q ∈ peers (r, c).
Proof.
  intros Hr Hc. unfold unitCells. rewrite elem_of_peers, !elem_of_app. simpl.
  split.
  - intros H. destruct (decide (q = (r, c))); [by left|by right].
  - intros [->|[_ H]]; [|done]. left. by apply elem_of_rowCells.
Qed.

(** Placing a value that no cell of the row, column or box holds keeps
    the matrix consistent. *)
Lemma consistent_setCell (b : grid) (r c v : Z) :
  shape9 b → consistent b → 0 ≤ r < 9 → 0 ≤ c < 9 →
  (∀ q, q ∈ peers (r, c) → get b q.1 q.2 ≠ v) →
  consistent (setCell b r c v).
Proof.
  intros Hb Hcons Hr Hc Hfree. rewrite consistent_spec in Hcons |- *.
  assert ((r, c) ∈ allCells) as Hrc by (by apply elem_of_allCells).
  intros p q Hp Hq Hnz. pose proof (peers_range _ _ Hp Hq) as Hq'.
  assert (q ≠ p) as Hqp by (by apply elem_of_peers in Hq as [? _]).
  destruct (decide (p = (r, c))) as [->|Hne].
  - simpl. rewrite get_setCell_eq by done.
    rewrite get_setCell_ne by done. by apply Hfree.
  - rewrite (get_setCell_ne b r c v p) in Hnz |- * by done.
    destruct (decide (q = (r, c))) as [->|Hne'].
    + simpl. rewrite get_setCell_eq by done.
      intros Heq. apply (Hfree p); [|done]. by apply peers_sym.
    + rewrite get_setCell_ne by done. by apply Hcons.
Qed.

Lemma NoDup_fmap_inj_on {A B} (f : A → B) (l : list A) (x y : A) :
  NoDup (f <$> l) → x ∈ l → y ∈ l → f x = f y → x = y.
Proof.
  induction l as [|z l IH]; [by intros _ ?%elem_of_nil|].
  rewrite fmap_cons, NoDup_cons, !elem_of_cons.
  intros [Hz Hnd] [->|Hx] [->|Hy] Hf; [done| | |by apply IH].
  - destruct Hz. rewrite Hf. by apply list_elem_of_fmap_2.
  - destruct Hz. rewrite <-Hf. by apply list_elem_of_fmap_2.
Qed.

Lemma boxCells_self (r c : Z) : 0 ≤ r < 9 → 0 ≤ c < 9 → (r, c) ∈ boxCells r c.
Proof.
  intros Hr%box_origin Hc%box_origin. apply elem_of_boxCells. simpl. lia.
Qed.

Lemma valid_solution_consistent (s : grid) : valid_solution s → consistent s.
Proof.
  intros (Hwf & Hfull & Hrows & Hcols & Hboxes).
  rewrite Forall_forall in Hrows. rewrite Forall_forall in Hcols.
  rewrite Forall_forall in Hboxes.
  apply consistent_spec. intros p q Hp Hq _ Heq.
  apply elem_of_allCells in Hp as Hp'. destruct Hp' as [Hp1 Hp2].
  apply elem_of_peers in Hq as [Hne Hq]. apply Hne. clear Hne.
  assert (NoDup (seqZ 1 9)) as Hnd by apply NoDup_seqZ.
  destruct Hq as [Hq|[Hq|Hq]].
  - apply (NoDup_fmap_inj_on (λ p, get s p.1 p.2) (rowCells p.1)); [|done| |done].
    + fold (valuesAt s (rowCells p.1)). fold (rowVals s p.1).
      rewrite (Hrows p.1); [done|by apply elem_of_coords].
    + by apply elem_of_rowCells.
  - apply (NoDup_fmap_inj_on (λ p, get s p.1 p.2) (colCells p.2)); [|done| |done].
    + fold (valuesAt s (colCells p.2)). fold (colVals s p.2).
      rewrite (Hcols p.2); [done|by apply elem_of_coords].
    + by apply elem_of_colCells.
  - apply (NoDup_fmap_inj_on (λ p, get s p.1 p.2) (boxCells p.1 p.2)); [|done| |done].
    + fold (valuesAt s (boxCells p.1 p.2)). fold (boxVals s p.1 p.2).
      by rewrite (Hboxes p).
    + rewrite (surjective_pairing p) at 1. by apply boxCells_self.
Qed.

(** A set of nine mutually visible cells of a full consistent matrix holds
    a permutation of 1..9. *)
Lemma unit_permutation (s : grid) (ps : list (Z * Z)) :
  wf_grid s → full s → consistent s →
  NoDup ps → length ps = 9%nat → (∀ p, p ∈ ps → p ∈ allCells) →
  (∀ p q, p ∈ ps → q ∈ ps → q ≠ p → q ∈ peers p) →
  valuesAt s ps ≡ₚ seqZ 1 9.
Proof.
  intros Hwf Hfull Hcons Hnd Hlen Hin Hpeers.
  rewrite full_spec in Hfull. rewrite consistent_spec in Hcons.
  apply submseteq_length_Permutation.
  - apply NoDup_submseteq.
    + unfold valuesAt. apply NoDup_fmap_2_strong; [|done].
      intros p q Hp Hq Heq. destruct (decide (q = p)) as [|Hne]; [done|].
      destruct (Hcons p q); auto.
    + intros v (p & Hp & <-)%elem_of_valuesAt. apply elem_of_seqZ.
      pose proof (Hin p Hp) as Hp'. pose proof (Hfull p Hp').
      apply elem_of_allCells in Hp' as [??].
      pose proof (get_range s p.1 p.2 Hwf). lia.
  - unfold valuesAt. rewrite length_fmap, Hlen. done.
Qed.

Lemma boxCells_unit :
  Forall (λ p, NoDup (boxCells p.1 p.2) ∧ length (boxCells p.1 p.2) = 9%nat)
    allCells.
Proof. compute_done. Qed.

Lemma full_consistent_valid (s : grid) :
  wf_grid s → full s → consistent s → valid_solution s.
Proof.
  intros Hwf Hfull Hcons. split; [done|]. split; [done|].
  split; [|split]; apply Forall_forall.
  - intros r Hr%elem_of_coords. apply unit_permutation; try done.
    + apply NoDup_rowCells.
    + intros p [? ?]%elem_of_rowCells. apply elem_of_allCells. lia.
    + intros p q Hp Hq Hne. apply elem_of_peers. split; [done|]. left.
      apply elem_of_rowCells in Hp, Hq. apply elem_of_rowCells. lia.
  - intros c Hc%elem_of_coords. apply unit_permutation; try done.
    + apply NoDup_colCells.
    + intros p [? ?]%elem_of_colCells. apply elem_of_allCells. lia.
    + intros p q Hp Hq Hne. apply elem_of_peers. split; [done|]. right; left.
      apply elem_of_colCells in Hp, Hq. apply elem_of_colCells. lia.
  - intros p Hp. pose proof boxCells_unit as Hunit.
    rewrite Forall_forall in Hunit. destruct (Hunit p Hp) as [Hnd Hlen].
    apply elem_of_allCells in Hp as [Hp1 Hp2].
    apply unit_permutation; try done.
    + intros q Hq. apply elem_of_allCells. by apply (boxCells_range p.1 p.2).
    + intros q q' Hq Hq' Hne. apply elem_of_peers. split; [done|]. right; right.
      pose proof (boxCells_range _ _ _ Hp1 Hp2 Hq) as [Hq1 Hq2].
      apply elem_of_boxCells in Hq, Hq'. apply elem_of_boxCells.
      pose proof (box_origin _ Hp1). pose proof (box_origin _ Hp2).
      pose proof (box_origin _ Hq1). pose proof (box_origin _ Hq2).
      rewrite !Z.quot_div_nonneg in * by lia. lia.
Qed.

(** The value a completion puts in an empty cell is one that
    [CellCandidates] leaves standing, and the completion completes the
    matrix with that value filled in. *)
Lemma completion_candidate (b s : grid) (r c : Z) :
  shape9 b → completion b s → 0 ≤ r < 9 → 0 ≤ c < 9 → get b r c = 0 →
  1 ≤ get s r c ≤ 9 ∧
  (∀ q, q ∈ unitCells r c → get b q.1 q.2 ≠ get s r c) ∧
  completion (setCell b r c (get s r c)) s.
Proof.
  intros Hb [Hvalid Hext] Hr Hc Hz.
  pose proof (valid_solution_consistent s Hvalid) as Hcons.
  pose proof Hvalid as (Hwf & Hfull & Hperms).
  rewrite full_spec in Hfull. rewrite consistent_spec in Hcons.
  rewrite extends_spec in Hext.
  assert ((r, c) ∈ allCells) as Hrc by (by apply elem_of_allCells).
  pose proof (Hfull _ Hrc) as Hnz. pose proof (get_range s r c Hwf Hr Hc).
  simpl in Hnz. split; [lia|]. split.
  - intros q [->|Hq]%elem_of_unitCells; [simpl; lia| |done|done].
    intros Heq. pose proof (peers_range _ _ Hrc Hq) as Hq'.
    apply (Hcons (r, c) q Hrc Hq Hnz). simpl. rewrite <-Heq.
    apply Hext; [done|]. rewrite Heq. done.
  - split; [done|]. apply extends_spec. intros p Hp.
    destruct (decide (p = (r, c))) as [->|Hne].
    + simpl. by rewrite get_setCell_eq.
    + rewrite get_setCell_ne by done. by apply Hext.
Qed.

Lemma completion_consistent (b s : grid) : completion b s → consistent b.
Proof.
  intros [Hvalid Hext]. pose proof (valid_solution_consistent s Hvalid) as Hcons.
  destruct Hvalid as (Hwf & Hfull & _). rewrite full_spec in Hfull.
  rewrite consistent_spec in Hcons |- *. rewrite extends_spec in Hext.
  intros p q Hp Hq Hnz Heq. pose proof (peers_range _ _ Hp Hq) as Hq'.
  apply (Hcons p q Hp Hq); [by apply Hfull|].
  rewrite (Hext p Hp Hnz), (Hext q Hq') by congruence. done.
Qed.

(** ** The search *)

Lemma cellCandidates_unit (b : grid) (row col : Z) :
  wf_grid b → 0 ≤ row < 9 → 0 ≤ col < 9 →
  ∃ cands, cellCandidates b row col = Ret cands ∧
           cleared b cands (λ q, q ∈ unitCells row col).
Proof.
  intros Hwf Hrow Hcol.
  destruct (cellCandidates_cleared b row col Hwf Hrow Hcol) as (cands & ? & Hc).
  exists cands. split; [done|]. eapply cleared_iff; [|done].
  intros q. unfold unitCells. by rewrite !elem_of_app.
Qed.

(** A result other than exhausted fuel is kept when fuel is added. *)
Section SearchFuel.
Context {St : Type} (M : Methods St).

Lemma tryEach_mono (self self' : St → outcome (bool * St)) (row col : Z)
    (rest : list (Z * bool)) (solved : bool) (g : St) :
  (∀ g1, self g1 ≠ OutOfFuel → self' g1 = self g1) →
  tryEach M self row col rest solved g ≠ OutOfFuel →
  tryEach M self' row col rest solved g
  = tryEach M self row col rest solved g.
Proof.
  intros Hself. revert solved g.
  induction rest as [|[val avail] rest IH]; intros solved g; [done|].
  simpl. destruct avail; [|apply IH].
  destruct (makeMove M g row col val) as [g1| |]; [|done|done]. simpl.
  pose proof (Hself g1) as Hg1.
  destruct (self g1) as [[solved' g2]| |]; [|by rewrite Hg1|by intros []].
  rewrite Hg1 by done. simpl.
  destruct solved'; [done|].
  destruct (unmakeMove M g2 row col) as [g3| |]; [|done|done]. simpl.
  apply IH.
Qed.

Lemma search_mono (fuel fuel' : nat) (g : St) :
  (fuel ≤ fuel')%nat → search M fuel g ≠ OutOfFuel →
  search M fuel' g = search M fuel g.
Proof.
  revert fuel' g. induction fuel as [|fuel IH]; intros fuel' g Hle; [done|].
  destruct fuel' as [|fuel']; [lia|]. simpl.
  destruct (validSolution M g); [done|].
  destruct (nextEmptyCell M g) as [[row col]| |]; [|done|done]. simpl.
  destruct (candidatesAt M g row col) as [cands| |]; [|done|done]. simpl.
  apply tryEach_mono. intros g1. apply IH. lia.
Qed.
End SearchFuel.

Section SearchCorrect.
Context {St : Type} (M : Methods St) (cells : St → grid) (Inv : St → Prop).

Hypothesis Inv_wf : ∀ g, Inv g → wf_grid (cells g).
Hypothesis valid_spec :
  ∀ g, Inv g → validSolution M g = true ↔ countZeros (cells g) = 0.
Hypothesis next_spec :
  ∀ g, Inv g → countZeros (cells g) ≠ 0 →
       ∃ r c, nextEmptyCell M g = Ret (r, c) ∧ 0 ≤ r < 9 ∧ 0 ≤ c < 9 ∧
              get (cells g) r c = 0.
Hypothesis cands_spec :
  ∀ g r c, candidatesAt M g r c = cellCandidates (cells g) r c.
Hypothesis make_spec :
  ∀ g r c v, Inv g → 0 ≤ r < 9 → 0 ≤ c < 9 → get (cells g) r c = 0 →
             1 ≤ v ≤ 9 →
             ∃ g', makeMove M g r c v = Ret g' ∧ Inv g' ∧
                   cells g' = setCell (cells g) r c v.
Hypothesis unmake_spec :
  ∀ g r c, Inv g → 0 ≤ r < 9 → 0 ≤ c < 9 → get (cells g) r c ≠ 0 →
           ∃ g', unmakeMove M g r c = Ret g' ∧ Inv g' ∧
                 cells g' = setCell (cells g) r c 0.

(** The candidate loop, given that the recursive calls are correct on
    matrices with [n] empty cells. *)
Lemma tryEach_correct (n : nat) (self : St → outcome (bool * St))
    (b : grid) (r c : Z) (cands : list bool) (rest : list (Z * bool)) :
  (∀ g1, Inv g1 → countZeros (cells g1) = Z.of_nat n →
         ∃ res, self g1 = Ret res ∧ search_post cells Inv g1 res) →
  countZeros b = Z.of_nat (S n) → 0 ≤ r < 9 → 0 ≤ c < 9 → get b r c = 0 →
  cleared b cands (λ q, q ∈ unitCells r c) →
  (∀ val, (val, true) ∈ rest → (val, true) ∈ enumerate cands) →
  ∀ g, Inv g → cells g = b →
       (∀ s, completion b s → (get s r c, true) ∈ rest) →
       ∃ res, tryEach M self r c rest false g = Ret res ∧
              search_post cells Inv g res.
Proof.
  intros Hself Hcount Hr Hc Hempty (Hlen & Hslot0 & Hslots).
  induction rest as [|[val avail] rest IH]; intros Hrest g Hg Hb Hcompl.
  - exists (false, g). split; [done|]. split; [done|]. simpl.
    split; [done|]. rewrite Hb. intros s Hs.
    by apply Hcompl, elem_of_nil in Hs.
  - simpl. destruct avail; cycle 1.
    { apply IH; [by intros; apply Hrest; right|done|done|].
      intros s Hs. apply Hcompl, elem_of_cons in Hs as [[=]|?]. done. }
    assert (wf_grid b) as Hwf by (rewrite <-Hb; by apply Inv_wf).
    pose proof (proj1 Hwf) as Hshape.
    destruct (proj1 (elem_of_enumerate cands val true)) as [Hval Hin];
      [apply Hrest; left|].
    assert (1 ≤ val ≤ 9) as Hrange.
    { apply lookup_lt_Some in Hin as Hlt.
      destruct (decide (val = 0)) as [->|]; [|lia].
      change (Z.to_nat 0) with 0%nat in Hin. congruence. }
    pose proof (proj1 (Hslots val Hrange) Hin) as Hfree.
    destruct (make_spec g r c val) as (g1 & -> & Hg1 & Hb1);
      [done|done|done|by rewrite Hb|done|].
    rewrite bind_Ret. rewrite Hb in Hb1.
    destruct (Hself g1) as ([solved g2] & -> & Hg2 & Hpost); [done| |].
    { rewrite Hb1, countZeros_setCell, Hempty by done.
      rewrite bool_decide_eq_false_2, bool_decide_eq_true_2 by (done || lia).
      simpl. lia. }
    rewrite bind_Ret. simpl in Hg2, Hpost. destruct solved.
    + exists (true, g2). split; [done|]. split; [done|]. simpl.
      destruct Hpost as (Hfull & Hext & Hcons). rewrite Hb, Hb1 in *.
      split; [done|]. split.
      * eapply extends_trans; [|done]. by apply extends_setCell.
      * intros Hcb. apply Hcons, consistent_setCell; try done.
        intros q Hq. apply Hfree, elem_of_unitCells; auto.
    + destruct Hpost as (Hb2 & Hnone). rewrite Hb1 in Hb2, Hnone.
      destruct (unmake_spec g2 r c) as (g3 & -> & Hg3 & Hb3); [done..| |].
      { rewrite Hb2, get_setCell_eq by done. lia. }
      rewrite bind_Ret.
      assert (cells g3 = b) as Hb3'.
      { rewrite Hb3, Hb2, <-Hempty. by apply setCell_undo. }
      destruct (IH) with (g := g3) as (res & Hres & Hg3' & Hpost3);
        [by intros; apply Hrest; right|done|done| |].
      { intros s Hs. pose proof (Hcompl s Hs) as Hin'.
        apply elem_of_cons in Hin' as [[= Heq]|?]; [|done].
        destruct (Hnone s). rewrite <-Heq.
        by apply completion_candidate. }
      exists res. split; [done|]. split; [done|].
      by rewrite Hb, <-Hb3'.
Qed.

Theorem search_correct (n fuel : nat) (g : St) :
  Inv g → countZeros (cells g) = Z.of_nat n → (n < fuel)%nat →
  ∃ res, search M fuel g = Ret res ∧ search_post cells Inv g res.
Proof.
  revert fuel g. induction n as [|n IH]; intros fuel g Hg Hcount Hfuel;
    (destruct fuel as [|fuel]; [lia|]); simpl.
  - rewrite (proj2 (valid_spec g Hg)) by done.
    exists (true, g). split; [done|]. split; [done|]. simpl.
    split; [by apply countZeros_zero|]. split; [apply extends_refl|done].
  - destruct (validSolution M g) eqn:Hvalid.
    { apply (valid_spec g Hg) in Hvalid. lia. }
    destruct (next_spec g Hg) as (r & c & -> & Hr & Hc & Hempty); [lia|].
    rewrite bind_Ret. rewrite cands_spec.
    pose proof (Inv_wf g Hg) as Hwf.
    destruct (cellCandidates_unit (cells g) r c Hwf Hr Hc)
      as (cands & -> & Hcleared).
    rewrite bind_Ret.
    apply (tryEach_correct n (search M fuel) (cells g) r c cands);
      try done.
    + intros g1 Hg1 Hcount1. apply IH; [done|done|lia].
    + intros s Hs.
      destruct (completion_candidate (cells g) s r c) as (Hv & Hfree & _);
        [apply Hwf|done..|].
      apply elem_of_enumerate. split; [lia|].
      by apply Hcleared.
Qed.

(** The result does not depend on the fuel, once there is more of it
    than there are empty cells. *)
Corollary search_result (g : St) :
  Inv g →
  ∃ res, search_post cells Inv g res ∧
         ∀ fuel, (Z.to_nat (countZeros (cells g)) < fuel)%nat →
                 search M fuel g = Ret res.
Proof.
  intros Hg. set (n := Z.to_nat (countZeros (cells g))).
  pose proof (countZeros_bounds (cells g)).
  destruct (search_correct n (S n) g) as (res & Hres & Hpost);
    [done|lia|lia|].
  exists res. split; [done|]. intros fuel Hfuel.
  rewrite <-Hres. apply search_mono; [lia|]. by rewrite Hres.
Qed.
End SearchCorrect.

(** ** [NextEmptyCell] of [Game] *)

Lemma incr_small (z : Z) : 0 ≤ z < 100 → incr z = z + 1.
Proof. intros Hz. unfold incr. apply wrap_id. unfold int_range. lia. Qed.

Lemma decr_small (z : Z) : 0 ≤ z ≤ 100 → decr z = z - 1.
Proof. intros Hz. unfold decr. apply wrap_id. unfold int_range. lia. Qed.

Lemma countCandidates_spec (cands : list bool) :
  length cands = 10%nat →
  countCandidates cands 0 = Ret (numCandidates cands) ∧
  0 ≤ numCandidates cands ≤ 9.
Proof.
  intros Hlen. unfold countCandidates, numCandidates.
  set (P := λ v : Z, cands !! Z.to_nat v = Some true).
  destruct (for_lt_inv
    (λ j cur, cur = Z.of_nat (length (filter P (seqZ 1 (j - 1)))))
    (λ i cur, a ← index cands i; Ret (if a : bool then incr cur else cur))
    1 (DIM + 1) 0) as (cur & Hrun & Hcur); [done|done| |].
  - intros j cur Hj ->. unfold DIM in Hj.
    destruct (lookup_lt_is_Some_2 cands (Z.to_nat j)) as [a Ha]; [lia|].
    rewrite (index_Ret _ _ a), bind_Ret by (done || lia).
    eexists. split; [done|].
    replace (j + 1 - 1) with ((j - 1) + 1) by lia.
    rewrite seqZ_app, filter_app, length_app by lia.
    replace (1 + (j - 1)) with j by lia.
    pose proof (length_filter P (seqZ 1 (j - 1))) as Hle.
    rewrite length_seqZ in Hle.
    change (seqZ j 1) with [j]. rewrite filter_cons, filter_nil.
    destruct (decide (P j)) as [HP|HP]; unfold P in HP; rewrite Ha in HP.
    + injection HP as ->. rewrite incr_small by lia. simpl. lia.
    + destruct a; [done|]. simpl. lia.
  - rewrite Hrun, Hcur. change (DIM + 1 - 1) with DIM. split; [done|].
    pose proof (length_filter P (seqZ 1 DIM)) as Hle.
    rewrite length_seqZ in Hle. unfold DIM in *. lia.
Qed.

Lemma candidateCount_spec (g : Game) (r c : Z) :
  wf_grid (board g) → 0 ≤ r < 9 → 0 ≤ c < 9 →
  ∃ cands, CellCandidates g r c = Ret cands ∧
           countCandidates cands 0 = Ret (candidateCount g r c) ∧
           0 ≤ candidateCount g r c ≤ 9.
Proof.
  intros Hwf Hr Hc. unfold candidateCount, CellCandidates.
  destruct (cellCandidates_unit (board g) r c Hwf Hr Hc) as (cands & -> & Hlen & _).
  exists cands. split; [done|]. by apply countCandidates_spec.
Qed.

Lemma scan_le_refl (p : Z * Z) : scan_le p p.
Proof. unfold scan_le. lia. Qed.

(** One step of the scan, at the cell [(ri, ci)]. *)
Lemma scan_step (g : Game) (ri ci : Z) (st : Z * Z * Z) :
  wf_grid (board g) → 0 ≤ ri < 9 → 0 ≤ ci < 9 → scan_inv g ri ci st →
  ∃ st',
    (let '(row, col, min) := st in
     if bool_decide (get (board g) ri ci = 0) then
       candidates ← CellCandidates g ri ci;
       cur ← countCandidates candidates 0;
       if bool_decide (cur < min) then Ret (ri, ci, cur)
       else Ret (row, col, min)
     else Ret (row, col, min)) = Ret st' ∧
    scan_inv g ri (ci + 1) st'.
Proof.
  intros Hwf Hri Hci. destruct st as [[row col] min]. intros [Hmin Hbest].
  assert (∀ p, scanned ri (ci + 1) p ↔ scanned ri ci p ∨ p = (ri, ci)) as Hscan.
  { intros [p1 p2]. unfold scanned. rewrite elem_of_allCells. simpl. split.
    - intros [? [?|[-> ?]]]; [left; lia|].
      destruct (decide (p2 = ci)) as [->|]; [by right|left; lia].
    - intros [[? ?]|[= -> ->]]; lia. }
  case_bool_decide as Hval; cycle 1.
  { exists (row, col, min). split; [done|]. split.
    - intros p [Hp| ->]%Hscan Hz; [by apply Hmin|done].
    - destruct Hbest as [?|(Hs & ? & ?)]; [by left|right].
      split; [|done]. apply Hscan. by left. }
  destruct (candidateCount_spec g ri ci Hwf Hri Hci)
    as (cands & Hcands & Hcount & Hcur).
  rewrite Hcands, bind_Ret, Hcount, bind_Ret.
  clear Hcands Hcount. set (cur := candidateCount g ri ci) in *.
  case_bool_decide as Hlt.
  - exists (ri, ci, cur). split; [done|]. split.
    + intros p [Hp| ->]%Hscan Hz.
      * destruct (Hmin p Hp Hz) as [Hle _]. split; lia.
      * split; [done|]. intros _. apply scan_le_refl.
    + right. split; [|done]. apply Hscan. by right.
  - exists (row, col, min). split; [done|].
    destruct Hbest as [(-> & _)|(Hs & Hz & Hcount)]; [unfold DIM in Hlt; lia|].
    split.
    + intros p [Hp| ->]%Hscan Hzp; [by apply Hmin|].
      split; [simpl; fold cur; lia|]. intros _.
      destruct Hs as [_ Hs]. unfold scan_le. simpl in *. lia.
    + right. split; [|done]. apply Hscan. by left.
Qed.

(** The scan returns, and its invariant holds of the state it ends in. *)
Lemma NextEmptyCell_scan (g : Game) :
  wf_grid (board g) →
  ∃ row col min, NextEmptyCell g = Ret (row, col) ∧
                 scan_inv g 9 0 (row, col, min).
Proof.
  intros Hwf. pose proof (proj1 Hwf) as [Hlen Hrows].
  unfold NextEmptyCell.
  destruct (for_range_inv (λ k st, scan_inv g (Z.of_nat k) 0 st)
    (λ ri cols st,
       for_range cols
         (λ ci val (st : Z * Z * Z),
            let '(row, col, min) := st in
            if bool_decide (val = 0) then
              candidates ← CellCandidates g ri ci;
              cur ← countCandidates candidates 0;
              if bool_decide (cur < min) then Ret (ri, ci, cur)
              else Ret (row, col, min)
            else Ret (row, col, min))
         st)
    (board g) (0, 0, DIM + 1)) as (st & -> & Hst).
  - split; [|by left]. intros p [[? ?]%elem_of_allCells ?]. simpl in *. lia.
  - intros k cols st Hk Hinv. apply lookup_lt_Some in Hk as Hklt.
    assert (length cols = 9%nat) as Hclen
      by (by eapply (proj1 (Forall_lookup _ _) Hrows)).
    destruct (for_range_inv (λ k' st, scan_inv g (Z.of_nat k) (Z.of_nat k') st)
      (λ ci val (st : Z * Z * Z),
         let '(row, col, min) := st in
         if bool_decide (val = 0) then
           candidates ← CellCandidates g (Z.of_nat k) ci;
           cur ← countCandidates candidates 0;
           if bool_decide (cur < min) then Ret (Z.of_nat k, ci, cur)
           else Ret (row, col, min)
         else Ret (row, col, min))
      cols st) as (st' & Hrun & Hst'); [done| |].
    + intros k' val u Hk' Hu. apply lookup_lt_Some in Hk' as Hk'lt.
      assert (val = get (board g) (Z.of_nat k) (Z.of_nat k')) as ->.
      { unfold get. rewrite !Nat2Z.id, Hk. simpl. by rewrite Hk'. }
      destruct (scan_step g (Z.of_nat k) (Z.of_nat k') u) as (u' & Hstep & Hu');
        [done|lia|lia|done|].
      exists u'. split; [done|].
      by replace (Z.of_nat (S k')) with (Z.of_nat k' + 1) by lia.
    + exists st'. split; [done|]. rewrite Hclen in Hst'.
      destruct st' as [[row col] min]. destruct Hst' as [Hmin Hbest].
      assert (∀ p, scanned (Z.of_nat k) (Z.of_nat 9) p
                   ↔ scanned (Z.of_nat (S k)) 0 p) as Hscan.
      { intros p. unfold scanned. rewrite elem_of_allCells. lia. }
      split; [by intros p Hp%Hscan; apply Hmin|].
      destruct Hbest as [?|(Hs%Hscan & ? & ?)]; [by left|by right].
  - rewrite bind_Ret. destruct st as [[row col] min].
    exists row, col, min. split; [done|]. by rewrite Hlen in Hst.
Qed.

(** Once every cell was visited and some cell is empty, a cell was
    picked. *)
Lemma scan_inv_picked (g : Game) (row col min : Z) (p0 : Z * Z) :
  wf_grid (board g) → scan_inv g 9 0 (row, col, min) →
  p0 ∈ allCells → get (board g) p0.1 p0.2 = 0 →
  (row, col) ∈ allCells ∧ get (board g) row col = 0 ∧
  candidateCount g row col = min.
Proof.
  intros Hwf [Hmin Hbest] Hp0 Hz0.
  destruct Hbest as [(-> & _)|([Hrc _] & Hz & Hcount)]; [|done].
  destruct (Hmin p0) as [Hle _]; [|done|].
  { split; [done|]. apply elem_of_allCells in Hp0. lia. }
  apply elem_of_allCells in Hp0 as [? ?].
  destruct (candidateCount_spec g p0.1 p0.2 Hwf) as (_ & _ & _ & ?);
    [done|done|]. unfold DIM in Hle. lia.
Qed.

(** C4: on a well-formed board with at least one empty cell,
    [NextEmptyCell] returns an empty cell whose candidate count is minimal
    among the empty cells, and every empty cell with the same count comes
    no earlier in row-major order. *)
Theorem NextEmptyCell_spec (g : Game) :
  wf_grid (board g) →
  (∃ p, p ∈ allCells ∧ get (board g) p.1 p.2 = 0) →
  ∃ row col,
    NextEmptyCell g = Ret (row, col) ∧
    (row, col) ∈ allCells ∧ get (board g) row col = 0 ∧
    ∀ p, p ∈ allCells → get (board g) p.1 p.2 = 0 →
         candidateCount g row col ≤ candidateCount g p.1 p.2 ∧
         (candidateCount g p.1 p.2 = candidateCount g row col →
          scan_le (row, col) p).
Proof.
  intros Hwf (p0 & Hp0 & Hz0).
  destruct (NextEmptyCell_scan g Hwf) as (row & col & min & Hrun & Hinv).
  destruct (scan_inv_picked g row col min p0 Hwf Hinv Hp0 Hz0)
    as (Hrc & Hz & Hcount).
  exists row, col. split; [done|]. split; [done|]. split; [done|].
  intros p Hp Hzp. rewrite Hcount. destruct Hinv as [Hmin _].
  apply Hmin; [|done]. split; [done|]. apply elem_of_allCells in Hp. lia.
Qed.

(** On [twoWayGame] the first empty cell in row-major order, (3, 3), has two
    candidates; the scan passes it and three more like it and returns
    (8, 0), the first of the two cells with one candidate. *)
Lemma NextEmptyCell_spec_witness :
  NextEmptyCell twoWayGame = Ret (8, 0) ∧
  candidateCount twoWayGame 3 3 = 2 ∧ candidateCount twoWayGame 8 0 = 1 ∧
  candidateCount twoWayGame 8 3 = 1 ∧
  ∃ row col,
    NextEmptyCell twoWayGame = Ret (row, col) ∧
    (row, col) ∈ allCells ∧ get (board twoWayGame) row col = 0 ∧
    ∀ p, p ∈ allCells → get (board twoWayGame) p.1 p.2 = 0 →
         candidateCount twoWayGame row col ≤ candidateCount twoWayGame p.1 p.2 ∧
         (candidateCount twoWayGame p.1 p.2 = candidateCount twoWayGame row col →
          scan_le (row, col) p).
Proof.
  split; [vm_compute; reflexivity|].
  split; [vm_compute; reflexivity|].
  split; [vm_compute; reflexivity|].
  split; [vm_compute; reflexivity|].
  apply (NextEmptyCell_spec twoWayGame); [compute_done|].
  exists (3, 3). split; [compute_done|vm_compute; reflexivity].
Defined.

(** ** [MakeMove] and [UnmakeMove] of [Game] *)

Lemma MakeMove_Ret (g : Game) (row col val : Z) :
  shape9 (board g) → 0 ≤ row < 9 → 0 ≤ col < 9 →
  MakeMove g row col val
  = Ret {| board := setCell (board g) row col val;
           remaining :=
             if bool_decide (get (board g) row col = 0)
                && bool_decide (val ≠ 0)
             then decr (remaining g) else remaining g;
           backtracks := backtracks g |}.
Proof.
  intros Hb Hr Hc. unfold MakeMove.
  by rewrite index2_get, bind_Ret, store2_set, bind_Ret.
Qed.

Lemma UnmakeMove_Ret (g : Game) (row col : Z) :
  shape9 (board g) → 0 ≤ row < 9 → 0 ≤ col < 9 →
  UnmakeMove g row col
  = Ret (if bool_decide (get (board g) row col ≠ 0)
         then {| board := setCell (board g) row col 0;
                 remaining := incr (remaining g);
                 backtracks := incr (backtracks g) |}
         else {| board := board g; remaining := remaining g;
                 backtracks := incr (backtracks g) |}).
Proof.
  intros Hb Hr Hc. unfold UnmakeMove. rewrite index2_get, bind_Ret by done.
  case_bool_decide; [|done]. by rewrite store2_set, !bind_Ret.
Qed.

Lemma game_MakeMove (g : Game) (row col val : Z) :
  game_inv g → 0 ≤ row < 9 → 0 ≤ col < 9 → get (board g) row col = 0 →
  1 ≤ val ≤ 9 →
  ∃ g', MakeMove g row col val = Ret g' ∧ game_inv g' ∧
        board g' = setCell (board g) row col val.
Proof.
  intros [Hwf Hrem] Hr Hc Hz Hv. eexists. split; [by apply MakeMove_Ret; [apply Hwf|..]|].
  split; [|done]. split; simpl; [apply wf_grid_setCell; [done|lia]|].
  rewrite countZeros_setCell, Hz by (done || apply Hwf).
  rewrite !bool_decide_eq_true_2 by (done || lia).
  rewrite bool_decide_eq_false_2 by lia. simpl.
  pose proof (countZeros_bounds (board g)).
  assert (0 < countZeros (board g))
    by (apply zerosAt_pos; exists (row, col); by rewrite elem_of_allCells).
  rewrite decr_small by lia. lia.
Qed.

Lemma game_UnmakeMove (g : Game) (row col : Z) :
  game_inv g → 0 ≤ row < 9 → 0 ≤ col < 9 → get (board g) row col ≠ 0 →
  ∃ g', UnmakeMove g row col = Ret g' ∧ game_inv g' ∧
        board g' = setCell (board g) row col 0.
Proof.
  intros [Hwf Hrem] Hr Hc Hnz. eexists.
  split; [by apply UnmakeMove_Ret; [apply Hwf|..]|].
  rewrite bool_decide_eq_true_2 by done.
  split; [|done]. split; simpl; [apply wf_grid_setCell; [done|lia]|].
  rewrite countZeros_setCell by (done || apply Hwf).
  rewrite bool_decide_eq_true_2 by done.
  rewrite bool_decide_eq_false_2 by done. simpl.
  pose proof (countZeros_bounds (board g)).
  pose proof (countZeros_bounds (setCell (board g) row col 0)) as Hb'.
  rewrite countZeros_setCell in Hb' by (done || apply Hwf).
  rewrite bool_decide_eq_true_2, bool_decide_eq_false_2 in Hb' by done.
  simpl in Hb'. rewrite incr_small by lia. lia.
Qed.

Lemma game_NextEmptyCell (g : Game) :
  game_inv g → countZeros (board g) ≠ 0 →
  ∃ r c, NextEmptyCell g = Ret (r, c) ∧ 0 ≤ r < 9 ∧ 0 ≤ c < 9 ∧
         get (board g) r c = 0.
Proof.
  intros [Hwf _] Hnz. pose proof (countZeros_bounds (board g)).
  assert (0 < zerosAt (board g) allCells) as Hsome
    by (fold (countZeros (board g)); lia).
  apply zerosAt_pos in Hsome as (p0 & Hp0 & Hz0).
  destruct (NextEmptyCell_scan g Hwf) as (r & c & min & Hrun & Hinv).
  destruct (scan_inv_picked g r c min p0 Hwf Hinv Hp0 Hz0)
    as ([? ?]%elem_of_allCells & Hz & _).
  by exists r, c.
Qed.

Lemma game_ValidSolution (g : Game) :
  game_inv g → ValidSolution g = true ↔ countZeros (board g) = 0.
Proof.
  intros [_ Hrem]. unfold ValidSolution. rewrite bool_decide_eq_true.
  by rewrite Hrem.
Qed.

(** [recursiveSolver] is the search over the methods of [Game]. *)
Lemma tryCandidates_tryEach (self : Game → outcome (bool * Game))
    (row col : Z) (rest : list (Z * bool)) (solved : bool) (g : Game) :
  tryCandidates self row col rest solved g
  = tryEach GameMethods self row col rest solved g.
Proof.
  revert solved g. induction rest as [|[val avail] rest IH]; intros solved g;
    [done|].
  simpl. destruct avail; [|apply IH].
  destruct (MakeMove g row col val) as [g1| |]; [|done|done]. simpl.
  destruct (self g1) as [[solved' g2]| |]; [|done|done]. simpl.
  destruct solved'; [done|].
  destruct (UnmakeMove g2 row col) as [g3| |]; [|done|done]. simpl.
  apply IH.
Qed.

Lemma recursiveSolver_search (fuel : nat) (g : Game) :
  recursiveSolver fuel g = search GameMethods fuel g.
Proof.
  revert g. induction fuel as [|fuel IH]; intros g; [done|]. simpl.
  destruct (ValidSolution g); [done|].
  destruct (NextEmptyCell g) as [[row col]| |]; [|done|done]. simpl.
  destruct (CellCandidates g row col) as [cands| |]; [|done|done]. simpl.
  rewrite tryCandidates_tryEach.
  generalize (enumerate cands) false g. intros rest.
  induction rest as [|[val avail] rest IHrest]; intros solved g0; [done|].
  simpl. destruct avail; [|apply IHrest].
  destruct (MakeMove g0 row col val) as [g1| |]; [|done|done]. simpl.
  rewrite IH.
  destruct (search GameMethods fuel g1) as [[solved' g2]| |]; [|done|done].
  simpl. destruct solved'; [done|].
  destruct (UnmakeMove g2 row col) as [g3| |]; [|done|done]. simpl.
  apply IHrest.
Qed.

(** The result of [recursiveSolver] on a board that satisfies the
    invariant on [remaining]. *)
Lemma recursiveSolver_result (g : Game) :
  game_inv g →
  ∃ res, search_post board game_inv g res ∧
         ∀ fuel, (Z.to_nat (remaining g) < fuel)%nat →
                 recursiveSolver fuel g = Ret res.
Proof.
  intros Hg.
  destruct (search_result GameMethods board game_inv) with (g := g)
    as (res & Hpost & Hrun); try done.
  - by intros ? [? _].
  - apply game_ValidSolution.
  - apply game_NextEmptyCell.
  - apply game_MakeMove.
  - apply game_UnmakeMove.
  - exists res. split; [done|]. intros fuel Hfuel.
    rewrite recursiveSolver_search. apply Hrun.
    destruct Hg as [_ <-]. done.
Qed.

(** C1: on a board that satisfies the data-model invariants and has a
    valid completion, [recursiveSolver] returns true (with any fuel above
    the number of empty cells), and the board it leaves has no zero cell
    and every row, column and box is a permutation of 1..9; it keeps the
    cells that were filled at the start. *)
Theorem recursiveSolver_solves (g : Game) :
  game_inv g → consistent (board g) → solvable (board g) →
  ∃ g', (∀ fuel, (Z.to_nat (remaining g) < fuel)%nat →
                 recursiveSolver fuel g = Ret (true, g')) ∧
        valid_solution (board g') ∧ extends (board g) (board g').
Proof.
  intros Hg Hcons [s Hs].
  destruct (recursiveSolver_result g Hg) as ([solved g'] & [Hg' Hpost] & Hrun).
  simpl in Hg', Hpost. destruct solved.
  - exists g'. split; [done|]. destruct Hpost as (Hfull & Hext & Hc).
    split; [|done]. apply full_consistent_valid; [apply Hg'|done|auto].
  - destruct Hpost as [_ Hnone]. by destruct (Hnone s).
Qed.

Lemma recursiveSolver_solves_witness :
  ∃ g', (∀ fuel, (Z.to_nat (remaining puzzleGame) < fuel)%nat →
                 recursiveSolver fuel puzzleGame = Ret (true, g')) ∧
        valid_solution (board g') ∧ extends (board puzzleGame) (board g').
Proof.
  apply (recursiveSolver_solves puzzleGame);
    [compute_done|compute_done|exists solvedGrid; compute_done].
Defined.

(** C2, as the code has it: on a board whose [remaining] is its number of
    empty cells, whenever [recursiveSolver] returns false the matrix and
    [remaining] are what they were before the call; and if moreover the
    filled cells satisfy row, column and box uniqueness and the board has
    no valid completion, [recursiveSolver] returns false (with any fuel
    above the number of empty cells). *)
Theorem recursiveSolver_failure (g : Game) :
  game_inv g →
  (∀ fuel g', recursiveSolver fuel g = Ret (false, g') →
              board g' = board g ∧ remaining g' = remaining g) ∧
  (consistent (board g) → unsolvable (board g) →
   ∃ g', (∀ fuel, (Z.to_nat (remaining g) < fuel)%nat →
                  recursiveSolver fuel g = Ret (false, g')) ∧
         board g' = board g ∧ remaining g' = remaining g).
Proof.
  intros Hg.
  destruct (recursiveSolver_result g Hg) as ([solved g1] & [Hg1 Hpost] & Hrun).
  simpl in Hg1, Hpost.
  assert (solved = false → board g1 = board g ∧ remaining g1 = remaining g)
    as Hrestored.
  { intros ->. destruct Hpost as [Hb _]. split; [done|].
    destruct Hg as [_ ->], Hg1 as [_ ->]. by rewrite Hb. }
  split.
  - intros fuel g' Hres.
    set (big := (fuel `max` S (Z.to_nat (remaining g)))%nat).
    assert (recursiveSolver big g = Ret (false, g')) as Hbig.
    { rewrite <-Hres, !recursiveSolver_search. apply search_mono; [lia|].
      by rewrite <-recursiveSolver_search, Hres. }
    rewrite Hrun in Hbig by lia. injection Hbig as -> ->. by apply Hrestored.
  - intros Hcons Hnone. destruct solved.
    + destruct Hpost as (Hfull & Hext & Hc). destruct (Hnone (board g1)).
      split; [|done]. apply full_consistent_valid; [apply Hg1|done|auto].
    + exists g1. split; [done|]. by apply Hrestored.
Qed.

Lemma deadEndGame_unsolvable : unsolvable (board deadEndGame).
Proof.
  intros s Hs.
  destruct (completion_candidate (board deadEndGame) s 0 0)
    as (Hv & Hfree & _); [compute_done|done|lia|lia|done|].
  assert (Forall (λ v, Exists (λ q, get (board deadEndGame) q.1 q.2 = v)
                         (unitCells 0 0)) (seqZ 1 9)) as Hall
    by compute_done.
  rewrite Forall_forall in Hall.
  assert (get s 0 0 ∈ seqZ 1 9) as Hin by (apply elem_of_seqZ; lia).
  destruct (proj1 (Exists_exists _ _) (Hall (get s 0 0) Hin))
    as (q & Hq & Heq).
  by apply (Hfree q).
Qed.

Lemma recursiveSolver_failure_witness :
  ∃ g', (∀ fuel, (Z.to_nat (remaining deadEndGame) < fuel)%nat →
                 recursiveSolver fuel deadEndGame = Ret (false, g')) ∧
        board g' = board deadEndGame ∧
        remaining g' = remaining deadEndGame.
Proof.
  apply (recursiveSolver_failure deadEndGame);
    [compute_done|compute_done|apply deadEndGame_unsolvable].
Defined.

(** C2 as stated fails on [duplicateGame], which has two 1s in its first
    row and so no valid completion: [recursiveSolver] fills its one empty
    cell and returns true.  And without the invariant on [remaining] a
    failing call does not restore the board: on [miscountedGame] it
    returns false with the first cell cleared and [remaining] raised. *)
Lemma recursiveSolver_failure_counterexample :
  (game_inv duplicateGame ∧ unsolvable (board duplicateGame) ∧
   ∃ g', recursiveSolver 82 duplicateGame = Ret (true, g')) ∧
  (∃ g', recursiveSolver 82 miscountedGame = Ret (false, g') ∧
         get (board miscountedGame) 0 0 = 2 ∧ get (board g') 0 0 = 0 ∧
         remaining miscountedGame = 1 ∧ remaining g' = 2).
Proof.
  split; [split; [compute_done|split]|].
  - intros s Hs%completion_consistent. revert Hs. compute_done.
  - eexists. vm_compute. reflexivity.
  - eexists. split; [vm_compute; reflexivity|]. vm_compute. done.
Qed.

(** ** The invariant on [remaining], and the round trip *)




(** C7: on a cell that holds 0, [MakeMove] with a value in 1..9 followed
    by [UnmakeMove] gives back the matrix and [remaining] and adds one to
    [backtracks]; and [UnmakeMove] on the empty cell itself changes
    nothing but [backtracks], which it also raises by one.  The counters
    are Go [int]s, and [backtracks] is not at the largest one. *)
Theorem MakeMove_UnmakeMove_roundtrip (g : Game) (row col v : Z) :
  index2 (board g) row col = Ret 0 → 1 ≤ v ≤ 9 →
  int_range (remaining g) → int_range (backtracks g) →
  backtracks g ≠ 2 ^ 63 - 1 →
  (∃ g1 g2, MakeMove g row col v = Ret g1 ∧
            index2 (board g1) row col = Ret v ∧
            UnmakeMove g1 row col = Ret g2 ∧
            index2 (board g2) row col = Ret 0 ∧
            board g2 = board g ∧ remaining g2 = remaining g ∧
            backtracks g2 = backtracks g + 1) ∧
  (∃ g3, UnmakeMove g row col = Ret g3 ∧
         board g3 = board g ∧ remaining g3 = remaining g ∧
         backtracks g3 = backtracks g + 1).
Proof.
  intros Hcell Hv Hrem Hback Hmax.
  assert (incr (backtracks g) = backtracks g + 1) as Hincr.
  { unfold incr. apply wrap_id. unfold int_range in *. lia. }
  pose proof (index2_inv _ _ _ _ Hcell) as (Hr & Hc & _ & cols & Hcols & Hval).
  apply lookup_lt_Some in Hval as Hclt.
  assert (∀ x, store2 (board g) row col x
               = Ret (<[Z.to_nat row := <[Z.to_nat col := x]> cols]> (board g)))
    as Hstore.
  { intros x. unfold store2.
    rewrite (index_Ret _ _ cols), bind_Ret by (done || lia).
    rewrite store_Ret, bind_Ret by lia. apply store_Ret. lia. }
  set (b1 := <[Z.to_nat row := <[Z.to_nat col := v]> cols]> (board g)).
  assert (b1 !! Z.to_nat row = Some (<[Z.to_nat col := v]> cols)) as Hcols1
    by (apply list_lookup_insert_eq; lia).
  assert (index2 b1 row col = Ret v) as Hcell1.
  { unfold index2. rewrite (index_Ret _ _ _ (proj1 Hr) Hcols1), bind_Ret.
    apply index_Ret; [done|]. by apply list_lookup_insert_eq. }
  assert (store2 b1 row col 0 = Ret (board g)) as Hstore1.
  { unfold store2. rewrite (index_Ret _ _ _ (proj1 Hr) Hcols1), bind_Ret.
    rewrite store_Ret, bind_Ret by (rewrite length_insert; lia).
    rewrite store_Ret by (unfold b1; rewrite length_insert; lia).
    f_equal. unfold b1. rewrite !list_insert_insert_eq.
    rewrite (list_insert_id cols) by done. by apply list_insert_id. }
  split.
  - eexists _, _. split; [|split; [|split; [|split]]].
    + unfold MakeMove. rewrite Hcell, bind_Ret, Hstore, bind_Ret. done.
    + exact Hcell1.
    + unfold UnmakeMove. cbn [board remaining backtracks]. fold b1.
      rewrite Hcell1, bind_Ret.
      rewrite bool_decide_eq_true_2 by lia.
      rewrite Hstore1, !bind_Ret. done.
    + exact Hcell.
    + cbn [board remaining backtracks].
      rewrite !bool_decide_eq_true_2 by (done || lia). simpl.
      by rewrite incr_decr.
  - eexists. split.
    + unfold UnmakeMove. rewrite Hcell, bind_Ret.
      rewrite bool_decide_eq_false_2 by (intros H; by apply H).
      rewrite bind_Ret. done.
    + done.
Qed.

Lemma MakeMove_UnmakeMove_roundtrip_witness :
  (∃ g1 g2, MakeMove puzzleGame 4 5 1 = Ret g1 ∧
            index2 (board g1) 4 5 = Ret 1 ∧
            UnmakeMove g1 4 5 = Ret g2 ∧
            index2 (board g2) 4 5 = Ret 0 ∧
            board g2 = board puzzleGame ∧
            remaining g2 = remaining puzzleGame ∧
            backtracks g2 = backtracks puzzleGame + 1) ∧
  (∃ g3, UnmakeMove puzzleGame 4 5 = Ret g3 ∧
         board g3 = board puzzleGame ∧
         remaining g3 = remaining puzzleGame ∧
         backtracks g3 = backtracks puzzleGame + 1).
Proof.
  apply (MakeMove_UnmakeMove_roundtrip puzzleGame 4 5 1);
    [vm_compute; reflexivity|lia|compute_done|compute_done|compute_done].
Defined.

(** ** Coordinates out of range *)

(** C5 fails at the edge: the guards of [CellCandidates] test [DIM < row]
    and [DIM < col], so 9 passes them and it is the runtime's bounds
    check on the matrix that stops the call, not the function's own
    "Invalid row" or "Invalid col" panic. *)
Theorem CellCandidates_edge_panic :
  CellCandidates NewGame 9 0 = Panic (IndexOutOfRange 9 9) ∧
  CellCandidates NewGame 0 9 = Panic (IndexOutOfRange 9 9) ∧
  CellCandidates NewGame 10 0 = Panic (InvalidRow 10) ∧
  CellCandidates NewGame 0 10 = Panic (InvalidCol 10) ∧
  CellCandidates NewGame (-1) 0 = Panic (InvalidRow (-1)) ∧
  CellCandidates NewGame 0 (-1) = Panic (InvalidCol (-1)).
Proof. repeat split; vm_compute; reflexivity. Qed.

(** Every call with a coordinate outside 0..8 panics, on every
    well-formed board. *)
Lemma CellCandidates_out_of_range (g : Game) (row col : Z) :
  wf_grid (board g) → ¬ (0 ≤ row < 9 ∧ 0 ≤ col < 9) →
  ∃ p, CellCandidates g row col = Panic p.
Proof.
  intros Hwf Hout. unfold CellCandidates.
  destruct (decide (row < 0 ∨ 9 < row)) as [Hrow|Hrow].
  { eexists. by apply cellCandidates_invalid_row. }
  destruct (decide (col < 0 ∨ 9 < col)) as [Hcol|Hcol].
  { eexists. apply cellCandidates_invalid_col; [lia|done]. }
  destruct (decide (row = 9)) as [->|Hrow9].
  { eexists. apply cellCandidates_row_9; [apply Hwf|lia]. }
  assert (col = 9) as -> by lia.
  eexists. apply cellCandidates_col_9; [done|lia].
Qed.

(** ** Slot 0 of the candidates *)

Section NeverZero.
Variable mk : Game → Z → Z → Z → outcome Game.
Hypothesis mk_nonzero :
  ∀ g row col val, val ≠ 0 → mk g row col val = MakeMove g row col val.

Lemma tryEach_never_zero (self self' : Game → outcome (bool * Game))
    (row col : Z) (rest : list (Z * bool)) (solved : bool) (g : Game) :
  (∀ g1, self' g1 = self g1) →
  (∀ val, (val, true) ∈ rest → val ≠ 0) →
  tryEach (withMakeMove mk) self' row col rest solved g
  = tryCandidates self row col rest solved g.
Proof.
  intros Hself. revert solved g.
  induction rest as [|[val avail] rest IH]; intros solved g Hrest; [done|].
  simpl. destruct avail; [|by apply IH; intros; apply Hrest; right].
  rewrite mk_nonzero by (apply Hrest; left).
  destruct (MakeMove g row col val) as [g1| |]; [|done|done]. simpl.
  rewrite Hself.
  destruct (self g1) as [[solved' g2]| |]; [|done|done]. simpl.
  destruct solved'; [done|].
  destruct (UnmakeMove g2 row col) as [g3| |]; [|done|done]. simpl.
  apply IH. intros; apply Hrest; by right.
Qed.

Lemma search_never_zero (fuel : nat) (g : Game) :
  search (withMakeMove mk) fuel g = recursiveSolver fuel g.
Proof.
  revert g. induction fuel as [|fuel IH]; intros g; [done|]. simpl.
  destruct (ValidSolution g); [done|].
  destruct (NextEmptyCell g) as [[row col]| |]; [|done|done]. simpl.
  destruct (CellCandidates g row col) as [cands| |] eqn:Hcands;
    [|done|done]. simpl.
  apply tryEach_never_zero; [done|].
  intros val Hval. pose proof (cellCandidates_avail _ _ _ _ _ Hcands Hval).
  lia.
Qed.
End NeverZero.

(** C10: on a well-formed board and at valid coordinates,
    [CellCandidates] returns a slice of length 10 whose slot 0 is false,
    so every value the candidate loop finds available is in 1..9; and
    [recursiveSolver] never calls [MakeMove] with value 0: on every board
    and with every fuel its outcome is unchanged when [MakeMove] is
    replaced by any [mk] that agrees with it on the non-zero values. *)
Theorem recursiveSolver_never_assigns_zero (g : Game) (row col : Z)
    (mk : Game → Z → Z → Z → outcome Game) :
  wf_grid (board g) → 0 ≤ row < 9 → 0 ≤ col < 9 →
  (∀ g0 r c val, val ≠ 0 → mk g0 r c val = MakeMove g0 r c val) →
  (∃ candidates,
     CellCandidates g row col = Ret candidates ∧
     length candidates = 10%nat ∧ index candidates 0 = Ret false ∧
     ∀ val, (val, true) ∈ enumerate candidates → 1 ≤ val ≤ 9) ∧
  (∀ fuel g0, search (withMakeMove mk) fuel g0 = recursiveSolver fuel g0).
Proof.
  intros Hwf Hrow Hcol Hmk. split.
  - destruct (cellCandidates_unit (board g) row col Hwf Hrow Hcol)
      as (cands & Hrun & _).
    exists cands. split; [done|].
    destruct (cellCandidates_shape _ _ _ _ Hrun) as [Hlen Hslot].
    split; [done|]. split; [by apply index_Ret|].
    intros val. by apply (cellCandidates_avail (board g) row col).
  - intros fuel g0. by apply search_never_zero.
Qed.

Lemma recursiveSolver_never_assigns_zero_witness :
  (∃ candidates,
     CellCandidates puzzleGame 0 0 = Ret candidates ∧
     length candidates = 10%nat ∧ index candidates 0 = Ret false ∧
     ∀ val, (val, true) ∈ enumerate candidates → 1 ≤ val ≤ 9) ∧
  (∀ fuel g0,
     search (withMakeMove
               (λ g r c val,
                  if bool_decide (val = 0) then Panic (IndexOutOfRange 0 0)
                  else MakeMove g r c val)) fuel g0
     = recursiveSolver fuel g0).
Proof.
  apply (recursiveSolver_never_assigns_zero puzzleGame 0 0); [compute_done|lia|lia|].
  intros g0 r c val Hval. by rewrite bool_decide_eq_false_2.
Defined.

(** ** [readGame] *)

Lemma digitsOf_app (l1 l2 : list Z) :
  digitsOf (l1 ++ l2) = digitsOf l1 ++ digitsOf l2.
Proof. unfold digitsOf. by rewrite filter_app, fmap_app. Qed.

Lemma digitsOf_take_length (line : list Z) (k : nat) :
  (length (digitsOf (take k line)) ≤ length (digitsOf line))%nat.
Proof.
  rewrite <-(take_drop k line) at 2. rewrite digitsOf_app, length_app. lia.
Qed.

Lemma length_padRow (ds : list Z) :
  (length ds ≤ 9)%nat → length (padRow ds) = 9%nat.
Proof. intros Hle. unfold padRow. rewrite length_app, length_replicate. lia. Qed.

Lemma padRow_snoc (ds : list Z) (v : Z) :
  (length ds < 9)%nat →
  <[length ds := v]> (padRow ds) = padRow (ds ++ [v]) ∧
  padRow ds !! length ds = Some 0.
Proof.
  intros Hlt. unfold padRow. rewrite length_app. simpl.
  replace (9 - length ds)%nat with (S (9 - (length ds + 1))) by lia.
  simpl. split.
  - rewrite insert_app_r_alt, Nat.sub_diag by lia. simpl.
    by rewrite <-app_assoc.
  - rewrite lookup_app_r, Nat.sub_diag by lia. done.
Qed.

Lemma readLine_spec (b : Game) (row : Z) (line : list Z) :
  shape9 (board b) → remaining b = countZeros (board b) → 0 ≤ row < 9 →
  board b !! Z.to_nat row = Some (replicate 9 0) →
  (length (digitsOf line) ≤ 9)%nat →
  ∃ b', readLine row line b = Ret b' ∧
        board b' = <[Z.to_nat row := padRow (digitsOf line)]> (board b) ∧
        remaining b' = countZeros (board b') ∧
        backtracks b' = backtracks b.
Proof.
  intros Hshape Hrem Hrow Hzeros Hlen. unfold readLine.
  destruct (for_range_inv (readLine_inv b row line)
    (λ (_ : Z) c (st : Z * Game),
       let '(col, b) := st in
       if bool_decide (47 < c) && bool_decide (c < 58) then
         b' ← (if bool_decide (c > 0) then MakeMove b row col (c - 48)
               else Ret b);
         Ret (incr col, b')
       else Ret (col, b))
    line (0, b)) as ([col b'] & -> & Hfinal).
  - split; [done|]. split; [|done]. simpl.
    symmetry. by apply list_insert_id.
  - intros k c [col bk] Hc (Hcol & Hboard & Hremk & Hback).
    simpl in Hcol, Hboard, Hremk, Hback.
    pose proof (digitsOf_take_length line (S k)) as Hle.
    unfold readLine_inv. cbn [fst snd].
    rewrite (take_S_r _ _ _ Hc), digitsOf_app in Hle |- *.
    set (ds := digitsOf (take k line)) in *.
    assert (length ds ≤ 9)%nat as Hds
      by (pose proof (digitsOf_take_length line k); unfold ds; lia).
    assert (shape9 (board bk)) as Hshapek.
    { rewrite Hboard. destruct Hshape as [Hl Hr]. split; [by rewrite length_insert|].
      apply Forall_insert; [done|]. by apply length_padRow. }
    destruct (decide (47 < c < 58)) as [Hdigit|Hother]; cycle 1.
    { assert (digitsOf [c] = []) as ->.
      { unfold digitsOf. rewrite filter_cons, decide_False by done. done. }
      rewrite app_nil_r.
      assert (bool_decide (47 < c) && bool_decide (c < 58) = false) as ->.
      { destruct (decide (47 < c)); decide_bools; done. }
      by eexists. }
    assert (digitsOf [c] = [c - 48]) as Hdc.
    { unfold digitsOf. rewrite filter_cons, decide_True by done. done. }
    rewrite Hdc in Hle |- *. rewrite length_app in Hle |- *. simpl in Hle.
    decide_bools. cbn [andb].
    assert (0 ≤ col < 9) as Hcolr by lia.
    rewrite MakeMove_Ret, !bind_Ret by done.
    eexists. split; [done|]. cbn [fst snd board remaining backtracks].
    destruct (padRow_snoc ds (c - 48)) as [Hsnoc Hhole]; [lia|].
    assert (board bk !! Z.to_nat row = Some (padRow ds)) as Hrowk.
    { rewrite Hboard. apply list_lookup_insert_eq. destruct Hshape. lia. }
    assert (get (board bk) row col = 0) as Hget.
    { unfold get. rewrite Hrowk. simpl. rewrite Hcol, Nat2Z.id. by rewrite Hhole. }
    assert (setCell (board bk) row col (c - 48)
            = <[Z.to_nat row := padRow (ds ++ [c - 48])]> (board b)) as Hset.
    { unfold setCell. rewrite Hrowk, Hboard, list_insert_insert_eq.
      by rewrite Hcol, Nat2Z.id, Hsnoc. }
    split; [rewrite incr_small by lia; simpl; lia|].
    split; [done|]. split; [|done].
    rewrite countZeros_setCell, Hget, Hremk by done.
    pose proof (countZeros_bounds (board bk)).
    destruct (decide (c - 48 = 0)); decide_bools; cbn [andb Z.b2z]; [lia|].
    rewrite decr_small by lia. lia.
  - exists b'. rewrite bind_Ret. split; [done|].
    destruct Hfinal as (_ & Hboard & Hrem' & Hback).
    by rewrite firstn_all in Hboard.
Qed.

Lemma readRows_spec (n : nat) (lines : list (list Z)) (b : Game)
    (done : grid) :
  (length done + n = 9)%nat → Forall (λ cols, length cols = 9%nat) done →
  board b = done ++ replicate n (replicate 9 0) →
  remaining b = countZeros (board b) →
  Forall (λ line, (length (digitsOf line) ≤ 9)%nat) (take n lines) →
  if decide (length lines < n)%nat
  then readRows n (Z.of_nat (length done)) lines b
       = Ret (inr (EOFWhileReadingRow
                     (Z.of_nat (length done) + Z.of_nat (length lines) + 1)))
  else ∃ g, readRows n (Z.of_nat (length done)) lines b = Ret (inl g) ∧
            board g
            = done ++ ((λ line, padRow (digitsOf line)) <$> take n lines) ∧
            remaining g = countZeros (board g) ∧
            backtracks g = backtracks b.
Proof.
  revert lines b done.
  induction n as [|n IH]; intros lines b done Hlen Hdone Hboard Hrem Hdigits.
  - rewrite decide_False by lia. exists b. split; [done|].
    split; [by rewrite take_0, Hboard|done].
  - destruct lines as [|line lines].
    { rewrite decide_True by (simpl; lia). cbn [readRows length].
      do 3 f_equal. lia. }
    cbn [readRows]. rewrite firstn_cons in Hdigits |- *.
    apply Forall_cons in Hdigits as [Hline Hdigits].
    destruct (readLine_spec b (Z.of_nat (length done)) line)
      as (b' & -> & Hboard' & Hrem' & Hback); [|done|lia| |done|].
    { rewrite Hboard. split; [rewrite length_app, length_replicate; lia|].
      apply Forall_app. split; [done|]. by apply Forall_replicate. }
    { rewrite Hboard, Nat2Z.id, lookup_app_r, Nat.sub_diag by lia. done. }
    rewrite bind_Ret.
    rewrite Hboard, Nat2Z.id, insert_app_r_alt, Nat.sub_diag in Hboard' by lia.
    simpl in Hboard'. rewrite cons_middle, app_assoc in Hboard'.
    specialize (IH lines b' (done ++ [padRow (digitsOf line)])).
    rewrite length_app in IH. simpl in IH.
    replace (Z.of_nat (length done + 1)) with (Z.of_nat (length done) + 1)
      in IH by lia.
    assert (Forall (λ cols, length cols = 9%nat)
              (done ++ [padRow (digitsOf line)])) as Hdone'.
    { apply Forall_app. split; [done|]. apply Forall_singleton.
      by apply length_padRow. }
    specialize (IH ltac:(lia) Hdone' Hboard' Hrem' Hdigits).
    destruct (decide (length lines < n)%nat) as [Hshort|Hlong].
    + rewrite decide_True by (simpl; lia). rewrite IH. do 3 f_equal.
      simpl length. lia.
    + rewrite decide_False by (simpl; lia).
      destruct IH as (g & Hrun & Hg & Hremg & Hbackg).
      exists g. split; [done|]. split; [|split; [done|congruence]].
      by rewrite Hg, fmap_cons, <-app_assoc.
Qed.

(** C8, as the code has it, for input whose first nine lines hold at most
    nine digit characters each: with fewer than nine lines [readGame]
    returns the "EOF while reading row" error for the first missing row;
    otherwise it returns a board whose row [r] holds the digits of line
    [r] in order, followed by empty cells when the line has fewer than
    nine (no error is raised for a short line); non-digit characters are
    skipped and lines after the ninth are not read. *)
Theorem readGame_spec (lines : list (list Z)) :
  Forall (λ line, (length (digitsOf line) ≤ 9)%nat) (take 9 lines) →
  ((length lines < 9)%nat →
   readGame lines
   = Ret (inr (EOFWhileReadingRow (Z.of_nat (length lines) + 1)))) ∧
  ((9 ≤ length lines)%nat →
   ∃ g, readGame lines = Ret (inl g) ∧
        board g = parsedGrid lines ∧
        remaining g = countZeros (board g) ∧ backtracks g = 0).
Proof.
  intros Hdigits.
  pose proof (readRows_spec 9 lines NewGame [] eq_refl (Forall_nil_2 _)
                eq_refl) as Hrows.
  specialize (Hrows ltac:(vm_compute; reflexivity) Hdigits).
  destruct (decide (length lines < 9)%nat); (split; [|intros ?]); try lia;
    [done|].
  destruct Hrows as (g & Hrun & Hboard & Hrem & Hback). by exists g.
Qed.

Lemma readGame_spec_witness :
  readGame (replicate 8 (runes "123456789"))
  = Ret (inr (EOFWhileReadingRow 9)) ∧
  ∃ g, readGame (replicate 9 (runes "1.3 x56")) = Ret (inl g) ∧
       board g = parsedGrid (replicate 9 (runes "1.3 x56")) ∧
       remaining g = countZeros (board g) ∧ backtracks g = 0.
Proof.
  split.
  - apply (readGame_spec (replicate 8 (runes "123456789")));
      [compute_done|vm_compute; lia].
  - apply (readGame_spec (replicate 9 (runes "1.3 x56")));
      [compute_done|vm_compute; lia].
Defined.

(** C8 as stated fails twice.  A line with fewer than nine digits is no
    error: nine empty lines give the empty board.  And a line with more
    than nine digits does not have its tenth digit ignored: the call
    panics on the column index. *)
Lemma readGame_counterexample :
  readGame (replicate 9 []) = Ret (inl NewGame) ∧
  readGame (replicate 9 (runes "1234567890"))
  = Panic (IndexOutOfRange 9 9).
Proof. split; vm_compute; reflexivity. Qed.

(** ** The [Board] variant *)

Lemma coords_lookup (f : Z → Z) (i : Z) :
  0 ≤ i < 9 → (f <$> coords) !! Z.to_nat i = Some (f i).
Proof.
  intros Hi. rewrite list_lookup_fmap. unfold coords, DIM.
  rewrite lookup_seqZ_lt by lia. simpl. f_equal. f_equal. lia.
Qed.

Lemma index_coords (f : Z → Z) (i : Z) :
  0 ≤ i < 9 → index (f <$> coords) i = Ret (f i).
Proof. intros Hi. apply index_Ret; [lia|by apply coords_lookup]. Qed.

Lemma coords_lookup_inv (f : Z → Z) (k : nat) (x : Z) :
  (f <$> coords) !! k = Some x → (k < 9)%nat ∧ x = f (Z.of_nat k).
Proof.
  rewrite list_lookup_fmap. unfold coords, DIM. intros Hk.
  destruct (seqZ 0 9 !! k) as [i|] eqn:Hi; [|done].
  apply lookup_seqZ in Hi as [-> ?]. simpl in Hk. injection Hk as <-.
  split; [lia|done].
Qed.

Lemma coords_insert (f : Z → Z) (i x : Z) :
  0 ≤ i < 9 →
  <[Z.to_nat i := x]> (f <$> coords)
  = (λ r, if decide (r = i) then x else f r) <$> coords.
Proof.
  intros Hi. apply list_eq. intros k.
  assert (∀ h : Z → Z, length (h <$> coords) = 9%nat) as Hlen
    by (intros h; by rewrite length_fmap).
  destruct (decide (k < 9)%nat) as [Hk|Hk]; cycle 1.
  { rewrite !lookup_ge_None_2; [done|..]; rewrite ?length_insert, Hlen; lia. }
  rewrite list_lookup_insert, Hlen.
  replace k with (Z.to_nat (Z.of_nat k)) by lia.
  rewrite (coords_lookup (λ r, if decide (r = i) then x else f r)) by lia.
  destruct (decide (Z.of_nat k = i)) as [<-|Hne].
  - by rewrite !decide_True by lia.
  - rewrite !decide_False by lia. apply coords_lookup. lia.
Qed.

Lemma rowCells_in (r : Z) (p : Z * Z) :
  0 ≤ p.2 < 9 → p ∈ rowCells r ↔ p.1 = r.
Proof. intros Hp. rewrite elem_of_rowCells. tauto. Qed.

Lemma colCells_in (c : Z) (p : Z * Z) :
  0 ≤ p.1 < 9 → p ∈ colCells c ↔ p.2 = c.
Proof. intros Hp. rewrite elem_of_colCells. tauto. Qed.

(** The counters that [board_inv] prescribes, after a cell changed. *)
Lemma rowCounters_setCell (b : grid) (row col v : Z) :
  shape9 b → 0 ≤ row < 9 → 0 ≤ col < 9 →
  (λ r, zerosAt (setCell b row col v) (rowCells r)) <$> coords
  = <[Z.to_nat row :=
        zerosAt b (rowCells row) + Z.b2z (bool_decide (v = 0))
        - Z.b2z (bool_decide (get b row col = 0))]>
      ((λ r, zerosAt b (rowCells r)) <$> coords).
Proof.
  intros Hb Hrow Hcol. rewrite coords_insert by done.
  apply list_fmap_ext. intros _ r Hr%list_elem_of_lookup_2%elem_of_coords.
  rewrite zerosAt_setCell; [|done..|apply NoDup_rowCells|].
  - destruct (decide (r = row)) as [->|Hne].
    + rewrite decide_True by (by apply rowCells_in). lia.
    + rewrite decide_False; [lia|]. rewrite rowCells_in by done. simpl. lia.
  - intros q [? ?]%elem_of_rowCells. apply elem_of_allCells. lia.
Qed.

Lemma colCounters_setCell (b : grid) (row col v : Z) :
  shape9 b → 0 ≤ row < 9 → 0 ≤ col < 9 →
  (λ c, zerosAt (setCell b row col v) (colCells c)) <$> coords
  = <[Z.to_nat col :=
        zerosAt b (colCells col) + Z.b2z (bool_decide (v = 0))
        - Z.b2z (bool_decide (get b row col = 0))]>
      ((λ c, zerosAt b (colCells c)) <$> coords).
Proof.
  intros Hb Hrow Hcol. rewrite coords_insert by done.
  apply list_fmap_ext. intros _ c Hc%list_elem_of_lookup_2%elem_of_coords.
  rewrite zerosAt_setCell; [|done..|apply NoDup_colCells|].
  - destruct (decide (c = col)) as [->|Hne].
    + rewrite decide_True by (by apply colCells_in). lia.
    + rewrite decide_False; [lia|]. rewrite colCells_in by done. simpl. lia.
  - intros q [? ?]%elem_of_colCells. apply elem_of_allCells. lia.
Qed.

Lemma zerosAt_unit_bounds (b : grid) (r : Z) :
  0 ≤ zerosAt b (rowCells r) ≤ 9 ∧ 0 ≤ zerosAt b (colCells r) ≤ 9.
Proof.
  pose proof (zerosAt_bounds b (rowCells r)) as Hr.
  pose proof (zerosAt_bounds b (colCells r)) as Hc.
  assert (length (rowCells r) = 9%nat) as Hlr
    by (unfold rowCells; by rewrite length_fmap).
  assert (length (colCells r) = 9%nat) as Hlc
    by (unfold colCells; by rewrite length_fmap).
  lia.
Qed.

Lemma board_MakeMove (b : Incremental.Board) (row col val : Z) :
  board_inv b → 0 ≤ row < 9 → 0 ≤ col < 9 →
  get (Incremental.cell b) row col = 0 → 1 ≤ val ≤ 9 →
  ∃ b', Incremental.MakeMove b row col val = Ret b' ∧ board_inv b' ∧
        Incremental.cell b' = setCell (Incremental.cell b) row col val.
Proof.
  intros (Hwf & Hrem & Hrows & Hcols) Hr Hc Hz Hv.
  pose proof (proj1 Hwf) as Hshape.
  pose proof (zerosAt_unit_bounds (Incremental.cell b) row) as [Hrb _].
  pose proof (zerosAt_unit_bounds (Incremental.cell b) col) as [_ Hcb].
  pose proof (countZeros_bounds (Incremental.cell b)) as Hzb.
  assert (length (Incremental.rowRemaining b) = 9%nat) as Hrl
    by (by rewrite Hrows, length_fmap).
  assert (length (Incremental.colRemaining b) = 9%nat) as Hcl
    by (by rewrite Hcols, length_fmap).
  assert (index (Incremental.rowRemaining b) row
          = Ret (zerosAt (Incremental.cell b) (rowCells row))) as Hir
    by (rewrite Hrows; by apply index_coords).
  assert (index (Incremental.colRemaining b) col
          = Ret (zerosAt (Incremental.cell b) (colCells col))) as Hic
    by (rewrite Hcols; by apply index_coords).
  eexists. split.
  { unfold Incremental.MakeMove.
    rewrite index2_get, bind_Ret, Hz by done. decide_bools. cbn [andb].
    rewrite Hir, bind_Ret, store_Ret, bind_Ret by lia.
    rewrite Hic, bind_Ret, store_Ret, !bind_Ret by lia.
    cbn [Incremental.cell]. rewrite store2_set, bind_Ret by done. done. }
  split; [|done]. unfold board_inv.
  cbn [Incremental.cell Incremental.remaining Incremental.rowRemaining
       Incremental.colRemaining].
  split; [apply wf_grid_setCell; [done|lia]|].
  rewrite countZeros_setCell, rowCounters_setCell, colCounters_setCell by done.
  rewrite Hz, Hrem, Hrows, Hcols. decide_bools. cbn [Z.b2z].
  rewrite !decr_small by lia. repeat split; f_equal; lia.
Qed.

Lemma board_UnmakeMove (b : Incremental.Board) (row col : Z) :
  board_inv b → 0 ≤ row < 9 → 0 ≤ col < 9 →
  get (Incremental.cell b) row col ≠ 0 →
  ∃ b', Incremental.UnmakeMove b row col = Ret b' ∧ board_inv b' ∧
        Incremental.cell b' = setCell (Incremental.cell b) row col 0.
Proof.
  intros (Hwf & Hrem & Hrows & Hcols) Hr Hc Hnz.
  pose proof (proj1 Hwf) as Hshape.
  pose proof (zerosAt_unit_bounds (Incremental.cell b) row) as [Hrb _].
  pose proof (zerosAt_unit_bounds (Incremental.cell b) col) as [_ Hcb].
  pose proof (countZeros_bounds (Incremental.cell b)) as Hzb.
  assert (length (Incremental.rowRemaining b) = 9%nat) as Hrl
    by (by rewrite Hrows, length_fmap).
  assert (length (Incremental.colRemaining b) = 9%nat) as Hcl
    by (by rewrite Hcols, length_fmap).
  assert (index (Incremental.rowRemaining b) row
          = Ret (zerosAt (Incremental.cell b) (rowCells row))) as Hir
    by (rewrite Hrows; by apply index_coords).
  assert (index (Incremental.colRemaining b) col
          = Ret (zerosAt (Incremental.cell b) (colCells col))) as Hic
    by (rewrite Hcols; by apply index_coords).
  eexists. split.
  { unfold Incremental.UnmakeMove.
    rewrite index2_get, bind_Ret by done. decide_bools.
    rewrite Hir, bind_Ret, store_Ret, bind_Ret by lia.
    rewrite Hic, bind_Ret, store_Ret, !bind_Ret by lia.
    rewrite store2_set, !bind_Ret by done. done. }
  split; [|done]. unfold board_inv.
  cbn [Incremental.cell Incremental.remaining Incremental.rowRemaining
       Incremental.colRemaining].
  split; [apply wf_grid_setCell; [done|lia]|].
  rewrite countZeros_setCell, rowCounters_setCell, colCounters_setCell by done.
  rewrite Hrem, Hrows, Hcols. decide_bools. cbn [Z.b2z].
  rewrite !incr_small by lia. repeat split; f_equal; lia.
Qed.

Lemma board_pickRow (b : Incremental.Board) :
  board_inv b → countZeros (Incremental.cell b) ≠ 0 →
  ∃ row rmin, Incremental.pickRow b = Ret (row, rmin) ∧ 0 ≤ row < 9 ∧
              0 < zerosAt (Incremental.cell b) (rowCells row).
Proof.
  intros (Hwf & Hrem & Hrows & Hcols) Hnz. unfold Incremental.pickRow.
  destruct (for_range_inv (pickRow_inv b)
    (λ i rem (st : Z * Z),
       let '(row, rmin) := st in
       if bool_decide (0 < rem) && bool_decide (rem < rmin)
       then Ret (i, rem) else Ret (row, rmin))
    (Incremental.rowRemaining b) (-1, DIM + 1)) as ([row rmin] & Hrun & Hinv).
  - left. split; [done|]. intros i Hi. lia.
  - intros k rem [row rmin] Hk Hinv. rewrite Hrows in Hk.
    apply coords_lookup_inv in Hk as [Hk ->].
    pose proof (zerosAt_unit_bounds (Incremental.cell b) (Z.of_nat k)) as [Hb _].
    destruct Hinv as [[[= -> ->] Hnone]|[Hrow Hpos]].
    + destruct (decide (0 < zerosAt (Incremental.cell b) (rowCells (Z.of_nat k))))
        as [Hp|Hp]; decide_bools; cbn [andb].
      * rewrite bool_decide_eq_true_2 by (unfold DIM; lia).
        eexists. split; [done|]. right. simpl. split; [lia|done].
      * eexists. split; [done|]. left. split; [done|].
        intros i Hi. destruct (decide (i = Z.of_nat k)) as [->|]; [lia|].
        apply Hnone. lia.
    + simpl in Hrow, Hpos.
      destruct (bool_decide (0 < _)) eqn:Hp;
        destruct (bool_decide (_ < rmin)) eqn:Hlt; cbn [andb];
        eexists; (split; [done|]); right; simpl; (split; [lia|]); try done.
      by apply bool_decide_eq_true in Hp.
  - exists row, rmin. split; [done|].
    assert (length (Incremental.rowRemaining b) = 9%nat) as Hlen
      by (by rewrite Hrows, length_fmap).
    rewrite Hlen in Hinv. destruct Hinv as [[_ Hnone]|[Hrow Hpos]]; [|done].
    pose proof (countZeros_bounds (Incremental.cell b)).
    assert (0 < zerosAt (Incremental.cell b) allCells) as Hsome
      by (fold (countZeros (Incremental.cell b)); lia).
    apply zerosAt_pos in Hsome as (p & [Hp1 Hp2]%elem_of_allCells & Hz).
    assert (0 < zerosAt (Incremental.cell b) (rowCells p.1)) as Hrowpos.
    { apply zerosAt_pos. exists p. split; [by apply rowCells_in|done]. }
    specialize (Hnone p.1). lia.
Qed.

Lemma board_pickCol (b : Incremental.Board) (row : Z) :
  board_inv b → 0 ≤ row < 9 →
  0 < zerosAt (Incremental.cell b) (rowCells row) →
  ∃ col cmin, Incremental.pickCol b row = Ret (col, cmin) ∧ 0 ≤ col < 9 ∧
              get (Incremental.cell b) row col = 0.
Proof.
  intros (Hwf & Hrem & Hrows & Hcols) Hrow Hpos. unfold Incremental.pickCol.
  pose proof (proj1 Hwf) as Hshape.
  destruct (for_range_inv (pickCol_inv b row)
    (λ i rem (st : Z * Z),
       let '(col, cmin) := st in
       v ← index2 (Incremental.cell b) row i;
       if bool_decide (v = 0) && bool_decide (0 < rem)
          && bool_decide (rem < cmin)
       then Ret (i, rem) else Ret (col, cmin))
    (Incremental.colRemaining b) (-1, DIM + 1)) as ([col cmin] & Hrun & Hinv).
  - left. split; [done|]. intros i Hi. lia.
  - intros k rem [col cmin] Hk Hinv. rewrite Hcols in Hk.
    apply coords_lookup_inv in Hk as [Hk ->].
    pose proof (zerosAt_unit_bounds (Incremental.cell b) (Z.of_nat k)) as [_ Hb].
    rewrite index2_get, bind_Ret by (done || lia).
    destruct (decide (get (Incremental.cell b) row (Z.of_nat k) = 0))
      as [Hz|Hnz]; decide_bools; cbn [andb].
    + assert (0 < zerosAt (Incremental.cell b) (colCells (Z.of_nat k))) as Hp.
      { apply zerosAt_pos. exists (row, Z.of_nat k).
        split; [by apply colCells_in|done]. }
      decide_bools. cbn [andb].
      destruct Hinv as [[[= -> ->] Hnone]|[Hcol Hzc]].
      * rewrite bool_decide_eq_true_2 by (unfold DIM; lia).
        eexists. split; [done|]. right. simpl. split; [lia|done].
      * simpl in Hcol, Hzc.
        destruct (bool_decide _); eexists; (split; [done|]); right; simpl;
          (split; [lia|done]).
    + eexists. split; [done|].
      destruct Hinv as [[Hst Hnone]|[Hcol Hzc]].
      * left. split; [done|]. intros i Hi.
        destruct (decide (i = Z.of_nat k)) as [->|]; [done|].
        apply Hnone. lia.
      * right. split; [lia|done].
  - exists col, cmin. split; [done|].
    assert (length (Incremental.colRemaining b) = 9%nat) as Hlen
      by (by rewrite Hcols, length_fmap).
    rewrite Hlen in Hinv. destruct Hinv as [[_ Hnone]|[Hcol Hz]]; [|done].
    apply zerosAt_pos in Hpos as (p & [<- Hp]%elem_of_rowCells & Hz).
    by destruct (Hnone p.2).
Qed.

Lemma board_NextEmptyCell (b : Incremental.Board) :
  board_inv b → countZeros (Incremental.cell b) ≠ 0 →
  ∃ r c, Incremental.NextEmptyCell b = Ret (r, c) ∧ 0 ≤ r < 9 ∧ 0 ≤ c < 9 ∧
         get (Incremental.cell b) r c = 0.
Proof.
  intros Hb Hnz. unfold Incremental.NextEmptyCell.
  destruct (board_pickRow b Hb Hnz) as (row & rmin & -> & Hrow & Hpos).
  rewrite bind_Ret. simpl.
  destruct (board_pickCol b row Hb Hrow Hpos) as (col & cmin & -> & Hcol & Hz).
  rewrite bind_Ret. simpl. by exists row, col.
Qed.

Lemma board_ValidSolution (b : Incremental.Board) :
  board_inv b →
  Incremental.ValidSolution b = true ↔ countZeros (Incremental.cell b) = 0.
Proof.
  intros (_ & Hrem & _). unfold Incremental.ValidSolution.
  rewrite bool_decide_eq_true. by rewrite Hrem.
Qed.

(** [Incremental.recursiveSolver] is the search over the methods of
    [Board]. *)
Lemma Incremental_recursiveSolver_search (fuel : nat)
    (b : Incremental.Board) :
  Incremental.recursiveSolver fuel b = search BoardMethods fuel b.
Proof.
  revert b. induction fuel as [|fuel IH]; intros b; [done|]. simpl.
  destruct (Incremental.ValidSolution b); [done|].
  destruct (Incremental.NextEmptyCell b) as [[row col]| |]; [|done|done].
  simpl.
  destruct (Incremental.CellCandidates b row col) as [cands| |];
    [|done|done]. simpl.
  generalize (enumerate cands) false b. intros rest.
  induction rest as [|[val avail] rest IHrest]; intros solved b0; [done|].
  simpl. destruct avail; [|apply IHrest].
  destruct (Incremental.MakeMove b0 row col val) as [b1| |]; [|done|done].
  simpl. rewrite IH.
  destruct (search BoardMethods fuel b1) as [[solved' b2]| |]; [|done|done].
  simpl. destruct solved'; [done|].
  destruct (Incremental.UnmakeMove b2 row col) as [b3| |]; [|done|done].
  simpl. apply IHrest.
Qed.

Lemma Incremental_recursiveSolver_result (b : Incremental.Board) :
  board_inv b →
  ∃ res, search_post Incremental.cell board_inv b res ∧
         ∀ fuel, (Z.to_nat (Incremental.remaining b) < fuel)%nat →
                 Incremental.recursiveSolver fuel b = Ret res.
Proof.
  intros Hb.
  destruct (search_result BoardMethods Incremental.cell board_inv)
    with (g := b) as (res & Hpost & Hrun); try done.
  - by intros ? [? _].
  - apply board_ValidSolution.
  - apply board_NextEmptyCell.
  - apply board_MakeMove.
  - apply board_UnmakeMove.
  - exists res. split; [done|]. intros fuel Hfuel.
    rewrite Incremental_recursiveSolver_search. apply Hrun.
    destruct Hb as (_ & <- & _). done.
Qed.

(** ** The two solvers side by side *)

(** C9, as the code has it: started on the same matrix, under the
    data-model invariants, both solvers return, with the same [solved],
    which is true exactly when the board has a valid completion; on
    failure both leave the matrix they started with, on success both leave
    a valid completion of it, and both leave the same [remaining].  The
    two completions are the same matrix when the board has only one; with
    several they need not be. *)
Theorem solvers_agree (g : Game) (b : Incremental.Board) :
  game_inv g → consistent (board g) →
  board_inv b → Incremental.cell b = board g →
  ∃ solved g' b',
    (∀ fuel, (Z.to_nat (remaining g) < fuel)%nat →
             recursiveSolver fuel g = Ret (solved, g')) ∧
    (∀ fuel, (Z.to_nat (remaining g) < fuel)%nat →
             Incremental.recursiveSolver fuel b = Ret (solved, b')) ∧
    (solved = true ↔ solvable (board g)) ∧
    (if solved
     then completion (board g) (board g') ∧
          completion (board g) (Incremental.cell b')
     else board g' = board g ∧ Incremental.cell b' = board g) ∧
    remaining g' = Incremental.remaining b' ∧
    ((∀ s s', completion (board g) s → completion (board g) s' → s = s') →
     board g' = Incremental.cell b').
Proof.
  intros Hg Hcons Hb Hcell.
  destruct (recursiveSolver_result g Hg) as ([s1 g'] & [Hg' Hpost1] & Hrun1).
  destruct (Incremental_recursiveSolver_result b Hb)
    as ([s2 b'] & [Hb' Hpost2] & Hrun2).
  simpl in Hg', Hpost1, Hb', Hpost2. rewrite Hcell in Hpost2.
  assert (Incremental.remaining b = remaining g) as Hremb.
  { destruct Hg as [_ ->], Hb as (_ & -> & _). by rewrite Hcell. }
  rewrite Hremb in Hrun2.
  assert (s1 = true → completion (board g) (board g')) as Hc1.
  { intros ->. destruct Hpost1 as (Hfull & Hext & Hc). split; [|done].
    apply full_consistent_valid; [apply Hg'|done|auto]. }
  assert (s2 = true → completion (board g) (Incremental.cell b')) as Hc2.
  { intros ->. destruct Hpost2 as (Hfull & Hext & Hc). split; [|done].
    apply full_consistent_valid; [apply Hb'|done|auto]. }
  assert (s2 = s1) as ->.
  { destruct s1, s2; try done.
    - destruct Hpost2 as [_ Hnone]. by destruct (Hnone (board g')); auto.
    - destruct Hpost1 as [_ Hnone].
      by destruct (Hnone (Incremental.cell b')); auto. }
  exists s1, g', b'. split; [done|]. split; [done|].
  assert (remaining g' = countZeros (board g')) as Hr1 by apply Hg'.
  assert (Incremental.remaining b' = countZeros (Incremental.cell b')) as Hr2
    by apply Hb'.
  destruct s1.
  - split; [split; [intros _; eexists; by apply Hc1|done]|].
    split; [split; auto|].
    split.
    + destruct Hpost1 as [Hf1 _], Hpost2 as [Hf2 _].
      apply countZeros_zero in Hf1, Hf2. congruence.
    + intros Huniq. apply Huniq; auto.
  - destruct Hpost1 as [Hb1 Hnone], Hpost2 as [Hb2 _].
    split; [split; [done|intros [s Hs]; by destruct (Hnone s)]|].
    split; [done|]. split; congruence.
Qed.

Lemma solvers_agree_witness :
  ∃ solved g' b',
    (∀ fuel, (Z.to_nat (remaining puzzleGame) < fuel)%nat →
             recursiveSolver fuel puzzleGame = Ret (solved, g')) ∧
    (∀ fuel, (Z.to_nat (remaining puzzleGame) < fuel)%nat →
             Incremental.recursiveSolver fuel (boardOf puzzleGame)
             = Ret (solved, b')) ∧
    (solved = true ↔ solvable (board puzzleGame)) ∧
    (if solved
     then completion (board puzzleGame) (board g') ∧
          completion (board puzzleGame) (Incremental.cell b')
     else board g' = board puzzleGame ∧
          Incremental.cell b' = board puzzleGame) ∧
    remaining g' = Incremental.remaining b' ∧
    ((∀ s s', completion (board puzzleGame) s →
              completion (board puzzleGame) s' → s = s') →
     board g' = Incremental.cell b').
Proof.
  apply (solvers_agree puzzleGame (boardOf puzzleGame));
    [compute_done|compute_done|compute_done|reflexivity].
Defined.

(** C9 as stated fails on [twoWayGame], which has two completions: both
    solvers return true, but the [Game] solver branches on cell (3, 3)
    first and puts 6 there, while the [Board] solver branches on cell
    (3, 7) first (its column has fewer empty cells) and puts 6 there. *)
Lemma solvers_agree_counterexample :
  game_inv twoWayGame ∧ consistent (board twoWayGame) ∧
  board_inv twoWayBoard ∧
  Incremental.cell twoWayBoard = board twoWayGame ∧
  ∃ g' b',
    recursiveSolver 82 twoWayGame = Ret (true, g') ∧
    Incremental.recursiveSolver 82 twoWayBoard = Ret (true, b') ∧
    board g' !! 3%nat = Some [2; 3; 1; 6; 7; 4; 8; 9; 5] ∧
    Incremental.cell b' !! 3%nat = Some [2; 3; 1; 9; 7; 4; 8; 6; 5].
Proof.
  split; [compute_done|]. split; [compute_done|]. split; [compute_done|].
  split; [reflexivity|]. eexists _, _.
  split; [vm_compute; reflexivity|].
  split; [vm_compute; reflexivity|]. split; reflexivity.
Qed.

(** ** Further properties of the search *)

Lemma solved_valid_iff (b s : grid) :
  wf_grid s → full s → extends b s →
  (consistent b → consistent s) →
  valid_solution s ↔ consistent b.
Proof.
  intros Hwf Hfull Hext Hcons. split.
  - intros Hvalid. by apply (completion_consistent b s).
  - intros Hb. apply full_consistent_valid; auto.
Qed.

(** X1: on every board whose [remaining] is its number of empty cells,
    [recursiveSolver] returns, with any fuel above that number, and never
    panics.  If it returns true the board is full, [remaining] is 0, every
    cell that was filled at the start still holds its value, and the board
    is a valid solution exactly when the cells filled at the start were
    consistent.  If it returns false the matrix and [remaining] are as at
    the start and the board has no valid completion. *)
Theorem recursiveSolver_outcome (g : Game) :
  game_inv g →
  ∃ solved g',
    (∀ fuel, (Z.to_nat (remaining g) < fuel)%nat →
             recursiveSolver fuel g = Ret (solved, g')) ∧
    game_inv g' ∧
    if solved
    then remaining g' = 0 ∧ full (board g') ∧
         extends (board g) (board g') ∧
         (valid_solution (board g') ↔ consistent (board g))
    else board g' = board g ∧ remaining g' = remaining g ∧
         unsolvable (board g).
Proof.
  intros Hg.
  destruct (recursiveSolver_result g Hg) as ([solved g'] & [Hg' Hpost] & Hrun).
  simpl in Hg', Hpost. exists solved, g'. split; [done|]. split; [done|].
  destruct solved.
  - destruct Hpost as (Hfull & Hext & Hcons).
    split; [|split; [done|split; [done|]]].
    + destruct Hg' as [_ ->]. by apply countZeros_zero.
    + apply solved_valid_iff; [apply Hg'|done..].
  - destruct Hpost as [Hb Hnone]. split; [done|]. split; [|done].
    destruct Hg as [_ ->], Hg' as [_ ->]. by rewrite Hb.
Qed.

Lemma recursiveSolver_outcome_witness :
  ∃ solved g',
    (∀ fuel, (Z.to_nat (remaining duplicateGame) < fuel)%nat →
             recursiveSolver fuel duplicateGame = Ret (solved, g')) ∧
    game_inv g' ∧
    if solved
    then remaining g' = 0 ∧ full (board g') ∧
         extends (board duplicateGame) (board g') ∧
         (valid_solution (board g') ↔ consistent (board duplicateGame))
    else board g' = board duplicateGame ∧
         remaining g' = remaining duplicateGame ∧
         unsolvable (board duplicateGame).
Proof. apply (recursiveSolver_outcome duplicateGame). compute_done. Defined.

(** X2: the same for the [Board] variant, whose invariant also covers the
    row and column counters. *)
Theorem Incremental_recursiveSolver_outcome (b : Incremental.Board) :
  board_inv b →
  ∃ solved b',
    (∀ fuel, (Z.to_nat (Incremental.remaining b) < fuel)%nat →
             Incremental.recursiveSolver fuel b = Ret (solved, b')) ∧
    board_inv b' ∧
    if solved
    then Incremental.remaining b' = 0 ∧ full (Incremental.cell b') ∧
         extends (Incremental.cell b) (Incremental.cell b') ∧
         (valid_solution (Incremental.cell b')
          ↔ consistent (Incremental.cell b))
    else Incremental.cell b' = Incremental.cell b ∧
         Incremental.remaining b' = Incremental.remaining b ∧
         Incremental.rowRemaining b' = Incremental.rowRemaining b ∧
         Incremental.colRemaining b' = Incremental.colRemaining b ∧
         unsolvable (Incremental.cell b).
Proof.
  intros Hb.
  destruct (Incremental_recursiveSolver_result b Hb)
    as ([solved b'] & [Hb' Hpost] & Hrun).
  simpl in Hb', Hpost. exists solved, b'. split; [done|]. split; [done|].
  destruct solved.
  - destruct Hpost as (Hfull & Hext & Hcons).
    split; [|split; [done|split; [done|]]].
    + destruct Hb' as (_ & -> & _). by apply countZeros_zero.
    + apply solved_valid_iff; [apply Hb'|done..].
  - destruct Hpost as [Hc Hnone]. split; [done|].
    destruct Hb as (_ & -> & -> & ->), Hb' as (_ & -> & -> & ->).
    by rewrite Hc.
Qed.

Lemma Incremental_recursiveSolver_outcome_witness :
  ∃ solved b',
    (∀ fuel, (Z.to_nat (Incremental.remaining twoWayBoard) < fuel)%nat →
             Incremental.recursiveSolver fuel twoWayBoard
             = Ret (solved, b')) ∧
    board_inv b' ∧
    if solved
    then Incremental.remaining b' = 0 ∧ full (Incremental.cell b') ∧
         extends (Incremental.cell twoWayBoard) (Incremental.cell b') ∧
         (valid_solution (Incremental.cell b')
          ↔ consistent (Incremental.cell twoWayBoard))
    else Incremental.cell b' = Incremental.cell twoWayBoard ∧
         Incremental.remaining b' = Incremental.remaining twoWayBoard ∧
         Incremental.rowRemaining b' = Incremental.rowRemaining twoWayBoard ∧
         Incremental.colRemaining b' = Incremental.colRemaining twoWayBoard ∧
         unsolvable (Incremental.cell twoWayBoard).
Proof.
  apply (Incremental_recursiveSolver_outcome twoWayBoard). compute_done.
Defined.

(** ** Edge behaviour of the board operations *)

(** X3: on a matrix without empty cell, of any shape, the scan of
    [NextEmptyCell] never assigns its results: it returns (0, 0), the
    initial values of the named results, although that cell is filled. *)
Theorem NextEmptyCell_full (g : Game) :
  Forall (Forall (λ v, v ≠ 0)) (board g) → NextEmptyCell g = Ret (0, 0).
Proof.
  intros Hfull. unfold NextEmptyCell.
  destruct (for_range_inv (λ _ st, st = (0, 0, DIM + 1))
    (λ ri cols st,
       for_range cols
         (λ ci val (st : Z * Z * Z),
            let '(row, col, min) := st in
            if bool_decide (val = 0) then
              candidates ← CellCandidates g ri ci;
              cur ← countCandidates candidates 0;
              if bool_decide (cur < min) then Ret (ri, ci, cur)
              else Ret (row, col, min)
            else Ret (row, col, min))
         st)
    (board g) (0, 0, DIM + 1)) as (st & -> & ->); [done| |done].
  intros k cols st Hcols ->.
  eapply (proj1 (Forall_lookup _ _)) in Hfull; [|done].
  apply (for_range_inv (λ _ st, st = (0, 0, DIM + 1))); [done|].
  intros k' val st Hval ->.
  eapply (proj1 (Forall_lookup _ _)) in Hfull; [|done]. simpl in Hfull.
  eexists. by rewrite bool_decide_eq_false_2.
Qed.

Lemma NextEmptyCell_full_witness :
  NextEmptyCell {| board := solvedGrid; remaining := 0; backtracks := 0 |}
  = Ret (0, 0).
Proof. apply NextEmptyCell_full. compute_done. Defined.

(** X4: [MakeMove] and [UnmakeMove] have no guard of their own: with a row
    outside 0..8 they stop on the runtime's bounds check of the matrix,
    and with a valid row and a column outside 0..8 on the bounds check of
    the row. *)
Theorem MakeMove_UnmakeMove_bounds (g : Game) (row col val : Z) :
  shape9 (board g) → ¬ (0 ≤ row < 9 ∧ 0 ≤ col < 9) →
  let p := if decide (0 ≤ row < 9) then IndexOutOfRange col 9
           else IndexOutOfRange row 9 in
  MakeMove g row col val = Panic p ∧ UnmakeMove g row col = Panic p.
Proof.
  intros Hshape Hout. unfold MakeMove, UnmakeMove.
  destruct (decide (0 ≤ row < 9)) as [Hrow|Hrow]; simpl.
  - destruct (shape9_lookup _ row Hshape Hrow) as (cols & Hcols & Hlen).
    rewrite (index2_panic_col _ row col cols) by (lia || done).
    by rewrite Hlen.
  - destruct Hshape as [Hlen _].
    rewrite index2_panic_row by lia. by rewrite Hlen.
Qed.

Lemma MakeMove_UnmakeMove_bounds_witness :
  MakeMove NewGame 3 9 5 = Panic (IndexOutOfRange 9 9) ∧
  UnmakeMove NewGame 3 9 = Panic (IndexOutOfRange 9 9).
Proof.
  apply (MakeMove_UnmakeMove_bounds NewGame 3 9 5); [compute_done|lia].
Defined.

(** ** The cell selector of the [Board] variant *)

Lemma pickRow_min (b : Incremental.Board) :
  board_inv b →
  ∃ st, Incremental.pickRow b = Ret st ∧ pickRow_min_inv b 9 st.
Proof.
  intros (Hwf & Hrem & Hrows & Hcols). unfold Incremental.pickRow.
  assert (length (Incremental.rowRemaining b) = 9%nat) as Hlen
    by (by rewrite Hrows, length_fmap).
  rewrite <-Hlen. apply for_range_inv.
  - split; [|by left]. intros i Hi. lia.
  - intros k rem [row rmin] Hk [Hmin Hbest]. rewrite Hrows in Hk.
    apply coords_lookup_inv in Hk as [Hk ->]. fold (rowZeros b (Z.of_nat k)).
    pose proof (zerosAt_unit_bounds (Incremental.cell b) (Z.of_nat k)) as [Hb _].
    fold (rowZeros b (Z.of_nat k)) in Hb. simpl in Hmin, Hbest.
    destruct (decide (0 < rowZeros b (Z.of_nat k) ∧ rowZeros b (Z.of_nat k) < rmin))
      as [[Hpos Hlt]|Hno].
    + decide_bools. cbn [andb]. eexists. split; [done|]. split; simpl.
      * intros i Hi Hzi. destruct (decide (i = Z.of_nat k)) as [->|]; [lia|].
        destruct (Hmin i) as [Hle _]; [lia|done|]. lia.
      * right. lia.
    + exists (row, rmin). split.
      { destruct (decide (0 < rowZeros b (Z.of_nat k))); decide_bools;
          cbn [andb]; done. }
      split; simpl.
      * intros i Hi Hzi. destruct (decide (i = Z.of_nat k)) as [->|];
          [|apply Hmin; [lia|done]].
        destruct Hbest as [[= -> ->]|?]; [unfold DIM in *; lia|lia].
      * destruct Hbest as [?|?]; [by left|right; lia].
Qed.

Lemma pickCol_min (b : Incremental.Board) (row : Z) :
  board_inv b → 0 ≤ row < 9 →
  ∃ st, Incremental.pickCol b row = Ret st ∧ pickCol_min_inv b row 9 st.
Proof.
  intros (Hwf & Hrem & Hrows & Hcols) Hrow. unfold Incremental.pickCol.
  pose proof (proj1 Hwf) as Hshape.
  assert (length (Incremental.colRemaining b) = 9%nat) as Hlen
    by (by rewrite Hcols, length_fmap).
  rewrite <-Hlen. apply for_range_inv.
  - split; [|by left]. intros i Hi. lia.
  - intros k rem [col cmin] Hk [Hmin Hbest]. rewrite Hcols in Hk.
    apply coords_lookup_inv in Hk as [Hk ->]. fold (colZeros b (Z.of_nat k)).
    pose proof (zerosAt_unit_bounds (Incremental.cell b) (Z.of_nat k)) as [_ Hb].
    fold (colZeros b (Z.of_nat k)) in Hb. simpl in Hmin, Hbest.
    rewrite index2_get, bind_Ret by (done || lia).
    destruct (decide (get (Incremental.cell b) row (Z.of_nat k) = 0))
      as [Hz|Hnz]; decide_bools; cbn [andb]; cycle 1.
    { exists (col, cmin). split; [done|]. split; simpl.
      - intros i Hi Hzi. destruct (decide (i = Z.of_nat k)) as [->|]; [done|].
        apply Hmin; [lia|done].
      - destruct Hbest as [?|?]; [by left|right; lia]. }
    assert (0 < colZeros b (Z.of_nat k)) as Hpos.
    { apply zerosAt_pos. exists (row, Z.of_nat k).
      split; [by apply colCells_in|done]. }
    decide_bools. cbn [andb].
    destruct (decide (colZeros b (Z.of_nat k) < cmin)) as [Hlt|Hge];
      decide_bools.
    + eexists. split; [done|]. split; simpl.
      * intros i Hi Hzi. destruct (decide (i = Z.of_nat k)) as [->|]; [lia|].
        destruct (Hmin i) as [Hle _]; [lia|done|]. lia.
      * right. lia.
    + exists (col, cmin). split; [done|]. split; simpl.
      * intros i Hi Hzi. destruct (decide (i = Z.of_nat k)) as [->|];
          [|apply Hmin; [lia|done]].
        destruct Hbest as [[= -> ->]|?]; [unfold DIM in *; lia|lia].
      * destruct Hbest as [?|?]; [by left|right; lia].
Qed.

Lemma rowZeros_pos (b : Incremental.Board) (r : Z) :
  0 ≤ r < 9 →
  0 < rowZeros b r ↔ ∃ c, 0 ≤ c < 9 ∧ get (Incremental.cell b) r c = 0.
Proof.
  intros Hr. unfold rowZeros. rewrite zerosAt_pos. split.
  - intros (p & [<- Hp]%elem_of_rowCells & Hz). by exists p.2.
  - intros (c & Hc & Hz). exists (r, c). split; [by apply elem_of_rowCells|done].
Qed.

(** X5: on a [Board] that satisfies its invariant and has an empty cell,
    [NextEmptyCell] returns an empty cell: its row is the first of the
    rows with the fewest (but some) empty cells, and within that row it is
    the first of the empty cells whose column has the fewest empty
    cells. *)
Theorem Incremental_NextEmptyCell_spec (b : Incremental.Board) :
  board_inv b → countZeros (Incremental.cell b) ≠ 0 →
  ∃ row col,
    Incremental.NextEmptyCell b = Ret (row, col) ∧
    0 ≤ row < 9 ∧ 0 ≤ col < 9 ∧ get (Incremental.cell b) row col = 0 ∧
    (∀ r, 0 ≤ r < 9 → 0 < rowZeros b r →
          rowZeros b row ≤ rowZeros b r ∧
          (rowZeros b r = rowZeros b row → row ≤ r)) ∧
    (∀ c, 0 ≤ c < 9 → get (Incremental.cell b) row c = 0 →
          colZeros b col ≤ colZeros b c ∧
          (colZeros b c = colZeros b col → col ≤ c)).
Proof.
  intros Hb Hnz. unfold Incremental.NextEmptyCell.
  destruct (pickRow_min b Hb) as ([row rmin] & -> & Hrmin & Hrbest).
  rewrite bind_Ret. simpl in *.
  pose proof (countZeros_bounds (Incremental.cell b)).
  assert (0 < zerosAt (Incremental.cell b) allCells) as Hsome
    by (fold (countZeros (Incremental.cell b)); lia).
  apply zerosAt_pos in Hsome as (p & [Hp1 Hp2]%elem_of_allCells & Hz).
  assert (0 < rowZeros b p.1) as Hp by (apply rowZeros_pos; eauto).
  destruct Hrbest as [[= -> ->]|(Hrow & -> & Hpos)].
  { destruct (Hrmin p.1) as [Hle _]; [lia|done|].
    pose proof (zerosAt_unit_bounds (Incremental.cell b) p.1) as [Hb1 _].
    unfold rowZeros, DIM in *. lia. }
  destruct (pickCol_min b row Hb) as ([col cmin] & -> & Hcmin & Hcbest);
    [lia|].
  rewrite bind_Ret. simpl in *.
  apply rowZeros_pos in Hpos as (c0 & Hc0 & Hz0); [|lia].
  destruct Hcbest as [[= -> ->]|(Hcol & Hzc & ->)].
  { destruct (Hcmin c0) as [Hle _]; [lia|done|].
    pose proof (zerosAt_unit_bounds (Incremental.cell b) c0) as [_ Hb1].
    unfold colZeros, DIM in *. lia. }
  exists row, col. split; [done|]. split; [lia|]. split; [lia|].
  split; [done|]. split.
  - intros r Hr. apply Hrmin. lia.
  - intros c Hc. apply Hcmin. lia.
Qed.

Lemma Incremental_NextEmptyCell_spec_witness :
  ∃ row col,
    Incremental.NextEmptyCell twoWayBoard = Ret (row, col) ∧
    0 ≤ row < 9 ∧ 0 ≤ col < 9 ∧
    get (Incremental.cell twoWayBoard) row col = 0 ∧
    (∀ r, 0 ≤ r < 9 → 0 < rowZeros twoWayBoard r →
          rowZeros twoWayBoard row ≤ rowZeros twoWayBoard r ∧
          (rowZeros twoWayBoard r = rowZeros twoWayBoard row → row ≤ r)) ∧
    (∀ c, 0 ≤ c < 9 → get (Incremental.cell twoWayBoard) row c = 0 →
          colZeros twoWayBoard col ≤ colZeros twoWayBoard c ∧
          (colZeros twoWayBoard c = colZeros twoWayBoard col → col ≤ c)).
Proof.
  apply (Incremental_NextEmptyCell_spec twoWayBoard);
    [compute_done|vm_compute; discriminate].
Defined.

(** X6: on a [Board] without empty cell the first loop of [NextEmptyCell]
    leaves [row] at -1, and the second loop then reads [b.cell[-1]]: the
    call panics on the runtime's bounds check (where the [Game] variant
    returns (0, 0)). *)
Theorem Incremental_NextEmptyCell_full (b : Incremental.Board) :
  board_inv b → countZeros (Incremental.cell b) = 0 →
  Incremental.NextEmptyCell b = Panic (IndexOutOfRange (-1) 9).
Proof.
  intros Hb Hfull. pose proof Hb as (Hwf & Hrem & Hrows & Hcols).
  unfold Incremental.NextEmptyCell.
  destruct (pickRow_min b Hb) as ([row rmin] & -> & Hrmin & Hrbest).
  rewrite bind_Ret. cbn [fst snd] in *.
  destruct Hrbest as [[= -> ->]|(Hrow & -> & Hpos)]; cycle 1.
  { apply rowZeros_pos in Hpos as (c & Hc & Hz); [|lia].
    assert (0 < countZeros (Incremental.cell b)); [|lia].
    apply zerosAt_pos. exists (row, c). by rewrite elem_of_allCells. }
  unfold Incremental.pickCol. rewrite Hcols.
  assert (∃ x l, (λ c, zerosAt (Incremental.cell b) (colCells c)) <$> coords
                 = x :: l) as (x & l & ->) by (by eexists _, _).
  unfold for_range. cbn [range_from].
  rewrite index2_panic_row by lia. destruct Hwf as [[-> _] _]. done.
Qed.

Lemma Incremental_NextEmptyCell_full_witness :
  Incremental.NextEmptyCell
    (boardOf {| board := solvedGrid; remaining := 0; backtracks := 0 |})
  = Panic (IndexOutOfRange (-1) 9).
Proof.
  apply Incremental_NextEmptyCell_full; [compute_done|vm_compute; reflexivity].
Defined.

(** ** [MakeMove] and [UnmakeMove] of the [Board] variant *)

Lemma counters_insert_same (f : Z → Z) (i x : Z) :
  0 ≤ i < 9 → x = f i → <[Z.to_nat i := x]> (f <$> coords) = f <$> coords.
Proof. intros Hi ->. apply list_insert_id. by apply coords_lookup. Qed.

Lemma board_MakeMove_Ret (b : Incremental.Board) (row col val : Z) :
  board_inv b → 0 ≤ row < 9 → 0 ≤ col < 9 →
  Incremental.MakeMove b row col val
  = Ret (if bool_decide (get (Incremental.cell b) row col = 0)
            && bool_decide (val ≠ 0)
         then {| Incremental.cell := setCell (Incremental.cell b) row col val;
                 Incremental.rowRemaining :=
                   <[Z.to_nat row := decr (rowZeros b row)]>
                     (Incremental.rowRemaining b);
                 Incremental.colRemaining :=
                   <[Z.to_nat col := decr (colZeros b col)]>
                     (Incremental.colRemaining b);
                 Incremental.remaining := decr (Incremental.remaining b);
                 Incremental.backtracks := Incremental.backtracks b |}
         else {| Incremental.cell := setCell (Incremental.cell b) row col val;
                 Incremental.rowRemaining := Incremental.rowRemaining b;
                 Incremental.colRemaining := Incremental.colRemaining b;
                 Incremental.remaining := Incremental.remaining b;
                 Incremental.backtracks := Incremental.backtracks b |}).
Proof.
  intros (Hwf & Hrem & Hrows & Hcols) Hr Hc.
  pose proof (proj1 Hwf) as Hshape.
  assert (length (Incremental.rowRemaining b) = 9%nat) as Hrl
    by (by rewrite Hrows, length_fmap).
  assert (length (Incremental.colRemaining b) = 9%nat) as Hcl
    by (by rewrite Hcols, length_fmap).
  assert (index (Incremental.rowRemaining b) row = Ret (rowZeros b row)) as Hir
    by (rewrite Hrows; by apply index_coords).
  assert (index (Incremental.colRemaining b) col = Ret (colZeros b col)) as Hic
    by (rewrite Hcols; by apply index_coords).
  unfold Incremental.MakeMove. rewrite index2_get, bind_Ret by done.
  destruct (bool_decide _ && bool_decide _).
  - rewrite Hir, bind_Ret, store_Ret, bind_Ret by lia.
    rewrite Hic, bind_Ret, store_Ret, !bind_Ret by lia.
    cbn [Incremental.cell]. by rewrite store2_set, bind_Ret by done.
  - by rewrite bind_Ret, store2_set, bind_Ret by done.
Qed.

Lemma board_UnmakeMove_Ret (b : Incremental.Board) (row col : Z) :
  board_inv b → 0 ≤ row < 9 → 0 ≤ col < 9 →
  Incremental.UnmakeMove b row col
  = Ret (if bool_decide (get (Incremental.cell b) row col ≠ 0)
         then {| Incremental.cell := setCell (Incremental.cell b) row col 0;
                 Incremental.rowRemaining :=
                   <[Z.to_nat row := incr (rowZeros b row)]>
                     (Incremental.rowRemaining b);
                 Incremental.colRemaining :=
                   <[Z.to_nat col := incr (colZeros b col)]>
                     (Incremental.colRemaining b);
                 Incremental.remaining := incr (Incremental.remaining b);
                 Incremental.backtracks := incr (Incremental.backtracks b) |}
         else {| Incremental.cell := Incremental.cell b;
                 Incremental.rowRemaining := Incremental.rowRemaining b;
                 Incremental.colRemaining := Incremental.colRemaining b;
                 Incremental.remaining := Incremental.remaining b;
                 Incremental.backtracks := incr (Incremental.backtracks b) |}).
Proof.
  intros (Hwf & Hrem & Hrows & Hcols) Hr Hc.
  pose proof (proj1 Hwf) as Hshape.
  assert (length (Incremental.rowRemaining b) = 9%nat) as Hrl
    by (by rewrite Hrows, length_fmap).
  assert (length (Incremental.colRemaining b) = 9%nat) as Hcl
    by (by rewrite Hcols, length_fmap).
  assert (index (Incremental.rowRemaining b) row = Ret (rowZeros b row)) as Hir
    by (rewrite Hrows; by apply index_coords).
  assert (index (Incremental.colRemaining b) col = Ret (colZeros b col)) as Hic
    by (rewrite Hcols; by apply index_coords).
  unfold Incremental.UnmakeMove. rewrite index2_get, bind_Ret by done.
  destruct (bool_decide _); [|done].
  rewrite Hir, bind_Ret, store_Ret, bind_Ret by lia.
  rewrite Hic, bind_Ret, store_Ret, !bind_Ret by lia.
  by rewrite store2_set, !bind_Ret by done.
Qed.

Lemma setCell_same (b : grid) (r c : Z) :
  shape9 b → 0 ≤ r < 9 → 0 ≤ c < 9 → setCell b r c (get b r c) = b.
Proof.
  intros Hb Hr Hc.
  destruct (shape9_lookup2 b r c Hb Hr Hc) as (cols & Hcols & Hlen & Hv).
  unfold setCell. rewrite Hcols, (list_insert_id cols) by done.
  by apply list_insert_id.
Qed.

(** A state is fixed by its matrix, its invariant and [backtracks]. *)
Lemma board_inv_eq (b b' : Incremental.Board) :
  board_inv b → board_inv b' → Incremental.cell b' = Incremental.cell b →
  Incremental.rowRemaining b' = Incremental.rowRemaining b ∧
  Incremental.colRemaining b' = Incremental.colRemaining b ∧
  Incremental.remaining b' = Incremental.remaining b.
Proof.
  intros (_ & -> & -> & ->) (_ & -> & -> & ->) ->. done.
Qed.

(** The invariant after the matrix changed in one cell, given that the
    counters were adjusted by the change in the number of empty cells. *)
Lemma board_inv_setCell (b : Incremental.Board) (row col val : Z)
    (rows cols : list Z) (rem back : Z) :
  board_inv b → 0 ≤ row < 9 → 0 ≤ col < 9 → 0 ≤ val ≤ 9 →
  let d := Z.b2z (bool_decide (val = 0))
           - Z.b2z (bool_decide (get (Incremental.cell b) row col = 0)) in
  rows = <[Z.to_nat row := rowZeros b row + d]> (Incremental.rowRemaining b) →
  cols = <[Z.to_nat col := colZeros b col + d]> (Incremental.colRemaining b) →
  rem = Incremental.remaining b + d →
  board_inv {| Incremental.cell := setCell (Incremental.cell b) row col val;
               Incremental.rowRemaining := rows;
               Incremental.colRemaining := cols;
               Incremental.remaining := rem;
               Incremental.backtracks := back |}.
Proof.
  intros (Hwf & Hrem & Hrows & Hcols) Hr Hc Hv d -> -> ->.
  pose proof (proj1 Hwf) as Hshape. unfold board_inv.
  cbn [Incremental.cell Incremental.remaining Incremental.rowRemaining
       Incremental.colRemaining].
  split; [by apply wf_grid_setCell|].
  rewrite countZeros_setCell, rowCounters_setCell, colCounters_setCell by done.
  rewrite Hrem, Hrows, Hcols. unfold d, rowZeros, colZeros.
  repeat split; f_equal; lia.
Qed.

Lemma board_MakeMove_inv (b : Incremental.Board) (row col val : Z) :
  board_inv b → 0 ≤ row < 9 → 0 ≤ col < 9 → 0 ≤ val ≤ 9 →
  val ≠ 0 ∨ get (Incremental.cell b) row col = 0 →
  ∃ b', Incremental.MakeMove b row col val = Ret b' ∧ board_inv b' ∧
        Incremental.cell b' = setCell (Incremental.cell b) row col val ∧
        Incremental.backtracks b' = Incremental.backtracks b.
Proof.
  intros Hb Hr Hc Hv Hok. pose proof Hb as (Hwf & Hrem & Hrows & Hcols).
  pose proof (proj1 Hwf) as Hshape.
  pose proof (zerosAt_unit_bounds (Incremental.cell b) row) as [Hrb _].
  pose proof (zerosAt_unit_bounds (Incremental.cell b) col) as [_ Hcb].
  pose proof (countZeros_bounds (Incremental.cell b)) as Hzb.
  fold (rowZeros b row) in Hrb. fold (colZeros b col) in Hcb.
  assert (Incremental.rowRemaining b
          = <[Z.to_nat row := rowZeros b row]> (Incremental.rowRemaining b))
    as Hrid.
  { rewrite Hrows. symmetry. by apply counters_insert_same. }
  assert (Incremental.colRemaining b
          = <[Z.to_nat col := colZeros b col]> (Incremental.colRemaining b))
    as Hcid.
  { rewrite Hcols. symmetry. by apply counters_insert_same. }
  eexists. split; [by apply board_MakeMove_Ret|].
  destruct (decide (get (Incremental.cell b) row col = 0)) as [Hz|Hnz];
    destruct (decide (val = 0)) as [Hv0|Hv0]; decide_bools; cbn [andb];
    try (by destruct Hok);
    (split; [|done]); apply board_inv_setCell; try done;
    decide_bools; cbn [Z.b2z];
    rewrite ?Z.sub_diag, ?Z.add_0_r, ?decr_small by lia; try done;
    lia || (f_equal; lia).
Qed.

Lemma board_UnmakeMove_inv (b : Incremental.Board) (row col : Z) :
  board_inv b → 0 ≤ row < 9 → 0 ≤ col < 9 →
  ∃ b', Incremental.UnmakeMove b row col = Ret b' ∧ board_inv b' ∧
        Incremental.cell b' = setCell (Incremental.cell b) row col 0 ∧
        Incremental.backtracks b' = incr (Incremental.backtracks b).
Proof.
  intros Hb Hr Hc. pose proof Hb as (Hwf & Hrem & Hrows & Hcols).
  pose proof (proj1 Hwf) as Hshape.
  pose proof (zerosAt_unit_bounds (Incremental.cell b) row) as [Hrb _].
  pose proof (zerosAt_unit_bounds (Incremental.cell b) col) as [_ Hcb].
  pose proof (countZeros_bounds (Incremental.cell b)) as Hzb.
  fold (rowZeros b row) in Hrb. fold (colZeros b col) in Hcb.
  eexists. split; [by apply board_UnmakeMove_Ret|].
  destruct (decide (get (Incremental.cell b) row col = 0)) as [Hz|Hnz];
    decide_bools.
  - split; [|split; [|done]]; cbn [Incremental.cell].
    + by destruct b.
    + transitivity (setCell (Incremental.cell b) row col
                      (get (Incremental.cell b) row col));
        [symmetry; by apply setCell_same | by rewrite Hz].
  - split; [|done]. apply board_inv_setCell; try done; decide_bools;
      cbn [Z.b2z]; rewrite ?incr_small by lia; try done;
      lia || (f_equal; lia).
Qed.

(** X7: the [Board] variant keeps its three kinds of counter in step with
    the matrix.  [MakeMove] does so for every value in 1..9 and for 0 on an
    empty cell, [UnmakeMove] always; [MakeMove] leaves [backtracks] alone
    and [UnmakeMove] counts one more. *)
Theorem Incremental_moves_keep_counters (b : Incremental.Board)
    (row col val : Z) :
  board_inv b → 0 ≤ row < 9 → 0 ≤ col < 9 → 0 ≤ val ≤ 9 →
  (val ≠ 0 ∨ get (Incremental.cell b) row col = 0 →
   ∃ b', Incremental.MakeMove b row col val = Ret b' ∧ board_inv b' ∧
         Incremental.cell b' = setCell (Incremental.cell b) row col val ∧
         Incremental.backtracks b' = Incremental.backtracks b) ∧
  (∃ b', Incremental.UnmakeMove b row col = Ret b' ∧ board_inv b' ∧
         Incremental.cell b' = setCell (Incremental.cell b) row col 0 ∧
         Incremental.backtracks b' = incr (Incremental.backtracks b)).
Proof.
  intros Hb Hr Hc Hv. split.
  - intros Hok. by apply board_MakeMove_inv.
  - by apply board_UnmakeMove_inv.
Qed.

Lemma Incremental_moves_keep_counters_witness :
  (5 ≠ 0 ∨ get (Incremental.cell twoWayBoard) 3 3 = 0 →
   ∃ b', Incremental.MakeMove twoWayBoard 3 3 5 = Ret b' ∧ board_inv b' ∧
         Incremental.cell b'
         = setCell (Incremental.cell twoWayBoard) 3 3 5 ∧
         Incremental.backtracks b' = Incremental.backtracks twoWayBoard) ∧
  (∃ b', Incremental.UnmakeMove twoWayBoard 3 3 = Ret b' ∧ board_inv b' ∧
         Incremental.cell b'
         = setCell (Incremental.cell twoWayBoard) 3 3 0 ∧
         Incremental.backtracks b'
         = incr (Incremental.backtracks twoWayBoard)).
Proof.
  apply (Incremental_moves_keep_counters twoWayBoard 3 3 5);
    [compute_done|lia|lia|lia].
Defined.

(** X8: in the [Board] variant, [MakeMove] with a value in 1..9 on an
    empty cell followed by [UnmakeMove] on that cell gives back the matrix
    and every counter; only [backtracks] has moved, by one. *)
Theorem Incremental_roundtrip (b : Incremental.Board) (row col val : Z) :
  board_inv b → 0 ≤ row < 9 → 0 ≤ col < 9 →
  get (Incremental.cell b) row col = 0 → 1 ≤ val ≤ 9 →
  ∃ b1,
    Incremental.MakeMove b row col val = Ret b1 ∧
    get (Incremental.cell b1) row col = val ∧
    Incremental.UnmakeMove b1 row col
    = Ret {| Incremental.cell := Incremental.cell b;
             Incremental.rowRemaining := Incremental.rowRemaining b;
             Incremental.colRemaining := Incremental.colRemaining b;
             Incremental.remaining := Incremental.remaining b;
             Incremental.backtracks := incr (Incremental.backtracks b) |}.
Proof.
  intros Hb Hr Hc Hz Hv. pose proof (proj1 (proj1 Hb)) as Hshape.
  destruct (board_MakeMove_inv b row col val Hb Hr Hc)
    as (b1 & Hrun1 & Hb1 & Hcell1 & Hback1); [lia|left; lia|].
  exists b1. split; [done|].
  assert (get (Incremental.cell b1) row col = val) as Hget1
    by (rewrite Hcell1; by apply get_setCell_eq).
  split; [done|].
  destruct (board_UnmakeMove_inv b1 row col Hb1 Hr Hc)
    as (b2 & Hrun2 & Hb2 & Hcell2 & Hback2).
  rewrite Hrun2. f_equal.
  assert (Incremental.cell b2 = Incremental.cell b) as Hcell.
  { rewrite Hcell2, Hcell1, <-Hz. by apply setCell_undo. }
  destruct (board_inv_eq b b2 Hb Hb2 Hcell) as (Hrows & Hcols & Hrem).
  destruct b2. simpl in *. by rewrite Hcell, Hrows, Hcols, Hrem, Hback2, Hback1.
Qed.

Lemma Incremental_roundtrip_witness :
  ∃ b1,
    Incremental.MakeMove twoWayBoard 3 3 6 = Ret b1 ∧
    get (Incremental.cell b1) 3 3 = 6 ∧
    Incremental.UnmakeMove b1 3 3
    = Ret {| Incremental.cell := Incremental.cell twoWayBoard;
             Incremental.rowRemaining :=
               Incremental.rowRemaining twoWayBoard;
             Incremental.colRemaining :=
               Incremental.colRemaining twoWayBoard;
             Incremental.remaining := Incremental.remaining twoWayBoard;
             Incremental.backtracks :=
               incr (Incremental.backtracks twoWayBoard) |}.
Proof.
  apply (Incremental_roundtrip twoWayBoard 3 3 6);
    [compute_done|lia|lia|vm_compute; reflexivity|lia].
Defined.

(** ** [readGame] on every input *)

Lemma digitsOf_range (line : list Z) : Forall (λ v, 0 ≤ v ≤ 9) (digitsOf line).
Proof.
  unfold digitsOf. apply Forall_fmap, Forall_forall.
  intros c [Hc _]%list_elem_of_filter. simpl. lia.
Qed.

Lemma wf_parsedGrid (lines : list (list Z)) :
  (9 ≤ length lines)%nat →
  Forall (λ line, (length (digitsOf line) ≤ 9)%nat) (take 9 lines) →
  wf_grid (parsedGrid lines).
Proof.
  intros Hlen Hdigits. unfold parsedGrid. split; [split|].
  - rewrite length_fmap, length_take. lia.
  - apply Forall_fmap. eapply Forall_impl; [done|].
    intros line Hline. by apply length_padRow.
  - apply Forall_fmap, Forall_forall. intros line _. simpl. unfold padRow.
    apply Forall_app. split; [apply digitsOf_range|].
    apply Forall_replicate. lia.
Qed.

(** The rune loop of [readGame] from any column: it panics on the column
    index as soon as a tenth digit is met. *)
Lemma readLine_loop (row : Z) (line : list Z) :
  0 ≤ row < 9 →
  ∀ (i col : Z) (g : Game),
    shape9 (board g) → 0 ≤ col ≤ 9 →
    let run :=
      range_from i line
        (λ _ c (st : Z * Game),
           let '(col, b) := st in
           if bool_decide (47 < c) && bool_decide (c < 58) then
             b' ← (if bool_decide (c > 0) then MakeMove b row col (c - 48)
                   else Ret b);
             Ret (incr col, b')
           else Ret (col, b))
        (col, g) in
    if decide (col + Z.of_nat (length (digitsOf line)) ≤ 9)
    then ∃ g', run = Ret (col + Z.of_nat (length (digitsOf line)), g') ∧
               shape9 (board g')
    else run = Panic (IndexOutOfRange 9 9).
Proof.
  intros Hrow. induction line as [|c line IH]; intros i col g Hshape Hcol.
  { cbn. rewrite decide_True by lia. exists g. by rewrite Z.add_0_r. }
  cbn [range_from]. cbv zeta in IH |- *.
  destruct (decide (47 < c < 58)) as [Hdigit|Hother]; cycle 1.
  { assert (digitsOf (c :: line) = digitsOf line) as ->.
    { unfold digitsOf. by rewrite filter_cons, decide_False by done. }
    assert (bool_decide (47 < c) && bool_decide (c < 58) = false) as ->.
    { destruct (decide (47 < c)); decide_bools; done. }
    rewrite bind_Ret. by apply IH. }
  assert (digitsOf (c :: line) = (c - 48) :: digitsOf line) as ->.
  { unfold digitsOf. by rewrite filter_cons, decide_True by done. }
  decide_bools. cbn [andb length].
  destruct (decide (col = 9)) as [->|Hne].
  - rewrite decide_False by lia. unfold MakeMove.
    destruct (shape9_lookup (board g) row Hshape Hrow) as (cols & Hcols & Hlen).
    rewrite (index2_panic_col (board g) row 9 cols) by (done || lia).
    by rewrite Hlen.
  - rewrite MakeMove_Ret, !bind_Ret, incr_small by (done || lia).
    match goal with
    | |- context [range_from _ _ _ (_, ?g1)] =>
      specialize (IH (i + 1) (col + 1) g1)
    end.
    cbn [board] in IH.
    specialize (IH ltac:(by apply shape9_setCell) ltac:(lia)).
    replace (col + Z.of_nat (S (length (digitsOf line))))
      with (col + 1 + Z.of_nat (length (digitsOf line))) by lia.
    done.
Qed.

Lemma readLine_digits (row : Z) (line : list Z) (g : Game) :
  0 ≤ row < 9 → shape9 (board g) →
  if decide (length (digitsOf line) ≤ 9)%nat
  then ∃ g', readLine row line g = Ret g' ∧ shape9 (board g')
  else readLine row line g = Panic (IndexOutOfRange 9 9).
Proof.
  intros Hrow Hshape. unfold readLine, for_range.
  pose proof (readLine_loop row line Hrow 0 0 g Hshape ltac:(lia)) as Hloop.
  cbv zeta in Hloop.
  destruct (decide (length (digitsOf line) ≤ 9)%nat).
  - rewrite decide_True in Hloop by lia. destruct Hloop as (g' & -> & Hg').
    exists g'. by rewrite bind_Ret.
  - rewrite decide_False in Hloop by lia. by rewrite Hloop.
Qed.

Lemma readRows_panic (n : nat) (lines : list (list Z)) (row : Z) (g : Game) :
  0 ≤ row → row + Z.of_nat n ≤ 9 → shape9 (board g) →
  Exists (λ line, (9 < length (digitsOf line))%nat) (take n lines) →
  readRows n row lines g = Panic (IndexOutOfRange 9 9).
Proof.
  revert lines row g.
  induction n as [|n IH]; intros lines row g Hrow Hn Hshape Hex.
  { rewrite take_0 in Hex. by apply Exists_nil in Hex. }
  destruct lines as [|line lines]; [by apply Exists_nil in Hex|].
  rewrite firstn_cons in Hex. cbn [readRows].
  pose proof (readLine_digits row line g ltac:(lia) Hshape) as Hline.
  destruct (decide (length (digitsOf line) ≤ 9)%nat) as [Hle|Hgt].
  - destruct Hline as (g' & -> & Hg'). rewrite bind_Ret.
    apply Exists_cons in Hex as [?|Hex]; [lia|].
    apply IH; [lia|lia|done|done].
  - by rewrite Hline.
Qed.

(** X9: [readGame] on every sequence of lines.  If one of the first nine
    lines (as far as there are that many) has more than nine digit
    characters, the call panics on the column index 9, whatever follows;
    otherwise, with fewer than nine lines it returns the error for the
    first missing row, and with nine or more it returns the board of the
    digits, whose cells are in 0..9 and whose [remaining] is its number of
    empty cells. *)
Theorem readGame_outcome (lines : list (list Z)) :
  if decide (Exists (λ line, (9 < length (digitsOf line))%nat) (take 9 lines))
  then readGame lines = Panic (IndexOutOfRange 9 9)
  else if decide (length lines < 9)%nat
  then readGame lines
       = Ret (inr (EOFWhileReadingRow (Z.of_nat (length lines) + 1)))
  else ∃ g, readGame lines = Ret (inl g) ∧ board g = parsedGrid lines ∧
            game_inv g ∧ backtracks g = 0.
Proof.
  destruct (decide (Exists _ _)) as [Hex|Hnone].
  { apply readRows_panic; [done|done|compute_done|done]. }
  assert (Forall (λ line, (length (digitsOf line) ≤ 9)%nat) (take 9 lines))
    as Hdigits.
  { apply Forall_forall. intros line Hin.
    destruct (decide (length (digitsOf line) ≤ 9)%nat); [done|].
    destruct Hnone. apply Exists_exists. exists line. split; [done|lia]. }
  pose proof (readRows_spec 9 lines NewGame [] eq_refl (Forall_nil_2 _)
                eq_refl) as Hrows.
  specialize (Hrows ltac:(vm_compute; reflexivity) Hdigits).
  destruct (decide (length lines < 9)%nat) as [Hshort|Hlong]; [done|].
  destruct Hrows as (g & Hrun & Hboard & Hrem & Hback).
  exists g. split; [done|]. split; [done|]. split; [|done].
  split; [|done]. rewrite Hboard. apply wf_parsedGrid; [lia|done].
Qed.

(** ** [readBoard] against [readGame] *)

Lemma outcome_rel_bind {A B C D} (R : A → B → Prop) (Q : C → D → Prop)
    (x : outcome A) (y : outcome B) (f : A → outcome C) (k : B → outcome D) :
  outcome_rel R x y → (∀ a b, R a b → outcome_rel Q (f a) (k b)) →
  outcome_rel Q (x ≫= f) (y ≫= k).
Proof. destruct x, y; simpl; try done. intros H Hk. by apply Hk. Qed.

Lemma game_MakeMove_inv (g : Game) (row col val : Z) :
  game_inv g → 0 ≤ row < 9 → 0 ≤ col < 9 → 0 ≤ val ≤ 9 →
  val ≠ 0 ∨ get (board g) row col = 0 →
  ∃ g', MakeMove g row col val = Ret g' ∧ game_inv g' ∧
        board g' = setCell (board g) row col val ∧
        backtracks g' = backtracks g.
Proof.
  intros [Hwf Hrem] Hr Hc Hv Hok. pose proof (proj1 Hwf) as Hshape.
  pose proof (countZeros_bounds (board g)) as Hzb.
  pose proof (countZeros_bounds (setCell (board g) row col val)) as Hzb'.
  rewrite countZeros_setCell in Hzb' by done.
  eexists. split; [by apply MakeMove_Ret|]. split; [|done].
  split; cbn [board remaining]; [by apply wf_grid_setCell|].
  rewrite countZeros_setCell by done. revert Hzb'.
  destruct (decide (get (board g) row col = 0)) as [Hz|Hnz];
    destruct (decide (val = 0)) as [Hv0|Hv0]; decide_bools;
    cbn [andb Z.b2z]; try (by destruct Hok); intros Hzb';
    rewrite ?decr_small by lia; lia.
Qed.

Lemma readLine_sim (row : Z) (line : list Z) :
  0 ≤ row < 9 →
  ∀ (i col : Z) (g : Game) (b : Incremental.Board),
    same_position g b → 0 ≤ col ≤ 9 → zeros_from (board g) row col →
    outcome_rel
      (λ s t, same_position s.2 t.2 ∧ zeros_from (board s.2) (row + 1) 0)
      (range_from i line
         (λ _ c (st : Z * Game),
            let '(col, b) := st in
            if bool_decide (47 < c) && bool_decide (c < 58) then
              b' ← (if bool_decide (c > 0) then MakeMove b row col (c - 48)
                    else Ret b);
              Ret (incr col, b')
            else Ret (col, b))
         (col, g))
      (range_from i line
         (λ _ c (st : Z * Incremental.Board),
            let '(col, b) := st in
            if bool_decide (47 < c) && bool_decide (c < 58) then
              b' ← (if bool_decide (c > 0)
                    then Incremental.MakeMove b row col (c - 48)
                    else Ret b);
              Ret (incr col, b')
            else Ret (col, b))
         (col, b)).
Proof.
  intros Hrow. induction line as [|c line IH]; intros i col g b Hsame Hcol Hz.
  { cbn. split; [done|]. intros r c' Hr Hc' Hpos. apply Hz; [done|done|lia]. }
  cbn [range_from].
  destruct (decide (47 < c < 58)) as [Hdigit|Hother]; cycle 1.
  { assert (bool_decide (47 < c) && bool_decide (c < 58) = false) as ->.
    { destruct (decide (47 < c)); decide_bools; done. }
    rewrite !bind_Ret. by apply IH. }
  decide_bools. cbn [andb].
  pose proof Hsame as (Hg & Hb & Hcell & Hback).
  pose proof (proj1 (proj1 Hg)) as Hshape.
  destruct (decide (col = 9)) as [->|Hne].
  - unfold MakeMove, Incremental.MakeMove. rewrite Hcell.
    destruct (shape9_lookup (board g) row Hshape Hrow) as (cols & Hcols & Hlen).
    rewrite (index2_panic_col (board g) row 9 cols) by (done || lia).
    done.
  - assert (get (board g) row col = 0) as Hget by (apply Hz; lia).
    destruct (game_MakeMove_inv g row col (c - 48) Hg Hrow)
      as (g1 & -> & Hg1 & Hboard1 & Hback1); [lia|lia|by right|].
    destruct (board_MakeMove_inv b row col (c - 48) Hb Hrow)
      as (b1 & -> & Hb1 & Hcell1 & Hbackb1);
      [lia|lia|right; by rewrite Hcell|].
    rewrite !bind_Ret, incr_small by lia.
    apply IH; [|lia|].
    + split; [done|]. split; [done|]. split; [|congruence].
      by rewrite Hcell1, Hboard1, Hcell.
    + intros r c' Hr Hc' Hpos. rewrite Hboard1.
      rewrite get_setCell by (done || lia).
      rewrite decide_False by lia. apply Hz; [done|done|lia].
Qed.

Lemma readRows_sim (n : nat) :
  ∀ (lines : list (list Z)) (row : Z) (g : Game) (b : Incremental.Board),
    0 ≤ row → row + Z.of_nat n ≤ 9 → same_position g b →
    zeros_from (board g) row 0 →
    outcome_rel same_result (readRows n row lines g)
      (Incremental.readRows n row lines b).
Proof.
  induction n as [|n IH]; intros lines row g b Hrow Hn Hsame Hz; [done|].
  destruct lines as [|line lines]; [done|].
  cbn [readRows Incremental.readRows].
  unfold readLine, Incremental.readLine, for_range.
  apply (outcome_rel_bind
           (λ g1 b1, same_position g1 b1 ∧ zeros_from (board g1) (row + 1) 0));
    [|intros g1 b1 [Hsame1 Hz1]; apply IH; [lia|lia|done|done]].
  eapply outcome_rel_bind;
    [apply (readLine_sim row line ltac:(lia) 0 0 g b Hsame ltac:(lia) Hz)|].
  intros s t Hst. exact Hst.
Qed.

(** X10: [readBoard] and [readGame] end alike on every input.  Both panic,
    with the same value, or both return the same error, or both return a
    state: then the two matrices are equal, [backtracks] agree, and the
    counters of each state are in step with its matrix. *)
Theorem readBoard_readGame (lines : list (list Z)) :
  outcome_rel same_result (readGame lines) (Incremental.readBoard lines).
Proof.
  apply readRows_sim; [done|done| |].
  - split; [compute_done|]. split; [compute_done|]. done.
  - intros r c Hr Hc _.
    assert ((r, c) ∈ allCells) as Hin by (by apply elem_of_allCells).
    assert (Forall (λ p, get (board NewGame) p.1 p.2 = 0) allCells) as Hall
      by compute_done.
    rewrite Forall_forall in Hall. by apply (Hall (r, c)).
Qed.

(** ** [validateSolution] *)

Lemma allCells_index (p : Z * Z) :
  p ∈ allCells → allCells !! Z.to_nat (9 * p.1 + p.2) = Some p.
Proof.
  revert p. apply Forall_forall. compute_done.
Qed.

Lemma allCells_earlier (p q : Z * Z) :
  p ∈ allCells → q ∈ allCells →
  q ∈ take (Z.to_nat (9 * p.1 + p.2)) allCells ↔ later q p.
Proof.
  intros Hp. revert q. apply Forall_forall. revert p Hp. apply Forall_forall.
  compute_done.
Qed.

Lemma wf_wipe (b : grid) (ps : list (Z * Z)) : wf_grid b → wf_grid (wipe b ps).
Proof.
  revert b. induction ps as [|p ps IH]; intros b Hwf; [done|].
  apply IH. by apply wf_grid_setCell.
Qed.

Lemma get_wipe (b : grid) (ps : list (Z * Z)) (q : Z * Z) :
  shape9 b → Forall (λ p, p ∈ allCells) ps → q ∈ allCells →
  get (wipe b ps) q.1 q.2 = if decide (q ∈ ps) then 0 else get b q.1 q.2.
Proof.
  revert b. induction ps as [|p ps IH]; intros b Hb Hps Hq.
  { rewrite decide_False by apply not_elem_of_nil. done. }
  apply Forall_cons in Hps as [Hp Hps]. cbn [wipe foldl].
  fold (wipe (setCell b p.1 p.2 0) ps).
  rewrite IH by (done || by apply shape9_setCell).
  apply elem_of_allCells in Hp as [Hp1 Hp2].
  apply elem_of_allCells in Hq as Hq'. destruct Hq' as [Hq1 Hq2].
  rewrite get_setCell by (done || lia).
  destruct (decide (q = p)) as [->|Hne].
  - rewrite (decide_True (P := p ∈ p :: ps)) by left.
    rewrite (decide_True (P := p.1 = p.1 ∧ p.2 = p.2)) by done.
    by destruct (decide (p ∈ ps)).
  - rewrite (decide_False (P := q.1 = p.1 ∧ q.2 = p.2)); cycle 1.
    { intros [? ?]. apply Hne. destruct p, q; simpl in *; congruence. }
    destruct (decide (q ∈ ps)) as [Hin|Hout].
    + by rewrite decide_True by (by right).
    + rewrite decide_False; [done|]. by intros [?|?]%elem_of_cons.
Qed.

(** The matrix when [validateSolution] has emptied the cell [p] and those
    before it. *)
Lemma get_wiped (b : grid) (p q : Z * Z) :
  shape9 b → p ∈ allCells → q ∈ allCells →
  get (wipe b (take (S (Z.to_nat (9 * p.1 + p.2))) allCells)) q.1 q.2
  = if decide (later p q) then get b q.1 q.2 else 0.
Proof.
  intros Hb Hp Hq.
  rewrite get_wipe; [|done| |done]; cycle 1.
  { apply Forall_forall. intros x Hx. by eapply subseteq_take. }
  rewrite (take_S_r _ _ p) by (by apply allCells_index).
  pose proof (allCells_earlier p q Hp Hq) as Hearlier.
  apply elem_of_allCells in Hp as [Hp1 Hp2].
  apply elem_of_allCells in Hq as [Hq1 Hq2].
  destruct (decide (later p q)) as [Hl|Hl].
  - rewrite decide_False; [done|].
    rewrite elem_of_app, Hearlier, list_elem_of_singleton.
    unfold later in *. intros [?| ->]; lia.
  - rewrite decide_True; [done|].
    rewrite elem_of_app, Hearlier, list_elem_of_singleton.
    unfold later in *.
    destruct (decide (q = p)) as [?|Hne]; [by right|left].
    assert (q.1 ≠ p.1 ∨ q.2 ≠ p.2) as Hor.
    { destruct (decide (q.1 = p.1)); [|by left]. right. intros ?.
      apply Hne. destruct p, q; simpl in *; congruence. }
    lia.
Qed.

Lemma reportsFor_snoc (b : grid) (ps : list (Z * Z)) (p : Z * Z) :
  reportsFor b (ps ++ [p])
  = reportsFor b ps
    ++ (if decide (flagged b p)
        then [InvalidValue (get b p.1 p.2) (p.1 + 1) (p.2 + 1)] else []).
Proof.
  unfold reportsFor. rewrite filter_app, fmap_app. f_equal.
  rewrite filter_cons, filter_nil. by destruct (decide (flagged b p)).
Qed.

(** One round of the inner loop of [validateSolution], at the cell
    [(row, col)], when the cells before it have been visited. *)
Lemma validate_step (b : grid) (rem back row col : Z) :
  wf_grid b → 0 ≤ row < 9 → 0 ≤ col < 9 →
  (expect ← index2 (wipe b (take (Z.to_nat (9 * row + col)) allCells)) row col;
   cells ← store2 (wipe b (take (Z.to_nat (9 * row + col)) allCells))
                  row col 0;
   candidates ← CellCandidates {| board := cells; remaining := rem;
                                  backtracks := back |} row col;
   ok ← index candidates expect;
   Ret (cells,
        if ok : bool
        then reportsFor b (take (Z.to_nat (9 * row + col)) allCells)
        else reportsFor b (take (Z.to_nat (9 * row + col)) allCells)
             ++ [InvalidValue expect (row + 1) (col + 1)]))
  = Ret (wipe b (take (S (Z.to_nat (9 * row + col))) allCells),
         reportsFor b (take (S (Z.to_nat (9 * row + col))) allCells)).
Proof.
  intros Hwf Hr Hc. pose proof (proj1 Hwf) as Hshape.
  set (k := Z.to_nat (9 * row + col)).
  assert ((row, col) ∈ allCells) as Hp by (by apply elem_of_allCells).
  assert (allCells !! k = Some (row, col)) as Hk
    by apply (allCells_index (row, col) Hp).
  assert (take (S k) allCells = take k allCells ++ [(row, col)]) as HtakeS
    by (by apply take_S_r).
  pose proof (wf_wipe b (take k allCells) Hwf) as Hwfc.
  assert (get (wipe b (take k allCells)) row col = get b row col) as Hget.
  { rewrite (get_wipe b _ (row, col)); [|done| |done].
    - rewrite decide_False; [done|]. intros Hin.
      apply (allCells_earlier (row, col) (row, col) Hp Hp) in Hin.
      unfold later in Hin. simpl in Hin. lia.
    - apply Forall_forall. intros x Hx. by eapply subseteq_take. }
  assert (setCell (wipe b (take k allCells)) row col 0
          = wipe b (take (S k) allCells)) as Hset.
  { rewrite HtakeS. unfold wipe. by rewrite foldl_app. }
  rewrite index2_get, bind_Ret, store2_set, bind_Ret, Hget, Hset
    by (done || apply Hwfc).
  pose proof (wf_wipe b (take (S k) allCells) Hwf) as Hwfc'.
  unfold CellCandidates. cbn [board].
  destruct (cellCandidates_cleared _ row col Hwfc' Hr Hc)
    as (cands & -> & Hlen & H0 & Hv).
  rewrite bind_Ret.
  pose proof (get_range b row col Hwf Hr Hc) as Hexpect.
  destruct (cands !! Z.to_nat (get b row col)) as [ok|] eqn:E; cycle 1.
  { apply lookup_ge_None in E. lia. }
  rewrite (index_Ret _ _ ok), bind_Ret by (done || lia).
  rewrite HtakeS, reportsFor_snoc. cbn [fst snd]. do 2 f_equal.
  assert (∀ q, q ∈ allCells →
               get (wipe b (take (S k) allCells)) q.1 q.2
               = if decide (later (row, col) q) then get b q.1 q.2 else 0)
    as Hwiped by (intros q Hq; by apply (get_wiped b (row, col) q)).
  assert (ok = true ↔ ¬ flagged b (row, col)) as Hok.
  { unfold flagged. cbn [fst snd].
    destruct (decide (get b row col = 0)) as [Hz|Hnz].
    { rewrite Hz in E. change (Z.to_nat 0) with 0%nat in E.
      split; [congruence|]. intros Hnot. destruct Hnot. by left. }
    rewrite Exists_exists.
    assert (ok = true ↔ cands !! Z.to_nat (get b row col) = Some true) as ->
      by (rewrite E; split; congruence).
    rewrite Hv by lia. split.
    - intros Hall [?|(q & Hq & Hl & Hsame)]; [done|].
      pose proof (peers_range _ _ Hp Hq) as Hq'.
      apply elem_of_peers in Hq as [_ Hq]. cbn [fst snd] in Hq.
      apply (Hall q Hq). rewrite (Hwiped q Hq'). by rewrite decide_True.
    - intros Hnot q Hq Hsame.
      assert (q ∈ allCells) as Hq'.
      { apply elem_of_allCells.
        destruct Hq as [[? ?]%elem_of_rowCells|[[? ?]%elem_of_colCells|Hq]];
          [lia|lia|by apply (boxCells_range row col)]. }
      rewrite (Hwiped q Hq') in Hsame.
      destruct (decide (later (row, col) q)) as [Hl|]; [|done].
      apply Hnot. right. exists q. split; [|done].
      apply elem_of_peers. split; [|done]. intros ->.
      unfold later in Hl. simpl in Hl. lia. }
  destruct (decide (flagged b (row, col))) as [Hf|Hnf].
  - destruct ok; [|done]. by destruct (proj1 Hok).
  - rewrite (proj2 Hok Hnf). by rewrite app_nil_r.
Qed.

Lemma validateSolution_run (b : Game) :
  wf_grid (board b) →
  validateSolution b
  = Ret (wipe (board b) allCells, reportsFor (board b) allCells).
Proof.
  intros Hwf. unfold validateSolution.
  destruct (for_lt_inv
    (λ row st, st = (wipe (board b) (take (Z.to_nat (9 * row)) allCells),
                     reportsFor (board b) (take (Z.to_nat (9 * row)) allCells)))
    (λ row st,
       for_lt 0 DIM
         (λ col (st : grid * list report),
            let '(cells, printed) := st in
            expect ← index2 cells row col;
            cells ← store2 cells row col 0;
            candidates ←
              CellCandidates {| board := cells; remaining := remaining b;
                                backtracks := backtracks b |} row col;
            ok ← index candidates expect;
            Ret (cells,
                 if ok : bool then printed
                 else printed ++ [InvalidValue expect (row + 1) (col + 1)]))
         st)
    0 DIM (board b, [])) as (st & -> & ->); [done|done| |].
  - intros row st Hrow ->. unfold DIM in Hrow.
    destruct (for_lt_inv
      (λ col st,
         st = (wipe (board b) (take (Z.to_nat (9 * row + col)) allCells),
               reportsFor (board b)
                 (take (Z.to_nat (9 * row + col)) allCells)))
      (λ col (st : grid * list report),
         let '(cells, printed) := st in
         expect ← index2 cells row col;
         cells ← store2 cells row col 0;
         candidates ←
           CellCandidates {| board := cells; remaining := remaining b;
                             backtracks := backtracks b |} row col;
         ok ← index candidates expect;
         Ret (cells,
              if ok : bool then printed
              else printed ++ [InvalidValue expect (row + 1) (col + 1)]))
      0 DIM
      (wipe (board b) (take (Z.to_nat (9 * row)) allCells),
       reportsFor (board b) (take (Z.to_nat (9 * row)) allCells)))
      as (st & -> & ->); [done|by rewrite Z.add_0_r| |].
    + intros col st Hcol ->. unfold DIM in Hcol.
      eexists. split; [by apply validate_step|].
      by replace (Z.to_nat (9 * row + (col + 1)))
        with (S (Z.to_nat (9 * row + col))) by lia.
    + eexists. split; [done|].
      by replace (Z.to_nat (9 * (row + 1))) with (Z.to_nat (9 * row + DIM))
        by (unfold DIM; lia).
  - by rewrite take_ge by (vm_compute; lia).
Qed.

Lemma grid_ext (a b : grid) :
  shape9 a → shape9 b →
  (∀ q, q ∈ allCells → get a q.1 q.2 = get b q.1 q.2) → a = b.
Proof.
  intros Ha Hb Hget. apply list_eq. intros i.
  destruct (decide (i < 9)%nat) as [Hi|Hi]; cycle 1.
  { destruct Ha as [Hla _], Hb as [Hlb _].
    by rewrite !lookup_ge_None_2 by lia. }
  destruct (shape9_lookup a (Z.of_nat i) Ha) as (ra & Hra & Hlra); [lia|].
  destruct (shape9_lookup b (Z.of_nat i) Hb) as (rb & Hrb & Hlrb); [lia|].
  rewrite Nat2Z.id in Hra, Hrb. rewrite Hra, Hrb. f_equal.
  apply list_eq. intros j.
  destruct (decide (j < 9)%nat) as [Hj|Hj]; cycle 1.
  { by rewrite !lookup_ge_None_2 by lia. }
  specialize (Hget (Z.of_nat i, Z.of_nat j)). unfold get in Hget.
  cbn [fst snd] in Hget. rewrite !Nat2Z.id, Hra, Hrb in Hget.
  destruct (lookup_lt_is_Some_2 ra j) as [x Hx]; [lia|].
  destruct (lookup_lt_is_Some_2 rb j) as [y Hy]; [lia|].
  simpl in Hget. rewrite Hx, Hy in Hget |- *. simpl in Hget. f_equal.
  apply Hget. apply elem_of_allCells. simpl. lia.
Qed.

Lemma shape9_wipe (b : grid) (ps : list (Z * Z)) :
  shape9 b → shape9 (wipe b ps).
Proof.
  revert b. induction ps as [|p ps IH]; intros b Hb; [done|].
  apply IH. by apply shape9_setCell.
Qed.

Lemma wipe_all (b : grid) :
  shape9 b → wipe b allCells = replicate 9 (replicate 9 0).
Proof.
  intros Hb. apply grid_ext; [by apply shape9_wipe|compute_done|].
  intros q Hq. rewrite get_wipe; [|done|by apply Forall_forall|done].
  rewrite decide_True by done. symmetry. revert q Hq.
  apply Forall_forall. compute_done.
Qed.

Lemma filter_nil_Forall {A} (P : A → Prop) `{!∀ x, Decision (P x)}
    (l : list A) :
  filter P l = [] ↔ Forall (λ x, ¬ P x) l.
Proof.
  induction l as [|x l IH]; [done|]. rewrite filter_cons, Forall_cons.
  destruct (decide (P x)); [|tauto]. split; [done|]. by intros [? _].
Qed.

(** No line is printed exactly for the valid solutions. *)
Lemma reportsFor_nil (b : grid) :
  wf_grid b → reportsFor b allCells = [] ↔ valid_solution b.
Proof.
  intros Hwf. unfold reportsFor. split.
  - intros Hnil%fmap_nil_inv%filter_nil_Forall.
    rewrite Forall_forall in Hnil.
    assert (full b) as Hfull.
    { apply full_spec. intros p Hp Hz. apply (Hnil p Hp). by left. }
    apply full_consistent_valid; [done|done|].
    apply consistent_spec. intros p q Hp Hq Hnz Heq.
    pose proof (peers_range _ _ Hp Hq) as Hq'.
    pose proof (peers_sym _ _ Hp Hq) as Hpq.
    apply elem_of_peers in Hq as Hne. destruct Hne as [Hne _].
    destruct (decide (later p q)) as [Hl|Hl].
    + apply (Hnil p Hp). right. apply Exists_exists. by exists q.
    + apply (Hnil q Hq'). right. apply Exists_exists. exists p.
      split; [done|]. split; [|done].
      apply elem_of_allCells in Hp as [? ?].
      apply elem_of_allCells in Hq' as [? ?]. unfold later in *.
      assert (q.1 ≠ p.1 ∨ q.2 ≠ p.2) as Hor.
      { destruct (decide (q.1 = p.1)); [|by left]. right. intros ?.
        apply Hne. destruct p, q; simpl in *; congruence. }
      lia.
  - intros Hvalid. pose proof (valid_solution_consistent b Hvalid) as Hcons.
    destruct Hvalid as (_ & Hfull & _).
    rewrite full_spec in Hfull. rewrite consistent_spec in Hcons.
    assert (filter (flagged b) allCells = []) as ->; [|done].
    apply filter_nil_Forall, Forall_forall.
    intros p Hp [Hz|(q & Hq & _ & Heq)%Exists_exists].
    + by apply (Hfull p Hp).
    + apply (Hcons p q Hp Hq); [by apply Hfull|done].
Qed.

(** X11: on a board whose cells are in 0..9 [validateSolution] returns
    without a panic.  It prints, in row-major order, one line for every
    cell that is empty or whose value is held again by a later cell of its
    row, column or box, with the value and the 1-based position; and it
    leaves the matrix it shares with its caller with every cell emptied. *)
Theorem validateSolution_spec (b : Game) :
  wf_grid (board b) →
  validateSolution b
  = Ret (replicate 9 (replicate 9 0), reportsFor (board b) allCells).
Proof.
  intros Hwf. rewrite validateSolution_run by done.
  by rewrite wipe_all by apply Hwf.
Qed.

Lemma validateSolution_spec_witness :
  validateSolution duplicateGame
  = Ret (replicate 9 (replicate 9 0),
         reportsFor (board duplicateGame) allCells).
Proof. apply (validateSolution_spec duplicateGame). compute_done. Defined.

(** X12: [validateSolution] prints nothing exactly when the board is a
    valid solution: full, with every row, column and box a permutation of
    1..9. *)
Theorem validateSolution_silent_iff (b : Game) :
  wf_grid (board b) →
  ∃ cells printed,
    validateSolution b = Ret (cells, printed) ∧
    (printed = [] ↔ valid_solution (board b)).
Proof.
  intros Hwf. eexists _, _. split; [by apply validateSolution_run|].
  by apply reportsFor_nil.
Qed.

Lemma validateSolution_silent_iff_witness :
  ∃ cells printed,
    validateSolution {| board := solvedGrid; remaining := 0;
                        backtracks := 0 |} = Ret (cells, printed) ∧
    (printed = [] ↔ valid_solution solvedGrid).
Proof.
  apply (validateSolution_silent_iff
           {| board := solvedGrid; remaining := 0; backtracks := 0 |}).
  compute_done.
Defined.

(** ** [main]: read, solve, validate *)

(** X13: the three calls of [main] in sequence, on input whose first nine
    lines exist and hold at most nine digits each.  [readGame] returns a
    board, [recursiveSolver] returns on it, and [validateSolution] returns
    on the result.  After the answer true, [validateSolution] prints
    nothing exactly when the digits read were consistent: on inconsistent
    input [main] reports a solved board and then invalid values.  After
    the answer false, the input has no valid completion and
    [validateSolution] prints at least one line. *)
Theorem main_solve_validate (lines : list (list Z)) :
  (9 ≤ length lines)%nat →
  Forall (λ line, (length (digitsOf line) ≤ 9)%nat) (take 9 lines) →
  ∃ g solved g' printed,
    readGame lines = Ret (inl g) ∧
    (∀ fuel, (Z.to_nat (remaining g) < fuel)%nat →
             recursiveSolver fuel g = Ret (solved, g')) ∧
    validateSolution g' = Ret (replicate 9 (replicate 9 0), printed) ∧
    if solved
    then printed = [] ↔ consistent (parsedGrid lines)
    else unsolvable (parsedGrid lines) ∧ printed ≠ [].
Proof.
  intros Hlen Hdigits.
  pose proof (readRows_spec 9 lines NewGame [] eq_refl (Forall_nil_2 _)
                eq_refl) as Hrows.
  specialize (Hrows ltac:(vm_compute; reflexivity) Hdigits).
  rewrite decide_False in Hrows by lia.
  destruct Hrows as (g & Hread & Hboard & Hrem & _).
  change ([] ++ ?l) with l in Hboard. fold (parsedGrid lines) in Hboard.
  assert (game_inv g) as Hg.
  { split; [|done]. rewrite Hboard. by apply wf_parsedGrid. }
  destruct (recursiveSolver_result g Hg) as ([solved g'] & [Hg' Hpost] & Hrun).
  cbn [fst snd] in Hg', Hpost.
  exists g, solved, g', (reportsFor (board g') allCells).
  split; [done|]. split; [done|].
  split.
  { rewrite validateSolution_run by apply Hg'.
    by rewrite wipe_all by apply Hg'. }
  rewrite <-Hboard. destruct solved.
  - destruct Hpost as (Hfull & Hext & Hcons).
    rewrite reportsFor_nil by apply Hg'.
    apply solved_valid_iff; [apply Hg'|done..].
  - destruct Hpost as [Hsame Hnone]. split; [done|].
    rewrite reportsFor_nil by apply Hg'. intros (_ & Hfull & _).
    rewrite Hsame in Hfull. apply countZeros_zero in Hfull.
    specialize (Hrun (S (Z.to_nat (remaining g))) ltac:(lia)).
    cbn [recursiveSolver] in Hrun.
    rewrite (proj2 (game_ValidSolution g Hg) Hfull) in Hrun. done.
Qed.

Lemma main_solve_validate_witness :
  ∃ g solved g' printed,
    readGame (replicate 9 (runes "1.3 x56")) = Ret (inl g) ∧
    (∀ fuel, (Z.to_nat (remaining g) < fuel)%nat →
             recursiveSolver fuel g = Ret (solved, g')) ∧
    validateSolution g' = Ret (replicate 9 (replicate 9 0), printed) ∧
    if solved
    then printed = [] ↔ consistent (parsedGrid (replicate 9 (runes "1.3 x56")))
    else unsolvable (parsedGrid (replicate 9 (runes "1.3 x56"))) ∧
         printed ≠ [].
Proof.
  apply (main_solve_validate (replicate 9 (runes "1.3 x56")));
    [vm_compute; lia|compute_done].
Defined.

(** ** [ValidSolution] *)


